(** * RoadGuard AI: detection correlation, track interpolation, parsers

    A shallow embedding of the pure code of the repository:

    - [utils/validationUtils.ts]: [calculateIou], [normalizeAiType],
      [calculatePrf] and [compareDetections];
    - [utils/gpxParser.ts] ([parseGpx]) and [components/VideoAnalysis.tsx]
      ([interpolateLocation] and its caller);
    - [utils/xmlParser.ts] ([parsePascalVoc]) and the validation step of
      [App.tsx]; [utils/exportUtils.ts] ([escapeCSV]).

    Numbers. The formulas of the comparison and of the interpolation are
    first read in exact arithmetic: JavaScript numbers as rationals ([Q],
    compared with [==]), a [Date] as its integer number of milliseconds.
    What depends on the arithmetic of the machine is stated on the module
    [Double], where the same code is embedded on IEEE 754 binary64
    numbers, the kernel's [float], with rounding, infinities and NaN.
    Counters that only ever start at 0 and are incremented are [nat].

    Strings are [string]s of 8-bit characters; their case mapping is that
    of JavaScript on ASCII characters, and statements that depend on it are
    made of ASCII strings. *)

From Stdlib Require Import QArith Lqa Lia ZArith.
From Stdlib Require Import String Ascii List Permutation Sorted.
From Stdlib Require Floats.
From stdpp Require Import gmap strings list fin_maps.

Local Open Scope Z_scope.
Local Open Scope Q_scope.
Local Set Warnings "-clear-no-such-hyp".

(** ** JavaScript number comparisons on rationals *)

(** [a <= b] *)
Definition Qleb (a b : Q) : bool := Qle_bool a b.
(** [a < b] *)
Definition Qltb (a b : Q) : bool := negb (Qle_bool b a).

(** [Math.max(a, b)] and [Math.min(a, b)] *)
Definition Math_max (a b : Q) : Q := if Qleb a b then b else a.
Definition Math_min (a b : Q) : Q := if Qleb a b then a else b.

(** ** Data model ([types.ts]) *)

Module BoundingBox.
Record t : Type := mk { x_min : Q; y_min : Q; x_max : Q; y_max : Q }.
End BoundingBox.

(** ** [calculateIou] *)

Section Iou.
Import BoundingBox.
Variables boxA boxB : BoundingBox.t.

Definition interWidth : Q :=
  let xA := Math_max (x_min boxA) (x_min boxB) in
  let xB := Math_min (x_max boxA) (x_max boxB) in
  xB - xA.

Definition interHeight : Q :=
  let yA := Math_max (y_min boxA) (y_min boxB) in
  let yB := Math_min (y_max boxA) (y_max boxB) in
  yB - yA.

(** The divisor [boxAArea + boxBArea - interArea] of the final division. *)
Definition iouDivisor : Q :=
  let interArea := interWidth * interHeight in
  let boxAArea := (x_max boxA - x_min boxA) * (y_max boxA - y_min boxA) in
  let boxBArea := (x_max boxB - x_min boxB) * (y_max boxB - y_min boxB) in
  boxAArea + boxBArea - interArea.

Definition calculateIou : Q :=
  if Qleb interWidth 0 || Qleb interHeight 0 then 0
  else
    let interArea := interWidth * interHeight in
    let iou := interArea / iouDivisor in
    iou.
End Iou.


(** ** Strings: the fragment of [String.prototype] the code uses *)

Local Open Scope string_scope.

Definition isUpperChar (c : ascii) : bool :=
  let n := N_of_ascii c in (65 <=? n)%N && (n <=? 90)%N.
Definition isLowerChar (c : ascii) : bool :=
  let n := N_of_ascii c in (97 <=? n)%N && (n <=? 122)%N.

Definition toLowerChar (c : ascii) : ascii :=
  if isUpperChar c then ascii_of_N (N_of_ascii c + 32) else c.
Definition toUpperChar (c : ascii) : ascii :=
  if isLowerChar c then ascii_of_N (N_of_ascii c - 32) else c.

(** [s.toLowerCase()] and [s.toUpperCase()] *)
Fixpoint toLowerCase (s : string) : string :=
  match s with
  | EmptyString => EmptyString
  | String c r => String (toLowerChar c) (toLowerCase r)
  end.
Fixpoint toUpperCase (s : string) : string :=
  match s with
  | EmptyString => EmptyString
  | String c r => String (toUpperChar c) (toUpperCase r)
  end.

(** [s.charAt(i)]: the one-character string at [i], empty out of range *)
Definition charAt (s : string) (i : nat) : string :=
  match String.get i s with
  | Some c => String c EmptyString
  | None => EmptyString
  end.

(** [s.slice(start)] *)
Fixpoint slice (s : string) (start : nat) {struct start} : string :=
  match start, s with
  | O, _ => s
  | S n, EmptyString => EmptyString
  | S n, String _ r => slice r n
  end.

(** [s.includes(sub)] *)
Fixpoint includes (s sub : string) : bool :=
  if String.prefix sub s then true
  else match s with
       | EmptyString => false
       | String _ r => includes r sub
       end.

(** The closed union [Defect['type']] of [types.ts], with its labels. *)
Inductive DefectType : Type :=
  | Pothole | Rutting | AlligatorCrack | Roughness | Distress
  | LongitudinalCrack | TransverseCrack | BlockCrack.

Definition DefectType_label (t : DefectType) : string :=
  match t with
  | Pothole => "Pothole"
  | Rutting => "Rutting"
  | AlligatorCrack => "Alligator Crack"
  | Roughness => "Roughness"
  | Distress => "Distress"
  | LongitudinalCrack => "Longitudinal Crack"
  | TransverseCrack => "Transverse Crack"
  | BlockCrack => "Block Crack"
  end.

(** At run time a detection label is a string; only [type] and
    [boundingBox] are read by the comparison. *)
Module Defect.
Record t : Type := mk { type : string; boundingBox : BoundingBox.t }.
End Defect.

Module GroundTruthDefect.
Record t : Type := mk { type : string; boundingBox : BoundingBox.t }.
End GroundTruthDefect.

(** ** [normalizeAiType] and the inline normalization of reference labels *)

Definition normalizeAiType (type : string) : string :=
  let lowerType := toLowerCase type in
  if includes lowerType "crack" then "Crack"
  else if includes lowerType "pothole" then "Pothole"
  else type.

(** [d.type.charAt(0).toUpperCase() + d.type.slice(1).toLowerCase()],
    written out four times in [compareDetections]. *)
Definition normalizeGtType (type : string) : string :=
  toUpperCase (charAt type 0) ++ toLowerCase (slice type 1).

(** *** The words of the specification for labels

    "Capitalize first letter, lowercase remainder" and "case-insensitive",
    letter by letter over the two alphabets: a second reading of the case
    of letters, independent of [toUpperCase] and [toLowerCase] above. *)
Definition smallLetters : string := "abcdefghijklmnopqrstuvwxyz".
Definition capitalLetters : string := "ABCDEFGHIJKLMNOPQRSTUVWXYZ".

(** The position of a character in an alphabet. *)
Fixpoint positionIn (c : ascii) (alphabet : string) : option nat :=
  match alphabet with
  | EmptyString => None
  | String a rest =>
      if Ascii.eqb c a then Some 0%nat else S <$> positionIn c rest
  end.

(** The letter of [target] that stands where [c] stands in [source]; [c]
    itself when it is not a letter of [source]. *)
Definition letterOf (source target : string) (c : ascii) : ascii :=
  match positionIn c source with
  | Some i => default c (String.get i target)
  | None => c
  end.
Definition capitalOf : ascii → ascii := letterOf smallLetters capitalLetters.
Definition smallOf : ascii → ascii := letterOf capitalLetters smallLetters.

Fixpoint lowerCased (s : string) : string :=
  match s with
  | EmptyString => EmptyString
  | String c r => String (smallOf c) (lowerCased r)
  end.

(** A label with its first letter capital and the others small. *)
Definition capitalized (label : string) : string :=
  match label with
  | EmptyString => EmptyString
  | String c rest => String (capitalOf c) (lowerCased rest)
  end.

(** "[s] contains [w], case-insensitively": some substring of [s] is [w]
    once its letters are made small. *)
Definition containsIgnoringCase (s w : string) : Prop :=
  ∃ pre mid post, s = pre +:+ mid +:+ post ∧ lowerCased mid = w.

(** ** [calculatePrf] *)

Definition QofNat (n : nat) : Q := inject_Z (Z.of_nat n).

Module Prf.
Record t : Type := mk { precision : Q; recall : Q; f1Score : Q }.
End Prf.

Definition calculatePrf (tp fp fn : nat) : Prf.t :=
  let precision :=
    if (0 <? tp + fp)%nat then QofNat tp / QofNat (tp + fp) else 0%Q in
  let recall :=
    if (0 <? tp + fn)%nat then QofNat tp / QofNat (tp + fn) else 0%Q in
  let f1Score :=
    if Qltb 0 (precision + recall)
    then 2 * (precision * recall) / (precision + recall) else 0%Q in
  Prf.mk precision recall f1Score.

(** ** [compareDetections] *)

(** The entries of [perClassData]. *)
Module ClassData.
Record t : Type := mk {
  tp : nat; fp : nat; fn : nat; iouSum : Q; totalGroundTruth : nat }.
End ClassData.

Module ClassMetrics.
Record t : Type := mk {
  tp : nat; fp : nat; fn : nat;
  precision : Q; recall : Q; f1Score : Q;
  totalGroundTruth : nat }.
End ClassMetrics.

Module ValidationMetrics.
Record t : Type := mk {
  matches : nat; misses : nat; falsePositives : nat;
  averageIou : Q; precision : Q; recall : Q; f1Score : Q;
  perClassMetrics : gmap string ClassMetrics.t }.
End ValidationMetrics.

(** A JavaScript [Set<string>] iterates in insertion order: a list without
    repetitions, [add] appending a value only when it is absent. *)
Definition Set_add (s : list string) (x : string) : list string :=
  if bool_decide (x ∈ s) then s else s ++ [x].
Definition Set_from (l : list string) : list string := foldl Set_add [] l.

(** [array.forEach((x, index) => ...)], threading the state the callback
    mutates; indices are JavaScript numbers, here integers. *)
Fixpoint forEachIndexed {A S : Type} (f : S → A → Z → S) (i : Z) (l : list A) (s : S) : S :=
  match l with
  | [] => s
  | x :: r => forEachIndexed f (i + 1)%Z r (f s x i)
  end.

(** A loop whose body may throw ([None]). *)
Fixpoint forEachM {A S : Type} (f : S → A → option S) (l : list A) (s : S) : option S :=
  match l with
  | [] => Some s
  | x :: r => s' ← f s x; forEachM f r s'
  end.

Definition gtClasses (gtDefects : list GroundTruthDefect.t) : list string :=
  Set_from (map (λ d, normalizeGtType (GroundTruthDefect.type d)) gtDefects).
Definition aiClasses (aiDefects : list Defect.t) : list string :=
  Set_from (map (λ d, normalizeAiType (Defect.type d)) aiDefects).
Definition allClasses (aiDefects : list Defect.t) (gtDefects : list GroundTruthDefect.t)
  : list string :=
  Set_from (gtClasses gtDefects ++ aiClasses aiDefects).

(** "Initialize per-class data" *)
Definition initClass (gtDefects : list GroundTruthDefect.t) (className : string)
  : ClassData.t :=
  ClassData.mk 0 0 0 0
    (length (filter (λ d, normalizeGtType (GroundTruthDefect.type d) = className)
               gtDefects)).

Definition initPerClassData (gtDefects : list GroundTruthDefect.t)
    (classes : list string) : gmap string ClassData.t :=
  foldl (λ perClassData className,
           <[className := initClass gtDefects className]> perClassData)
        ∅ classes.

Module BestMatch.
Record t : Type := mk { iou : Q; gtIndex : Z }.
End BestMatch.

(** The state the detection loop mutates. *)
Record MatchState : Type := mkMatchState {
  matchedGtIndices : gset Z;
  perClassData : gmap string ClassData.t }.

(** Body of the inner [gtDefects.forEach]. *)
Definition bestMatchStep (matched : gset Z) (aiDefect : Defect.t) (aiType : string)
    (bestMatch : BestMatch.t) (gtDefect : GroundTruthDefect.t) (gtIndex : Z)
  : BestMatch.t :=
  let gtType := normalizeGtType (GroundTruthDefect.type gtDefect) in
  if negb (bool_decide (gtIndex ∈ matched)) && bool_decide (gtType = aiType) then
    let iou := calculateIou (Defect.boundingBox aiDefect)
                            (GroundTruthDefect.boundingBox gtDefect) in
    if Qltb (BestMatch.iou bestMatch) iou then BestMatch.mk iou gtIndex
    else bestMatch
  else bestMatch.

Definition findBestMatch (matched : gset Z) (gtDefects : list GroundTruthDefect.t)
    (aiDefect : Defect.t) : BestMatch.t :=
  let aiType := normalizeAiType (Defect.type aiDefect) in
  forEachIndexed (bestMatchStep matched aiDefect aiType) 0 gtDefects
                 (BestMatch.mk (-1) (-1)).

Definition incrTp (iou : Q) (d : ClassData.t) : ClassData.t :=
  ClassData.mk (S (ClassData.tp d)) (ClassData.fp d) (ClassData.fn d)
               (ClassData.iouSum d + iou) (ClassData.totalGroundTruth d).
Definition incrFp (d : ClassData.t) : ClassData.t :=
  ClassData.mk (ClassData.tp d) (S (ClassData.fp d)) (ClassData.fn d)
               (ClassData.iouSum d) (ClassData.totalGroundTruth d).
Definition incrFn (d : ClassData.t) : ClassData.t :=
  ClassData.mk (ClassData.tp d) (ClassData.fp d) (S (ClassData.fn d))
               (ClassData.iouSum d) (ClassData.totalGroundTruth d).

(** Body of [aiDefects.forEach]. Reading a field of an absent entry in the
    true-positive branch is a [TypeError]: [None]. *)
Definition processDetection (iouThreshold : Q) (gtDefects : list GroundTruthDefect.t)
    (st : MatchState) (aiDefect : Defect.t) : option MatchState :=
  let aiType := normalizeAiType (Defect.type aiDefect) in
  let bestMatch := findBestMatch (matchedGtIndices st) gtDefects aiDefect in
  if Qleb iouThreshold (BestMatch.iou bestMatch) then
    d ← perClassData st !! aiType;
    Some (mkMatchState ({[BestMatch.gtIndex bestMatch]} ∪ matchedGtIndices st)
                       (<[aiType := incrTp (BestMatch.iou bestMatch) d]> (perClassData st)))
  else
    match perClassData st !! aiType with
    | Some d => Some (mkMatchState (matchedGtIndices st)
                                   (<[aiType := incrFp d]> (perClassData st)))
    | None => Some st
    end.

(** The state on entry to the detection loop. *)
Definition initialState (aiDefects : list Defect.t)
    (gtDefects : list GroundTruthDefect.t) : MatchState :=
  mkMatchState ∅ (initPerClassData gtDefects (allClasses aiDefects gtDefects)).

Definition matchDetections (iouThreshold : Q) (aiDefects : list Defect.t)
    (gtDefects : list GroundTruthDefect.t) : option MatchState :=
  forEachM (processDetection iouThreshold gtDefects) aiDefects
    (initialState aiDefects gtDefects).

(** Body of the second [gtDefects.forEach]: false negatives. *)
Definition countMiss (matched : gset Z) (perClassData : gmap string ClassData.t)
    (gtDefect : GroundTruthDefect.t) (gtIndex : Z) : gmap string ClassData.t :=
  if negb (bool_decide (gtIndex ∈ matched)) then
    let gtType := normalizeGtType (GroundTruthDefect.type gtDefect) in
    match perClassData !! gtType with
    | Some d => <[gtType := incrFn d]> perClassData
    | None => perClassData
    end
  else perClassData.

Definition countMisses (gtDefects : list GroundTruthDefect.t) (st : MatchState)
  : gmap string ClassData.t :=
  forEachIndexed (countMiss (matchedGtIndices st)) 0 gtDefects (perClassData st).

(** The accumulators of the last loop. *)
Record Totals : Type := mkTotals {
  perClassMetrics : gmap string ClassMetrics.t;
  totalTp : nat; totalFp : nat; totalFn : nat; totalIouSum : Q }.

(** Body of the last loop; destructuring an absent entry is a [TypeError]. *)
Definition addClass (perClassData : gmap string ClassData.t) (acc : Totals)
    (className : string) : option Totals :=
  d ← perClassData !! className;
  let prf := calculatePrf (ClassData.tp d) (ClassData.fp d) (ClassData.fn d) in
  Some (mkTotals
          (<[className :=
               ClassMetrics.mk (ClassData.tp d) (ClassData.fp d) (ClassData.fn d)
                 (Prf.precision prf) (Prf.recall prf) (Prf.f1Score prf)
                 (ClassData.totalGroundTruth d)]> (perClassMetrics acc))
          (totalTp acc + ClassData.tp d)
          (totalFp acc + ClassData.fp d)
          (totalFn acc + ClassData.fn d)
          (totalIouSum acc + ClassData.iouSum d)).

Definition sumClasses (perClassData : gmap string ClassData.t) (classes : list string)
  : option Totals :=
  forEachM (addClass perClassData) classes (mkTotals ∅ 0 0 0 0).

Definition report (t : Totals) : ValidationMetrics.t :=
  let overallMetrics := calculatePrf (totalTp t) (totalFp t) (totalFn t) in
  ValidationMetrics.mk (totalTp t) (totalFn t) (totalFp t)
    (if (0 <? totalTp t)%nat then totalIouSum t / QofNat (totalTp t) else 0%Q)
    (Prf.precision overallMetrics) (Prf.recall overallMetrics)
    (Prf.f1Score overallMetrics)
    (perClassMetrics t).

(** The class accumulators once both counting loops have run. *)
Definition finalPerClassData (aiDefects : list Defect.t)
    (gtDefects : list GroundTruthDefect.t) (iouThreshold : Q)
  : option (gmap string ClassData.t) :=
  countMisses gtDefects <$> matchDetections iouThreshold aiDefects gtDefects.

Definition compareDetections (aiDefects : list Defect.t)
    (gtDefects : list GroundTruthDefect.t) (iouThreshold : Q)
  : option ValidationMetrics.t :=
  perClassData ← finalPerClassData aiDefects gtDefects iouThreshold;
  totals ← sumClasses perClassData (allClasses aiDefects gtDefects);
  Some (report totals).

(** The default value of the parameter [iouThreshold]. *)
Definition defaultIouThreshold : Q := 1 # 2.

(** *** The run of the detection loop, iteration by iteration *)

Inductive Outcome : Type :=
  | TruePositive (gtIndex : Z) (iou : Q)
  | FalsePositive.

(** Which branch of the [if] an iteration takes. *)
Definition outcomeOf (iouThreshold : Q) (gtDefects : list GroundTruthDefect.t)
    (st : MatchState) (aiDefect : Defect.t) : Outcome :=
  let bestMatch := findBestMatch (matchedGtIndices st) gtDefects aiDefect in
  if Qleb iouThreshold (BestMatch.iou bestMatch)
  then TruePositive (BestMatch.gtIndex bestMatch) (BestMatch.iou bestMatch)
  else FalsePositive.

Fixpoint outcomesFrom (iouThreshold : Q) (gtDefects : list GroundTruthDefect.t)
    (st : MatchState) (aiDefects : list Defect.t) : list Outcome :=
  match aiDefects with
  | [] => []
  | aiDefect :: rest =>
      outcomeOf iouThreshold gtDefects st aiDefect ::
      match processDetection iouThreshold gtDefects st aiDefect with
      | Some st' => outcomesFrom iouThreshold gtDefects st' rest
      | None => []
      end
  end.

Definition outcomes (iouThreshold : Q) (aiDefects : list Defect.t)
    (gtDefects : list GroundTruthDefect.t) : list Outcome :=
  outcomesFrom iouThreshold gtDefects (initialState aiDefects gtDefects) aiDefects.

Definition matchedGtIndex (o : Outcome) : option Z :=
  match o with TruePositive i _ => Some i | FalsePositive => None end.
Definition matchedIou (o : Outcome) : option Q :=
  match o with TruePositive _ iou => Some iou | FalsePositive => None end.

Definition Qsum (l : list Q) : Q := foldr Qplus 0 l.

(** The reference indices matched, and the IoUs recorded, in loop order. *)
Definition matchedIndices (os : list Outcome) : list Z := omap matchedGtIndex os.
Definition matchedIous (os : list Outcome) : list Q := omap matchedIou os.

(** ** Track interpolation *)

Module GpxPoint.
(** [time] is the [Date]'s [getTime()]: milliseconds since the epoch. *)
Record t : Type := mk { lat : Q; lon : Q; time : Z }.
End GpxPoint.

Module Location.
Record t : Type := mk { latitude : Q; longitude : Q }.
End Location.

(** [points.sort((a, b) => a.time.getTime() - b.time.getTime())], the last
    step of [parseGpx]. [Array.prototype.sort] is a stable sort; it is
    modelled by insertion from the right end, [insertSorted] placing [x]
    before the first [y] with [cmp x y <= 0], so that elements the
    comparator ranks equal keep their order. *)
Definition compareTime (a b : GpxPoint.t) : Z :=
  (GpxPoint.time a - GpxPoint.time b)%Z.

Fixpoint insertSorted {A : Type} (cmp : A → A → Z) (x : A) (l : list A) : list A :=
  match l with
  | [] => [x]
  | y :: r => if (cmp x y <=? 0)%Z then x :: y :: r else y :: insertSorted cmp x r
  end.

Definition Array_sort {A : Type} (cmp : A → A → Z) (l : list A) : list A :=
  foldr (insertSorted cmp) [] l.

Definition sortPoints (points : list GpxPoint.t) : list GpxPoint.t :=
  Array_sort compareTime points.

(** The [for] loop of [interpolateLocation]: the first pair of neighbours
    around [targetTime]. *)
Fixpoint findBracket (targetTime : Q) (track : list GpxPoint.t)
  : option (GpxPoint.t * GpxPoint.t) :=
  match track with
  | p :: ((q :: _) as rest) =>
      if Qleb (inject_Z (GpxPoint.time p)) targetTime
         && Qleb targetTime (inject_Z (GpxPoint.time q))
      then Some (p, q)
      else findBracket targetTime rest
  | _ => None
  end.

Definition locationOf (p : GpxPoint.t) : Location.t :=
  Location.mk (GpxPoint.lat p) (GpxPoint.lon p).

Definition interpolateLocation (timestamp : Q) (track : list GpxPoint.t)
    (videoStartTime : Q) : option Location.t :=
  match track with
  | [] => None
  | first :: _ =>
      let targetTime := videoStartTime + timestamp * 1000 in
      match findBracket targetTime track with
      | None =>
          if Qltb targetTime (inject_Z (GpxPoint.time first))
          then Some (locationOf first)
          else Some (locationOf (List.last track first))
      | Some (p1, p2) =>
          let timeDiff := (GpxPoint.time p2 - GpxPoint.time p1)%Z in
          if (timeDiff =? 0)%Z then Some (locationOf p1)
          else
            let factor := (targetTime - inject_Z (GpxPoint.time p1)) / inject_Z timeDiff in
            let lat := GpxPoint.lat p1 + (GpxPoint.lat p2 - GpxPoint.lat p1) * factor in
            let lon := GpxPoint.lon p1 + (GpxPoint.lon p2 - GpxPoint.lon p1) * factor in
            Some (Location.mk lat lon)
      end
  end.

(** Equality of resolved locations as numbers. *)
Definition Location_eq (a b : Location.t) : Prop :=
  Location.latitude a == Location.latitude b ∧
  Location.longitude a == Location.longitude b.

Definition resolves (r : option Location.t) (lat lon : Q) : Prop :=
  ∃ l, r = Some l ∧ Location.latitude l == lat ∧ Location.longitude l == lon.

Definition sameResult (r1 r2 : option Location.t) : Prop :=
  match r1, r2 with
  | Some a, Some b => Location_eq a b
  | None, None => True
  | _, _ => False
  end.

(** Orderings of track points by timestamp. *)
Definition timeLe (a b : GpxPoint.t) : Prop := (GpxPoint.time a <= GpxPoint.time b)%Z.
Definition timeLt (a b : GpxPoint.t) : Prop := (GpxPoint.time a < GpxPoint.time b)%Z.

(** [targetTime] lies between the timestamps of [p1] and [p2]. *)
Definition brackets (targetTime : Q) (p1 p2 : GpxPoint.t) : Prop :=
  inject_Z (GpxPoint.time p1) <= targetTime ∧
  targetTime <= inject_Z (GpxPoint.time p2).

(** The coordinate the specification assigns to a target between [p1] and
    [p2]: [p1]'s when the two timestamps are equal, else the linear
    interpolation with factor [(target - p1.time) / (p2.time - p1.time)]. *)
Definition interpolateBetween (targetTime : Q) (p1 p2 : GpxPoint.t) : Location.t :=
  if (GpxPoint.time p1 =? GpxPoint.time p2)%Z then locationOf p1
  else
    let f := (targetTime - inject_Z (GpxPoint.time p1))
             / (inject_Z (GpxPoint.time p2) - inject_Z (GpxPoint.time p1)) in
    Location.mk (GpxPoint.lat p1 + (GpxPoint.lat p2 - GpxPoint.lat p1) * f)
                (GpxPoint.lon p1 + (GpxPoint.lon p2 - GpxPoint.lon p1) * f).

(** *** Vocabulary for the properties of [compareDetections] *)

(** The value of a counter in the accumulator of a class, and its sum over a
    list of classes. *)
Definition classCount (f : ClassData.t → nat) (perClassData : gmap string ClassData.t)
    (className : string) : nat :=
  from_option f 0%nat (perClassData !! className).
Definition sumCount (f : ClassData.t → nat) (perClassData : gmap string ClassData.t)
    (classes : list string) : nat :=
  sum_list (map (classCount f perClassData) classes).
Definition sumIou (perClassData : gmap string ClassData.t) (classes : list string) : Q :=
  Qsum (map (λ c, from_option ClassData.iouSum 0 (perClassData !! c)) classes).

(** The formulas of the specification: [a / (a + b)], 0 when [a + b = 0], and
    the harmonic mean of two numbers, 0 when both are 0. *)
Definition ratioOrZero (a b : nat) : Q :=
  if decide (a + b = 0)%nat then 0 else QofNat a / QofNat (a + b).
Definition harmonicMeanOrZero (p r : Q) : Q :=
  if Qeq_bool p 0 && Qeq_bool r 0 then 0 else 2 / (/ p + / r).

(** The metrics derived from an accumulator. *)
Definition metricsOf (d : ClassData.t) : ClassMetrics.t :=
  let prf := calculatePrf (ClassData.tp d) (ClassData.fp d) (ClassData.fn d) in
  ClassMetrics.mk (ClassData.tp d) (ClassData.fp d) (ClassData.fn d)
    (Prf.precision prf) (Prf.recall prf) (Prf.f1Score prf)
    (ClassData.totalGroundTruth d).

(** [b] records reference number [k] of [gtDefects]: not consumed so far, of
    the detection's class, with the IoU of the two boxes. *)
Definition isCandidate (matched : gset Z) (gtDefects : list GroundTruthDefect.t)
    (aiDefect : Defect.t) (b : BestMatch.t) : Prop :=
  ∃ (k : nat) gtDefect,
    gtDefects !! k = Some gtDefect ∧
    BestMatch.gtIndex b = Z.of_nat k ∧
    (Z.of_nat k ∉ matched) ∧
    normalizeGtType (GroundTruthDefect.type gtDefect)
      = normalizeAiType (Defect.type aiDefect) ∧
    BestMatch.iou b = calculateIou (Defect.boundingBox aiDefect)
                                   (GroundTruthDefect.boundingBox gtDefect).

(** The reference indices below [n] left unconsumed. *)
Definition unmatchedIndices (matched : gset Z) (start : Z) (n : nat) : list Z :=
  filter (λ k, k ∉ matched) (seqZ start (Z.of_nat n)).

(** The outcome recorded for [aiDefect] is backed by a reference: a true
    positive names an existing reference of the detection's class whose IoU
    with the detection is the recorded one and reaches the threshold. *)
Definition justified (iouThreshold : Q) (gtDefects : list GroundTruthDefect.t)
    (aiDefect : Defect.t) (o : Outcome) : Prop :=
  match o with
  | TruePositive i iou =>
      ∃ (k : nat) gtDefect,
        gtDefects !! k = Some gtDefect ∧ i = Z.of_nat k ∧
        normalizeGtType (GroundTruthDefect.type gtDefect)
          = normalizeAiType (Defect.type aiDefect) ∧
        iou = calculateIou (Defect.boundingBox aiDefect)
                           (GroundTruthDefect.boundingBox gtDefect) ∧
        iouThreshold <= iou
  | FalsePositive => True
  end.

(** ** [parsePascalVoc] ([utils/xmlParser.ts]) and its caller

    The XML document is given by what the DOM queries of the parser read
    from it: whether it has a [parsererror] node, and for every [object]
    element the text of its [name] and of the four coordinates of its
    [bndbox] ([None] when the node is absent or its text is empty). A
    coordinate text is given by the integer [parseInt(text, 10)] reads from
    it. *)

Module VocBndbox.
Record t : Type := mk {
  xmin : option Z; ymin : option Z; xmax : option Z; ymax : option Z }.
End VocBndbox.

Module VocObject.
Record t : Type := mk { name : option string; bndbox : option VocBndbox.t }.
End VocObject.

Module VocDocument.
Record t : Type := mk { parsererror : bool; objects : list VocObject.t }.
End VocDocument.

(** A string in a condition: the empty string is falsy. *)
Definition truthy (s : string) : bool :=
  match s with EmptyString => false | String _ _ => true end.

(** Body of [objects.forEach]: the defect pushed for one [object], if any. *)
Definition vocDefect (imageWidth imageHeight : Z) (obj : VocObject.t)
  : option GroundTruthDefect.t :=
  match VocObject.name obj, VocObject.bndbox obj with
  | Some nameText, Some bndboxNode =>
      if truthy nameText then
        match VocBndbox.xmin bndboxNode, VocBndbox.ymin bndboxNode,
              VocBndbox.xmax bndboxNode, VocBndbox.ymax bndboxNode with
        | Some xmin, Some ymin, Some xmax, Some ymax =>
            let boundingBox :=
              BoundingBox.mk (inject_Z xmin / inject_Z imageWidth)
                             (inject_Z ymin / inject_Z imageHeight)
                             (inject_Z xmax / inject_Z imageWidth)
                             (inject_Z ymax / inject_Z imageHeight) in
            let type := toUpperCase (charAt nameText 0)
                        ++ toLowerCase (slice nameText 1) in
            Some (GroundTruthDefect.mk type boundingBox)
        | _, _, _, _ => None
        end
      else None
  | _, _ => None
  end.

(** [inl message] is a thrown [Error]. *)
Definition parsePascalVoc (xmlDoc : VocDocument.t) (imageWidth imageHeight : Z)
  : string + list GroundTruthDefect.t :=
  if VocDocument.parsererror xmlDoc then
    inl "Failed to parse XML file. Please ensure it's valid PASCAL VOC format."
  else if (imageWidth =? 0)%Z || (imageHeight =? 0)%Z then
    inl "Image dimensions must be greater than zero for coordinate conversion."
  else inr (omap (vocDefect imageWidth imageHeight) (VocDocument.objects xmlDoc)).

(** The validation step of [handleAnalyze] in [App.tsx]: the metrics stay
    undefined ([None]) when the parser or the comparison throws. *)
Definition validationMetricsOf (aiDefects : list Defect.t) (xmlDoc : VocDocument.t)
    (width height : Z) : option ValidationMetrics.t :=
  match parsePascalVoc xmlDoc width height with
  | inl _ => None
  | inr groundTruth => compareDetections aiDefects groundTruth defaultIouThreshold
  end.

(** ** [escapeCSV] ([utils/exportUtils.ts]) *)

Definition quoteChar : ascii := ascii_of_nat 34.
Definition newlineChar : ascii := ascii_of_nat 10.
Definition commaChar : ascii := ascii_of_nat 44.

(** The [replace] of [escapeCSV]: every double quote is written twice. *)
Fixpoint doubleQuotes (s : string) : string :=
  match s with
  | EmptyString => EmptyString
  | String c r =>
      if Ascii.eqb c quoteChar then String quoteChar (String quoteChar (doubleQuotes r))
      else String c (doubleQuotes r)
  end.

(** [None] is [undefined] or [null]. *)
Definition escapeCSV (str : option string) : string :=
  match str with
  | None => EmptyString
  | Some result =>
      if includes result (String commaChar EmptyString)
         || includes result (String quoteChar EmptyString)
         || includes result (String newlineChar EmptyString)
      then String quoteChar (doubleQuotes result ++ String quoteChar EmptyString)
      else result
  end.

(** [fields.join(',')] *)
Fixpoint joinComma (fields : list string) : string :=
  match fields with
  | [] => EmptyString
  | [f] => f
  | f :: rest => f ++ String commaChar (joinComma rest)
  end.

(** *** Reading a record of comma-separated fields back

    A reader of one record by the grammar of RFC 4180. A field that starts
    with a quote runs to its closing quote, a doubled quote inside standing
    for one, and may hold text, commas, carriage returns and line feeds; any
    other field runs to the next comma and holds text only. Text is the
    printable ASCII characters other than the quote and the comma
    ([TEXTDATA]). *)

Definition crChar : ascii := ascii_of_nat 13.

Definition isTextData (c : ascii) : bool :=
  let n := N_of_ascii c in
  ((32 <=? n) && (n <=? 33) || (35 <=? n) && (n <=? 43)
   || (45 <=? n) && (n <=? 126))%N.

(** The characters a quoted field may hold, the quote apart. *)
Definition isQuotedData (c : ascii) : bool :=
  isTextData c || Ascii.eqb c commaChar || Ascii.eqb c crChar
  || Ascii.eqb c newlineChar.

Inductive CsvState : Type :=
  | FieldStart                 (* at the first character of a field *)
  | Unquoted                   (* inside a field that is not quoted *)
  | Quoted                     (* inside a quoted field *)
  | QuoteInQuoted.             (* after a quote inside a quoted field *)

(** [acc] is the current field, reversed; the fields read so far are
    returned in order. A malformed record is [None]. *)
Fixpoint readCsv (st : CsvState) (acc : list ascii) (s : string)
  : option (list string) :=
  match s with
  | EmptyString =>
      match st with
      | Quoted => None
      | _ => Some [string_of_list_ascii (rev acc)]
      end
  | String c r =>
      match st with
      | FieldStart =>
          if Ascii.eqb c quoteChar then readCsv Quoted acc r
          else if Ascii.eqb c commaChar
               then cons (string_of_list_ascii (rev acc)) <$> readCsv FieldStart [] r
               else if isTextData c then readCsv Unquoted (c :: acc) r
                    else None
      | Unquoted =>
          if Ascii.eqb c commaChar
          then cons (string_of_list_ascii (rev acc)) <$> readCsv FieldStart [] r
          else if isTextData c then readCsv Unquoted (c :: acc) r
               else None
      | Quoted =>
          if Ascii.eqb c quoteChar then readCsv QuoteInQuoted acc r
          else if isQuotedData c then readCsv Quoted (c :: acc) r
               else None
      | QuoteInQuoted =>
          if Ascii.eqb c quoteChar then readCsv Quoted (c :: acc) r
          else if Ascii.eqb c commaChar
               then cons (string_of_list_ascii (rev acc)) <$> readCsv FieldStart [] r
               else None
      end
  end.

Definition readCsvRecord (s : string) : option (list string) :=
  readCsv FieldStart [] s.

(** Every character of [s] satisfies [p]. *)
Fixpoint allChars (p : ascii → bool) (s : string) : bool :=
  match s with
  | EmptyString => true
  | String c r => p c && allChars p r
  end.

(** [escapeCSV] writes [s] between quotes. *)
Definition isQuotedByEscapeCSV (s : string) : bool :=
  includes s (String commaChar EmptyString)
  || includes s (String quoteChar EmptyString)
  || includes s (String newlineChar EmptyString).

(** A field the grammar can carry as [escapeCSV] writes it: made of text,
    commas, quotes, carriage returns and line feeds, a carriage return
    occurring only where [escapeCSV] quotes the field. *)
Definition isCsvField (s : string) : bool :=
  allChars (λ c, isQuotedData c || Ascii.eqb c quoteChar) s
  && (isQuotedByEscapeCSV s || allChars isTextData s).

(** The end of a field: the end of the record or a comma. *)
Definition fieldEnd (tail : string) : Prop :=
  tail = EmptyString ∨ ∃ r, tail = String commaChar r.

(** * The numeric code on IEEE 754 doubles

    A JavaScript number is a binary64 value: the kernel's [float], with its
    rounding, its infinities, its signed zeros and NaN. The functions whose
    results depend on that arithmetic are embedded a second time here, under
    their own names inside [Double]; the definitions over [Q] above are their
    reading in exact arithmetic. *)

Module Double.
Import PrimFloat.
Local Open Scope float_scope.

(** [Math.max(a, b)] and [Math.min(a, b)]: NaN when an argument is NaN, and
    [+0] above [-0]. *)
Definition Math_max (a b : float) : float :=
  if is_nan a || is_nan b then nan
  else if a <? b then b
  else if b <? a then a
  else if get_sign a then b else a.
Definition Math_min (a b : float) : float :=
  if is_nan a || is_nan b then nan
  else if a <? b then a
  else if b <? a then b
  else if get_sign a then a else b.

Module BoundingBox.
Record t : Type := mk { x_min : float; y_min : float; x_max : float; y_max : float }.
End BoundingBox.

(** A box none of whose coordinates is NaN or infinite. *)
Definition finiteBox (b : BoundingBox.t) : bool :=
  is_finite (BoundingBox.x_min b) && is_finite (BoundingBox.y_min b) &&
  is_finite (BoundingBox.x_max b) && is_finite (BoundingBox.y_max b).

(** The interval from [lo] to [hi] is empty or a point: [hi <= lo], or, in
    terms of its width as the code computes it, [hi - lo <= 0]. *)
Definition emptyInterval (lo hi : float) : bool :=
  (hi <=? lo) || (hi - lo <=? 0).

(** A box of non-positive width or height. *)
Definition malformed (b : BoundingBox.t) : bool :=
  emptyInterval (BoundingBox.x_min b) (BoundingBox.x_max b)
  || emptyInterval (BoundingBox.y_min b) (BoundingBox.y_max b).

(** ** [calculateIou] *)

Section Iou.
Import BoundingBox.
Variables boxA boxB : BoundingBox.t.

Definition interWidth : float :=
  let xA := Math_max (x_min boxA) (x_min boxB) in
  let xB := Math_min (x_max boxA) (x_max boxB) in
  xB - xA.

Definition interHeight : float :=
  let yA := Math_max (y_min boxA) (y_min boxB) in
  let yB := Math_min (y_max boxA) (y_max boxB) in
  yB - yA.

(** The divisor [boxAArea + boxBArea - interArea] of the final division. *)
Definition iouDivisor : float :=
  let interArea := interWidth * interHeight in
  let boxAArea := (x_max boxA - x_min boxA) * (y_max boxA - y_min boxA) in
  let boxBArea := (x_max boxB - x_min boxB) * (y_max boxB - y_min boxB) in
  boxAArea + boxBArea - interArea.

Definition calculateIou : float :=
  if (interWidth <=? 0) || (interHeight <=? 0) then 0
  else
    let interArea := interWidth * interHeight in
    let iou := interArea / iouDivisor in
    iou.
End Iou.

(** ** The inner loop of [compareDetections] *)

Module Defect.
Record t : Type := mk { type : string; boundingBox : BoundingBox.t }.
End Defect.

Module GroundTruthDefect.
Record t : Type := mk { type : string; boundingBox : BoundingBox.t }.
End GroundTruthDefect.

Module BestMatch.
Record t : Type := mk { iou : float; gtIndex : Z }.
End BestMatch.

(** Body of the inner [gtDefects.forEach]. *)
Definition bestMatchStep (matched : gset Z) (aiDefect : Defect.t) (aiType : string)
    (bestMatch : BestMatch.t) (gtDefect : GroundTruthDefect.t) (gtIndex : Z)
  : BestMatch.t :=
  let gtType := normalizeGtType (GroundTruthDefect.type gtDefect) in
  if negb (bool_decide (gtIndex ∈ matched)) && bool_decide (gtType = aiType) then
    let iou := calculateIou (Defect.boundingBox aiDefect)
                            (GroundTruthDefect.boundingBox gtDefect) in
    if BestMatch.iou bestMatch <? iou then BestMatch.mk iou gtIndex
    else bestMatch
  else bestMatch.

Definition findBestMatch (matched : gset Z) (gtDefects : list GroundTruthDefect.t)
    (aiDefect : Defect.t) : BestMatch.t :=
  let aiType := normalizeAiType (Defect.type aiDefect) in
  forEachIndexed (bestMatchStep matched aiDefect aiType) 0 gtDefects
                 (BestMatch.mk (-1) (-1)).

(** ** Track points

    [time] is the time value of the [Date], the number [getTime()] returns:
    an integral number of milliseconds, or NaN for an Invalid Date. *)

Module GpxPoint.
Record t : Type := mk { lat : float; lon : float; time : float }.
End GpxPoint.

Module Location.
Record t : Type := mk { latitude : float; longitude : float }.
End Location.

(** ** [parseGpx] ([utils/gpxParser.ts])

    The XML document is given by what the DOM queries of the parser read
    from it: whether it has a [parsererror] node, and for every [trkpt] its
    [lat] and [lon] attributes and the text of its [time] element ([None]
    when absent or empty), each by the number [parseFloat], respectively
    [new Date], makes of it: any double, NaN included. *)

Module TrkPt.
Record t : Type := mk { lat : option float; lon : option float; time : option float }.
End TrkPt.

Module GpxDocument.
Record t : Type := mk { parsererror : bool; trkpts : list TrkPt.t }.
End GpxDocument.

(** Body of [trackPoints.forEach]; [parseFloat] and [new Date] do not throw. *)
Definition trackPoint (pt : TrkPt.t) : option GpxPoint.t :=
  match TrkPt.lat pt, TrkPt.lon pt, TrkPt.time pt with
  | Some lat, Some lon, Some time => Some (GpxPoint.mk lat lon time)
  | _, _, _ => None
  end.

(** [(a, b) => a.time.getTime() - b.time.getTime()] *)
Definition compareTime (a b : GpxPoint.t) : float :=
  GpxPoint.time a - GpxPoint.time b.

(** [Array.prototype.sort] with a comparator: a stable sort that reads a
    NaN from the comparator as [+0]. It is modelled by insertion from the
    right end, [insertSorted] placing [x] before the first [y] that the
    comparator does not rank before it. (When the comparator is not a
    consistent ordering, as with the time of an Invalid Date, the order of
    the result depends on the engine; only what holds of every engine is
    proved of that case.) *)
Fixpoint insertSorted {A : Type} (cmp : A → A → float) (x : A) (l : list A) : list A :=
  match l with
  | [] => [x]
  | y :: r =>
      let v := cmp x y in
      if is_nan v || (v <=? 0) then x :: y :: r else y :: insertSorted cmp x r
  end.

Definition Array_sort {A : Type} (cmp : A → A → float) (l : list A) : list A :=
  foldr (insertSorted cmp) [] l.

Definition sortPoints (points : list GpxPoint.t) : list GpxPoint.t :=
  Array_sort compareTime points.

(** [inl message] is a thrown [Error]. *)
Definition parseGpx (xmlDoc : GpxDocument.t) : string + list GpxPoint.t :=
  if GpxDocument.parsererror xmlDoc then
    inl "Failed to parse GPX file. Please ensure it is a valid XML file."%string
  else
    match GpxDocument.trkpts xmlDoc with
    | [] => inl "No track points (<trkpt>) found in the GPX file."%string
    | _ =>
        match omap trackPoint (GpxDocument.trkpts xmlDoc) with
        | [] => inl "Could not parse any valid track points from the GPX file."%string
        | points => inr (sortPoints points)
        end
    end.

(** ** [interpolateLocation] ([components/VideoAnalysis.tsx]) *)

(** The [for] loop: the first pair of neighbours around [targetTime]. *)
Fixpoint findBracket (targetTime : float) (track : list GpxPoint.t)
  : option (GpxPoint.t * GpxPoint.t) :=
  match track with
  | p :: ((q :: _) as rest) =>
      if (GpxPoint.time p <=? targetTime) && (targetTime <=? GpxPoint.time q)
      then Some (p, q)
      else findBracket targetTime rest
  | _ => None
  end.

Definition locationOf (p : GpxPoint.t) : Location.t :=
  Location.mk (GpxPoint.lat p) (GpxPoint.lon p).

Definition interpolateLocation (timestamp : float) (track : list GpxPoint.t)
    (videoStartTime : float) : option Location.t :=
  match track with
  | [] => None
  | first :: _ =>
      let targetTime := videoStartTime + timestamp * 1000 in
      match findBracket targetTime track with
      | None =>
          if targetTime <? GpxPoint.time first
          then Some (locationOf first)
          else Some (locationOf (List.last track first))
      | Some (p1, p2) =>
          let timeDiff := GpxPoint.time p2 - GpxPoint.time p1 in
          if timeDiff =? 0 then Some (locationOf p1)
          else
            let factor := (targetTime - GpxPoint.time p1) / timeDiff in
            let lat := GpxPoint.lat p1 + (GpxPoint.lat p2 - GpxPoint.lat p1) * factor in
            let lon := GpxPoint.lon p1 + (GpxPoint.lon p2 - GpxPoint.lon p1) * factor in
            Some (Location.mk lat lon)
      end
  end.

(** In [handleAnalyze] of [VideoAnalysis.tsx]: [videoStartTime] is 0 unless
    the track has a first point, and a frame gets a location only when the
    track is not empty. *)
Definition videoStartTimeOf (gpxTrack : list GpxPoint.t) : float :=
  match gpxTrack with
  | [] => 0
  | first :: _ => GpxPoint.time first
  end.

Definition frameLocation (gpxTrack : list GpxPoint.t) (timestamp : float)
  : option Location.t :=
  if (0 <? length gpxTrack)%nat
  then interpolateLocation timestamp gpxTrack (videoStartTimeOf gpxTrack)
  else None.

(** ** Vocabulary *)

(** Orderings of track points by time, as the comparisons of the code
    decide them. *)
Definition timeLe (a b : GpxPoint.t) : Prop :=
  (GpxPoint.time a <=? GpxPoint.time b) = true.
Definition timeLt (a b : GpxPoint.t) : Prop :=
  (GpxPoint.time a <? GpxPoint.time b) = true.

(** Every time is that of a valid [Date]. *)
Definition validTimes (track : list GpxPoint.t) : bool :=
  forallb (λ p, is_finite (GpxPoint.time p)) track.

(** No two points have the same time. *)
Fixpoint distinctTimes (track : list GpxPoint.t) : bool :=
  match track with
  | [] => true
  | p :: rest =>
      forallb (λ q, negb (GpxPoint.time p =? GpxPoint.time q)) rest
      && distinctTimes rest
  end.

(** The coordinates of a track are finite numbers, and so are the
    differences between neighbours (no overflow). *)
Fixpoint finiteSteps (track : list GpxPoint.t) : bool :=
  match track with
  | [] => true
  | p :: rest =>
      match rest with
      | [] => is_finite (GpxPoint.lat p) && is_finite (GpxPoint.lon p)
      | q :: _ =>
          is_finite (GpxPoint.lat q - GpxPoint.lat p)
          && is_finite (GpxPoint.lon q - GpxPoint.lon p)
          && finiteSteps rest
      end
  end.

(** The points of a track recorded at the time [t], in track order. *)
Definition pointsAt (t : float) (track : list GpxPoint.t) : list GpxPoint.t :=
  List.filter (λ p, GpxPoint.time p =? t) track.

(** [b] records reference number [k] of [gtDefects]: not consumed so far, of
    the detection's class, with the IoU of the two boxes. *)
Definition isCandidate (matched : gset Z) (gtDefects : list GroundTruthDefect.t)
    (aiDefect : Defect.t) (b : BestMatch.t) : Prop :=
  ∃ (k : nat) gtDefect,
    gtDefects !! k = Some gtDefect ∧
    BestMatch.gtIndex b = Z.of_nat k ∧
    (Z.of_nat k ∉ matched) ∧
    normalizeGtType (GroundTruthDefect.type gtDefect)
      = normalizeAiType (Defect.type aiDefect) ∧
    BestMatch.iou b = calculateIou (Defect.boundingBox aiDefect)
                                   (GroundTruthDefect.boundingBox gtDefect).

(** What the inner loop has established once the references before [n] are
    processed: the best match is its initial value or a candidate, its IoU
    is a number not below -1, no eligible reference among them whose IoU is
    a number has a greater IoU, and those before the best match's have a
    strictly smaller one. *)
Definition bestUpTo (matched : gset Z) (gtDefects : list GroundTruthDefect.t)
    (aiDefect : Defect.t) (n : nat) (b : BestMatch.t) : Prop :=
  (BestMatch.gtIndex b < Z.of_nat n)%Z ∧
  (b = BestMatch.mk (-1) (-1) ∨ isCandidate matched gtDefects aiDefect b) ∧
  (-1 <=? BestMatch.iou b) = true ∧
  ∀ (k : nat) g,
    (k < n)%nat → gtDefects !! k = Some g → (Z.of_nat k ∉ matched) →
    normalizeGtType (GroundTruthDefect.type g)
      = normalizeAiType (Defect.type aiDefect) →
    is_nan (calculateIou (Defect.boundingBox aiDefect)
                         (GroundTruthDefect.boundingBox g)) = false →
    (calculateIou (Defect.boundingBox aiDefect) (GroundTruthDefect.boundingBox g)
       <=? BestMatch.iou b) = true ∧
    ((Z.of_nat k < BestMatch.gtIndex b)%Z →
     (calculateIou (Defect.boundingBox aiDefect) (GroundTruthDefect.boundingBox g)
        <? BestMatch.iou b) = true).
End Double.

(** ** The order of doubles

    Vocabulary of the proofs about doubles. The comparisons of binary64
    numbers are read on the specification of the format ([SpecFloat]):
    numbers other than NaN are ordered as their keys (sign class, exponent,
    mantissa) are, lexicographically. *)

Definition SFkey (x : SpecFloat.spec_float) : Z * Z * Z :=
  match x with
  | SpecFloat.S754_nan => (0, 0, 0)
  | SpecFloat.S754_zero _ => (0, 0, 0)
  | SpecFloat.S754_infinity s => (if s then -2 else 2, 0, 0)
  | SpecFloat.S754_finite s m e =>
      if s then (-1, - e, Z.neg m) else (1, e, Z.pos m)
  end%Z.

Definition lex3 (a b : Z * Z * Z) : comparison :=
  match a.1.1 ?= b.1.1 with
  | Eq => match a.1.2 ?= b.1.2 with
          | Eq => a.2 ?= b.2
          | c => c
          end
  | c => c
  end%Z.

Definition fkey (x : PrimFloat.float) : Z * Z * Z := SFkey (FloatOps.Prim2SF x).

(** [x < y] and [x == y] on numbers that are not NaN. *)
Definition flt (x y : PrimFloat.float) : Prop :=
  let a := fkey x in let b := fkey y in
  (a.1.1 < b.1.1 ∨ (a.1.1 = b.1.1 ∧ (a.1.2 < b.1.2 ∨ (a.1.2 = b.1.2 ∧ a.2 < b.2))))%Z.
Definition feq (x y : PrimFloat.float) : Prop :=
  let a := fkey x in let b := fkey y in
  (a.1.1 = b.1.1 ∧ a.1.2 = b.1.2 ∧ a.2 = b.2)%Z.

(** Rounding keeps the sign: the result is a zero, a finite number or an
    infinity of the sign given; respectively not a zero. *)
Definition hasSign (s : bool) (x : SpecFloat.spec_float) : Prop :=
  match x with
  | SpecFloat.S754_zero s' | SpecFloat.S754_infinity s'
  | SpecFloat.S754_finite s' _ _ => s' = s
  | SpecFloat.S754_nan => False
  end.
Definition nonzeroOfSign (s : bool) (x : SpecFloat.spec_float) : Prop :=
  match x with
  | SpecFloat.S754_infinity s' | SpecFloat.S754_finite s' _ _ => s' = s
  | _ => False
  end.

(** A finite number or a zero. *)
Definition SFfinite (x : SpecFloat.spec_float) : Prop :=
  match x with
  | SpecFloat.S754_zero _ | SpecFloat.S754_finite _ _ _ => True
  | _ => False
  end.

(** ** Further vocabulary *)

(** The number of detections, and of references, of a class. *)
Definition detectionsOfClass (c : string) (aiDefects : list Defect.t) : nat :=
  length (filter (λ a, normalizeAiType (Defect.type a) = c) aiDefects).
Definition referencesOfClass (c : string) (gtDefects : list GroundTruthDefect.t) : nat :=
  length (filter (λ g, normalizeGtType (GroundTruthDefect.type g) = c) gtDefects).

(** Among the references [l], numbered from [i], those of class [c] whose
    number is in [matched], respectively is not. *)
Fixpoint hitsOfClass (c : string) (matched : gset Z) (i : Z)
    (l : list GroundTruthDefect.t) : nat :=
  match l with
  | [] => 0
  | g :: r =>
      (if bool_decide (i ∈ matched ∧ normalizeGtType (GroundTruthDefect.type g) = c)
       then 1 else 0) + hitsOfClass c matched (i + 1) r
  end%nat.
Fixpoint missesOfClass (c : string) (matched : gset Z) (i : Z)
    (l : list GroundTruthDefect.t) : nat :=
  match l with
  | [] => 0
  | g :: r =>
      (if bool_decide ((i ∉ matched) ∧ normalizeGtType (GroundTruthDefect.type g) = c)
       then 1 else 0) + missesOfClass c matched (i + 1) r
  end%nat.

(** Strings of ASCII characters, the ones whose case mapping the embedding
    covers. *)
Definition isAsciiChar (c : ascii) : bool := (N_of_ascii c <? 128)%N.
Fixpoint asciiString (s : string) : bool :=
  match s with
  | EmptyString => true
  | String c r => isAsciiChar c && asciiString r
  end.

(** * Properties *)

Lemma Qleb_spec (a b : Q) : reflect (a <= b) (Qleb a b).
Proof.
  unfold Qleb. destruct (Qle_bool a b) eqn:E; constructor.
  - by apply Qle_bool_iff.
  - intros H. apply Qle_bool_iff in H. congruence.
Qed.

Lemma Qltb_spec (a b : Q) : reflect (a < b) (Qltb a b).
Proof.
  unfold Qltb. fold (Qleb b a).
  destruct (Qleb_spec b a); constructor; lra.
Qed.

Ltac case_Q :=
  repeat match goal with
  | |- context [Qleb ?a ?b] => destruct (Qleb_spec a b)
  | |- context [Qltb ?a ?b] => destruct (Qltb_spec a b)
  | H : context [Qleb ?a ?b] |- _ => destruct (Qleb_spec a b)
  | H : context [Qltb ?a ?b] |- _ => destruct (Qltb_spec a b)
  end.

(** ** Geometry *)

Section IouFacts.
Import BoundingBox.

Lemma Math_max_comm a b : Math_max a b == Math_max b a.
Proof. unfold Math_max. case_Q; lra. Qed.

Lemma Math_min_comm a b : Math_min a b == Math_min b a.
Proof. unfold Math_min. case_Q; lra. Qed.

Lemma Qleb_proper a a' b b' : a == a' → b == b' → Qleb a b = Qleb a' b'.
Proof.
  intros Ha Hb. destruct (Qleb_spec a b), (Qleb_spec a' b'); try done; lra.
Qed.

Lemma interWidth_comm a b : interWidth a b == interWidth b a.
Proof.
  unfold interWidth; cbv zeta.
  by rewrite (Math_max_comm (x_min a)), (Math_min_comm (x_max a)).
Qed.

Lemma interHeight_comm a b : interHeight a b == interHeight b a.
Proof.
  unfold interHeight; cbv zeta.
  by rewrite (Math_max_comm (y_min a)), (Math_min_comm (y_max a)).
Qed.

Lemma iouDivisor_comm a b : iouDivisor a b == iouDivisor b a.
Proof.
  unfold iouDivisor; cbv zeta.
  rewrite (interWidth_comm a b), (interHeight_comm a b). ring.
Qed.

(** The intersection is never wider or taller than either box. *)
Lemma interWidth_le_l a b : interWidth a b <= x_max a - x_min a.
Proof. unfold interWidth, Math_max, Math_min. case_Q; lra. Qed.

Lemma interWidth_le_r a b : interWidth a b <= x_max b - x_min b.
Proof. unfold interWidth, Math_max, Math_min. case_Q; lra. Qed.

Lemma interHeight_le_l a b : interHeight a b <= y_max a - y_min a.
Proof. unfold interHeight, Math_max, Math_min. case_Q; lra. Qed.

Lemma interHeight_le_r a b : interHeight a b <= y_max b - y_min b.
Proof. unfold interHeight, Math_max, Math_min. case_Q; lra. Qed.

Lemma Qmult_le_mono (w h w' h' : Q) :
  0 <= w → 0 <= h → w <= w' → h <= h' → w * h <= w' * h'.
Proof.
  intros Hw Hh Hww Hhh.
  apply Qle_trans with (w * h').
  - rewrite !(Qmult_comm w). by apply Qmult_le_compat_r.
  - apply Qmult_le_compat_r; lra.
Qed.

(** Whenever the division is reached its divisor is at least the area of
    either box, which is positive. *)
Lemma iouDivisor_pos a b :
  0 < interWidth a b → 0 < interHeight a b → 0 < iouDivisor a b.
Proof.
  intros Hw Hh.
  pose proof (interWidth_le_l a b) as Hwa. pose proof (interHeight_le_l a b) as Hha.
  pose proof (interWidth_le_r a b) as Hwb. pose proof (interHeight_le_r a b) as Hhb.
  assert (0 < interWidth a b * interHeight a b) as Hpos
    by (apply Qmult_lt_0_compat; lra).
  pose proof (Qmult_le_mono _ _ _ _ (Qlt_le_weak _ _ Hw) (Qlt_le_weak _ _ Hh) Hwa Hha).
  pose proof (Qmult_le_mono _ _ _ _ (Qlt_le_weak _ _ Hw) (Qlt_le_weak _ _ Hh) Hwb Hhb).
  unfold iouDivisor; cbv zeta. lra.
Qed.

Lemma calculateIou_nonneg a b : 0 <= calculateIou a b.
Proof.
  unfold calculateIou; cbv zeta.
  destruct (Qleb_spec (interWidth a b) 0); [simpl; lra|].
  destruct (Qleb_spec (interHeight a b) 0); [simpl; lra|]. simpl.
  apply Qle_shift_div_l.
  - apply iouDivisor_pos; lra.
  - assert (0 < interWidth a b * interHeight a b)
      by (apply Qmult_lt_0_compat; lra). lra.
Qed.
End IouFacts.

(** C9. IoU is symmetric, and the IoU of a box of positive width and height
    with itself is 1. *)
Theorem calculateIou_symmetric_reflexive :
  (∀ boxA boxB, calculateIou boxA boxB == calculateIou boxB boxA) ∧
  (∀ boxA, BoundingBox.x_min boxA < BoundingBox.x_max boxA →
           BoundingBox.y_min boxA < BoundingBox.y_max boxA →
           calculateIou boxA boxA == 1).
Proof.
  split.
  - intros a b. unfold calculateIou; cbv zeta.
    rewrite (Qleb_proper _ (interWidth b a) 0 0 (interWidth_comm a b)) by reflexivity.
    rewrite (Qleb_proper _ (interHeight b a) 0 0 (interHeight_comm a b)) by reflexivity.
    destruct (_ || _); [reflexivity|].
    by rewrite (interWidth_comm a b), (interHeight_comm a b), (iouDivisor_comm a b).
  - intros a Hx Hy. unfold calculateIou, iouDivisor; cbv zeta.
    assert (interWidth a a == BoundingBox.x_max a - BoundingBox.x_min a) as Hw
      by (unfold interWidth, Math_max, Math_min; case_Q; lra).
    assert (interHeight a a == BoundingBox.y_max a - BoundingBox.y_min a) as Hh
      by (unfold interHeight, Math_max, Math_min; case_Q; lra).
    destruct (Qleb_spec (interWidth a a) 0); [lra|].
    destruct (Qleb_spec (interHeight a a) 0); [lra|]. simpl.
    rewrite Hw, Hh.
    assert (0 < (BoundingBox.x_max a - BoundingBox.x_min a)
                * (BoundingBox.y_max a - BoundingBox.y_min a)) as Hpos
      by (apply Qmult_lt_0_compat; lra).
    field. lra.
Qed.

Lemma calculateIou_symmetric_reflexive_witness :
  calculateIou (BoundingBox.mk (1#10) (1#10) (3#10) (3#10))
               (BoundingBox.mk (1#10) (1#10) (3#10) (3#10)) == 1.
Proof.
  apply (proj2 calculateIou_symmetric_reflexive); reflexivity.
Defined.

(** ** Label normalization *)

Section StringFacts.
Lemma append_nil_l (s : string) : EmptyString +:+ s = s.
Proof. reflexivity. Qed.

Lemma append_cons_l c (a b : string) : String c a +:+ b = String c (a +:+ b).
Proof. reflexivity. Qed.

Lemma toLowerCase_app a b :
  toLowerCase (a +:+ b) = toLowerCase a +:+ toLowerCase b.
Proof.
  induction a as [|c a IH]; [done|].
  rewrite append_cons_l. simpl. by rewrite IH.
Qed.

Lemma toLowerCase_split s a b :
  toLowerCase s = a +:+ b →
  ∃ s1 s2, s = s1 +:+ s2 ∧ toLowerCase s1 = a ∧ toLowerCase s2 = b.
Proof.
  revert s. induction a as [|c a IH]; intros s H.
  - by exists EmptyString, s.
  - destruct s as [|c0 s]; rewrite append_cons_l in H; simpl in H; [done|].
    injection H as Hc Hs. destruct (IH _ Hs) as (s1 & s2 & -> & H1 & H2).
    exists (String c0 s1), s2. rewrite append_cons_l. simpl.
    by rewrite Hc, H1.
Qed.

Lemma prefix_spec sub s :
  String.prefix sub s = true ↔ ∃ post, s = sub +:+ post.
Proof.
  revert s. induction sub as [|c sub IH]; intros [|c0 s]; simpl.
  - split; [by exists EmptyString|done].
  - split; [by exists (String c0 s)|done].
  - split; [done|]. by intros [post ?].
  - setoid_rewrite append_cons_l.
    destruct (ascii_dec c c0) as [->|Hne].
    + rewrite IH. split; intros [post H]; exists post; congruence.
    + split; [done|]. intros [post H]. congruence.
Qed.

Lemma includes_cons c s sub :
  includes (String c s) sub =
  if String.prefix sub (String c s) then true else includes s sub.
Proof. reflexivity. Qed.

Lemma includes_spec s sub :
  includes s sub = true ↔ ∃ pre post, s = pre +:+ sub +:+ post.
Proof.
  induction s as [|c s IH].
  - change (includes EmptyString sub)
      with (if String.prefix sub EmptyString then true else false).
    destruct (String.prefix sub EmptyString) eqn:E.
    + apply prefix_spec in E as [post E]. split; [|done].
      intros _. exists EmptyString, post. exact E.
    + split; [done|]. intros (pre & post & H).
      destruct pre as [|c' pre]; [|by rewrite append_cons_l in H].
      assert (String.prefix sub EmptyString = true)
        by (apply prefix_spec; exists post; exact H).
      congruence.
  - rewrite includes_cons.
    destruct (String.prefix sub (String c s)) eqn:E.
    + apply prefix_spec in E as [post E]. split; [|done].
      intros _. exists EmptyString, post. exact E.
    + rewrite IH. split.
      * intros (pre & post & ->). by exists (String c pre), post.
      * intros (pre & post & H). destruct pre as [|c' pre].
        -- assert (String.prefix sub (String c s) = true)
             by (apply prefix_spec; exists post; exact H).
           congruence.
        -- rewrite append_cons_l in H. injection H as _ ->. eauto.
Qed.

(** On every character the two readings of the case of letters agree. *)
Lemma smallOf_toLowerChar c : smallOf c = toLowerChar c.
Proof. by destruct c as [[] [] [] [] [] [] [] []]. Qed.

Lemma capitalOf_toUpperChar c : capitalOf c = toUpperChar c.
Proof. by destruct c as [[] [] [] [] [] [] [] []]. Qed.

Lemma lowerCased_toLowerCase s : lowerCased s = toLowerCase s.
Proof.
  induction s as [|c s IH]; [done|]. simpl. by rewrite smallOf_toLowerChar, IH.
Qed.

Lemma includes_toLowerCase s w :
  includes (toLowerCase s) w = true ↔ containsIgnoringCase s w.
Proof.
  unfold containsIgnoringCase. setoid_rewrite lowerCased_toLowerCase.
  rewrite includes_spec. split.
  - intros (pre & post & H).
    apply toLowerCase_split in H as (s1 & s2 & -> & _ & H).
    apply toLowerCase_split in H as (s3 & s4 & -> & H & _).
    by exists s1, s3, s4.
  - intros (pre & mid & post & -> & <-).
    exists (toLowerCase pre), (toLowerCase post).
    by rewrite !toLowerCase_app.
Qed.

Lemma not_includes_toLowerCase s w :
  includes (toLowerCase s) w = false ↔ ¬ containsIgnoringCase s w.
Proof.
  rewrite <- includes_toLowerCase. by destruct (includes _ _).
Qed.
End StringFacts.

Local Close Scope string_scope.

(** ** Sorting the track ([parseGpx]) *)

Section SortFacts.
Context {A : Type} (cmp : A → A → Z).

Lemma insertSorted_Permutation x l : Permutation (insertSorted cmp x l) (x :: l).
Proof.
  induction l as [|y l IH]; simpl; [done|].
  destruct (cmp x y <=? 0)%Z; [done|].
  rewrite IH. apply perm_swap.
Qed.

Lemma Array_sort_Permutation l : Permutation (Array_sort cmp l) l.
Proof.
  induction l as [|x l IH]; simpl; [done|].
  rewrite insertSorted_Permutation. by constructor.
Qed.
End SortFacts.

Section TrackOrder.
Import GpxPoint.

Lemma insertSorted_timeLe x l :
  StronglySorted timeLe l → StronglySorted timeLe (insertSorted compareTime x l).
Proof.
  induction 1 as [|y l Hs IH Hy]; simpl.
  - repeat constructor.
  - destruct (Z.leb_spec (compareTime x y) 0) as [Hle|Hgt].
    + constructor; [by constructor|].
      unfold compareTime in Hle. constructor; [unfold timeLe; lia|].
      eapply Forall_impl; [exact Hy|]. unfold timeLe. intros; lia.
    + constructor; [done|].
      rewrite insertSorted_Permutation. constructor; [|done].
      unfold compareTime in Hgt. unfold timeLe. lia.
Qed.

Lemma sortPoints_sorted points : StronglySorted timeLe (sortPoints points).
Proof.
  induction points as [|x l IH]; simpl; [constructor|].
  by apply insertSorted_timeLe.
Qed.

Lemma sortPoints_Permutation points : Permutation (sortPoints points) points.
Proof. apply Array_sort_Permutation. Qed.

(** A stable sort leaves a sorted array as it is. *)
Lemma sortPoints_sorted_id track : Sorted timeLe track → sortPoints track = track.
Proof.
  induction 1 as [|x l Hs IH Hhd]; [done|].
  change (sortPoints (x :: l)) with (insertSorted compareTime x (sortPoints l)).
  rewrite IH. destruct Hhd as [|y l Hxy]; [done|]. simpl.
  unfold timeLe in Hxy. unfold compareTime.
  destruct (Z.leb_spec (time x - time y) 0); [done|lia].
Qed.

Lemma timeLe_strict track :
  StronglySorted timeLe track → NoDup (map time track) →
  StronglySorted timeLt track.
Proof.
  induction 1 as [|x l Hs IH Hx]; intros Hnd; [constructor|].
  simpl in Hnd. apply NoDup_cons in Hnd as [Hnotin Hnd].
  constructor; [by apply IH|].
  apply Forall_forall. intros y Hy.
  pose proof (proj1 (Forall_forall _ _) Hx y Hy) as Hle.
  unfold timeLe in Hle. unfold timeLt.
  assert (time x ≠ time y); [|lia].
  intros Heq. apply Hnotin. rewrite Heq. apply list_elem_of_fmap. eauto.
Qed.

(** Two strictly increasing arrangements of the same points coincide. *)
Lemma strictly_sorted_unique l1 l2 :
  StronglySorted timeLt l1 → StronglySorted timeLt l2 →
  Permutation l1 l2 → l1 = l2.
Proof.
  intros H1. revert l2. induction H1 as [|a r1 Hs1 IH Ha]; intros l2 H2 Hp.
  - by apply Permutation_nil in Hp.
  - destruct H2 as [|b r2 Hs2 Hb].
    + by apply Permutation_sym, Permutation_nil in Hp.
    + assert (a = b) as ->.
      { assert (a ∈ b :: r2) as Hin1 by (rewrite <- Hp; left).
        assert (b ∈ a :: r1) as Hin2 by (rewrite Hp; left).
        apply elem_of_cons in Hin1 as [?|Hin1]; [done|].
        apply elem_of_cons in Hin2 as [?|Hin2]; [done|].
        pose proof (proj1 (Forall_forall _ _) Ha b Hin2) as Hab.
        pose proof (proj1 (Forall_forall _ _) Hb a Hin1) as Hba.
        unfold timeLt in *. lia. }
      f_equal. apply IH; [done|]. by apply Permutation_cons_inv in Hp.
Qed.

Lemma sortPoints_unique track track' :
  Permutation track track' → NoDup (map time track) →
  sortPoints track' = sortPoints track.
Proof.
  intros Hp Hnd. apply strictly_sorted_unique.
  - apply timeLe_strict; [apply sortPoints_sorted|].
    by rewrite sortPoints_Permutation, <- Hp.
  - apply timeLe_strict; [apply sortPoints_sorted|].
    by rewrite sortPoints_Permutation.
  - by rewrite !sortPoints_Permutation.
Qed.
End TrackOrder.

(** ** Resolving a location ([interpolateLocation]) *)

Section Interpolation.
Import GpxPoint.

Lemma StronglySorted_lookup {A} (R : A → A → Prop) (l : list A) i j a b :
  StronglySorted R l → (i < j)%nat → l !! i = Some a → l !! j = Some b → R a b.
Proof.
  intros Hs. revert i j. induction Hs as [|x l Hs IH Hx]; intros i j Hij Ha Hb.
  - done.
  - destruct j as [|j]; [lia|]. destruct i as [|i]; simpl in *.
    + injection Ha as <-. eapply (proj1 (Forall_forall _ _) Hx), list_elem_of_lookup_2, Hb.
    + eapply (IH i j); [lia|done..].
Qed.

Lemma timeLe_trans : Transitive timeLe.
Proof. intros a b c. unfold timeLe. lia. Qed.

Lemma Sorted_timeLe_strongly track : Sorted timeLe track → StronglySorted timeLe track.
Proof. apply Sorted_StronglySorted, timeLe_trans. Qed.

Lemma findBracket_before targetTime track :
  Forall (λ p, targetTime < inject_Z (time p)) track →
  findBracket targetTime track = None.
Proof.
  induction 1 as [|p l Hp Hl IH]; [done|].
  destruct l as [|q l]; [done|].
  change (findBracket targetTime (p :: q :: l))
    with (if Qleb (inject_Z (time p)) targetTime && Qleb targetTime (inject_Z (time q))
          then Some (p, q) else findBracket targetTime (q :: l)).
  destruct (Qleb_spec (inject_Z (time p)) targetTime); [lra|]. by simpl.
Qed.

Lemma findBracket_after targetTime track :
  Forall (λ p, inject_Z (time p) < targetTime) track →
  findBracket targetTime track = None.
Proof.
  induction 1 as [|p l Hp Hl IH]; [done|].
  destruct l as [|q l]; [done|].
  change (findBracket targetTime (p :: q :: l))
    with (if Qleb (inject_Z (time p)) targetTime && Qleb targetTime (inject_Z (time q))
          then Some (p, q) else findBracket targetTime (q :: l)).
  apply Forall_cons in Hl as [Hq _].
  destruct (Qleb_spec targetTime (inject_Z (time q))); [lra|].
  by rewrite andb_false_r.
Qed.

Lemma findBracket_cons targetTime p q l :
  findBracket targetTime (p :: q :: l) =
  if Qleb (inject_Z (time p)) targetTime && Qleb targetTime (inject_Z (time q))
  then Some (p, q) else findBracket targetTime (q :: l).
Proof. reflexivity. Qed.

Lemma brackets_spec targetTime p q :
  Qleb (inject_Z (time p)) targetTime && Qleb targetTime (inject_Z (time q)) = true
  ↔ brackets targetTime p q.
Proof.
  unfold brackets.
  destruct (Qleb_spec (inject_Z (time p)) targetTime),
           (Qleb_spec targetTime (inject_Z (time q))); simpl;
    intuition (try discriminate; try lra).
Qed.

(** The loop stops at the first pair of neighbours around the target. *)
Lemma findBracket_first targetTime track i p1 p2 :
  track !! i = Some p1 → track !! S i = Some p2 →
  brackets targetTime p1 p2 →
  (∀ j q1 q2, (j < i)%nat → track !! j = Some q1 → track !! S j = Some q2 →
              ¬ brackets targetTime q1 q2) →
  findBracket targetTime track = Some (p1, p2).
Proof.
  revert i. induction track as [|p track IH]; intros i H1 H2 Hb Hfirst; [done|].
  destruct track as [|q rest]; [by destruct i|].
  rewrite findBracket_cons.
  destruct i as [|i]; simpl in H1, H2.
  - injection H1 as ->. injection H2 as ->.
    by rewrite (proj2 (brackets_spec _ _ _) Hb).
  - destruct (_ && _) eqn:E.
    + apply brackets_spec in E. by destruct (Hfirst 0%nat p q ltac:(lia)).
    + apply (IH i); [done..|].
      intros j q1 q2 Hj Hq1 Hq2. apply (Hfirst (S j)); [lia|done..].
Qed.

Lemma findBracket_found targetTime track i p1 p2 :
  track !! i = Some p1 → track !! S i = Some p2 →
  brackets targetTime p1 p2 →
  ∃ j q1 q2, (j <= i)%nat ∧ track !! j = Some q1 ∧ track !! S j = Some q2 ∧
             brackets targetTime q1 q2 ∧
             findBracket targetTime track = Some (q1, q2).
Proof.
  revert i. induction track as [|p track IH]; intros i H1 H2 Hb; [done|].
  destruct track as [|q rest]; [by destruct i|].
  rewrite findBracket_cons.
  destruct (_ && _) eqn:E.
  - apply brackets_spec in E. exists 0%nat, p, q. split_and!; [lia|done..].
  - destruct i as [|i]; simpl in H1, H2.
    + injection H1 as ->. injection H2 as ->.
      apply brackets_spec in Hb. congruence.
    + destruct (IH i H1 H2 Hb) as (j & q1 & q2 & Hj & Hq1 & Hq2 & Hbq & Hf).
      exists (S j), q1, q2. split_and!; [lia|done..].
Qed.

(** What [interpolateLocation] returns once the loop has found a pair. *)
Lemma interpolateLocation_found timestamp track videoStartTime p1 p2 :
  findBracket (videoStartTime + timestamp * 1000) track = Some (p1, p2) →
  ∃ l, interpolateLocation timestamp track videoStartTime = Some l ∧
       Location_eq l (interpolateBetween (videoStartTime + timestamp * 1000) p1 p2).
Proof.
  intros Hf. unfold interpolateLocation. destruct track as [|first rest]; [done|].
  cbv zeta. rewrite Hf. unfold interpolateBetween.
  destruct (Z.eqb_spec (time p2 - time p1) 0) as [Hd|Hd].
  - rewrite (proj2 (Z.eqb_eq (time p1) (time p2))) by lia.
    eexists; split; [done|]. by split.
  - rewrite (proj2 (Z.eqb_neq (time p1) (time p2))) by lia.
    eexists; split; [done|].
    assert (inject_Z (time p2 - time p1) == inject_Z (time p2) - inject_Z (time p1)) as Hi
      by (unfold Z.sub; rewrite inject_Z_plus, inject_Z_opp; ring).
    split; simpl; by rewrite Hi.
Qed.

(** With strictly increasing timestamps, every pair of neighbours around
    the target yields the same coordinate as the first one. *)
Lemma interpolateBetween_strict targetTime track i j p1 p2 q1 q2 :
  StronglySorted timeLt track → (j <= i)%nat →
  track !! i = Some p1 → track !! S i = Some p2 → brackets targetTime p1 p2 →
  track !! j = Some q1 → track !! S j = Some q2 → brackets targetTime q1 q2 →
  Location_eq (interpolateBetween targetTime q1 q2) (interpolateBetween targetTime p1 p2).
Proof.
  intros Hs Hji Hp1 Hp2 [Hbp1 Hbp2] Hq1 Hq2 [Hbq1 Hbq2].
  destruct (decide (j = i)) as [->|Hne].
  { rewrite Hp1 in Hq1. rewrite Hp2 in Hq2. injection Hq1 as ->. injection Hq2 as ->.
    by split. }
  pose proof (StronglySorted_lookup _ _ _ _ _ _ Hs (Nat.lt_succ_diag_r j) Hq1 Hq2) as Hq12.
  pose proof (StronglySorted_lookup _ _ _ _ _ _ Hs (Nat.lt_succ_diag_r i) Hp1 Hp2) as Hp12.
  unfold timeLt in Hq12, Hp12.
  assert (q2 = p1) as ->.
  { destruct (decide (S j = i)) as [<-|Hne']; [congruence|].
    assert (S j < i)%nat as Hlt by lia.
    pose proof (StronglySorted_lookup _ _ _ _ _ _ Hs Hlt Hq2 Hp1) as Hq2p1.
    unfold timeLt in Hq2p1. rewrite Zlt_Qlt in Hq2p1. lra. }
  assert (targetTime == inject_Z (time p1)) as HT by lra.
  rewrite Zlt_Qlt in Hq12, Hp12.
  unfold interpolateBetween.
  rewrite (proj2 (Z.eqb_neq (time q1) (time p1))) by (intros E; rewrite E in Hq12; lra).
  rewrite (proj2 (Z.eqb_neq (time p1) (time p2))) by (intros E; rewrite E in Hp12; lra).
  split; simpl; rewrite HT; field; lra.
Qed.
End Interpolation.




(** C8. On a timestamp-sorted non-empty track a target strictly before the
    first timestamp resolves to the first point and a target strictly after
    the last timestamp resolves to the last point; the one-point track
    [(1, 1, T0)] resolves [T0 - 100 s] to (1, 1). *)
Theorem interpolateLocation_clamps :
  (∀ timestamp first rest videoStartTime,
     Sorted timeLe (first :: rest) →
     (videoStartTime + timestamp * 1000 < inject_Z (GpxPoint.time first) →
      interpolateLocation timestamp (first :: rest) videoStartTime
      = Some (locationOf first)) ∧
     (inject_Z (GpxPoint.time (List.last (first :: rest) first))
        < videoStartTime + timestamp * 1000 →
      interpolateLocation timestamp (first :: rest) videoStartTime
      = Some (locationOf (List.last (first :: rest) first)))) ∧
  (∀ T0 : Z,
     resolves (interpolateLocation (-100) [GpxPoint.mk 1 1 T0] (inject_Z T0)) 1 1).
Proof.
  split.
  - intros timestamp first rest videoStartTime Hs.
    apply Sorted_timeLe_strongly in Hs.
    assert (Forall (timeLe first) (first :: rest)) as Hfirst.
    { apply StronglySorted_inv in Hs as [_ Hf].
      constructor; [unfold timeLe; lia|done]. }
    assert (Forall (λ p, timeLe p (List.last (first :: rest) first)) (first :: rest))
      as Hlast.
    { clear Hfirst. generalize first at 2 as d.
      induction Hs as [|x l Hs IH Hx]; intros d; [constructor|].
      destruct l as [|y l]; [repeat constructor; unfold timeLe; simpl; lia|].
      change (List.last (x :: y :: l) d) with (List.last (y :: l) d).
      constructor; [|apply IH].
      apply (proj1 (Forall_forall _ _) Hx).
      clear. revert y. induction l as [|z l IH]; intros y; [left|].
      right. apply IH. }
    set (targetTime := videoStartTime + timestamp * 1000).
    split; intros Ht; unfold interpolateLocation; cbv zeta; fold targetTime.
    + rewrite findBracket_before.
      * by destruct (Qltb_spec targetTime (inject_Z (GpxPoint.time first))).
      * eapply Forall_impl; [exact Hfirst|]. unfold timeLe. intros p Hp.
        rewrite Zle_Qle in Hp. lra.
    + rewrite findBracket_after.
      * destruct (Qltb_spec targetTime (inject_Z (GpxPoint.time first))) as [Hlt|]; [|done].
        apply Forall_cons in Hlast as [Hle _]. unfold timeLe in Hle.
        rewrite Zle_Qle in Hle. lra.
      * eapply Forall_impl; [exact Hlast|]. unfold timeLe. intros p Hp.
        rewrite Zle_Qle in Hp. lra.
  - intros T0. unfold interpolateLocation; simpl.
    destruct (Qltb_spec (inject_Z T0 + -100 * 1000) (inject_Z T0)); [|lra].
    eexists; split; [done|]. by split.
Qed.

Lemma interpolateLocation_clamps_witness :
  interpolateLocation 0 [GpxPoint.mk 1 2 5000; GpxPoint.mk 3 4 9000] 0
    = Some (Location.mk 1 2) ∧
  interpolateLocation 10 [GpxPoint.mk 1 2 5000; GpxPoint.mk 3 4 9000] 0
    = Some (Location.mk 3 4).
Proof.
  assert (Sorted timeLe [GpxPoint.mk 1 2 5000; GpxPoint.mk 3 4 9000]) as Hs
    by (repeat constructor; unfold timeLe; simpl; lia).
  split.
  - apply (proj1 (proj1 interpolateLocation_clamps 0 _ _ 0 Hs)). reflexivity.
  - apply (proj2 (proj1 interpolateLocation_clamps 10 _ _ 0 Hs)). reflexivity.
Defined.

(** C2 as stated fails. [interpolateLocation] does not sort: on the track
    [(10, 10, 10 s), (0, 0, 0 s)], a permutation of a sorted track, the
    target 5 s resolves to (10, 10), while on the sorted track it resolves
    to (5, 5). And with the sort of [parseGpx] applied first, two orders of
    the same points still resolve differently when timestamps coincide: the
    stable sort keeps [(0, 0, 0 s), (1, 1, 0 s)] and [(1, 1, 0 s), (0, 0, 0 s)]
    as they are, and the target 0 s resolves to (0, 0) on the first and to
    (1, 1) on the second. *)
Lemma interpolateLocation_unsorted_counterexample :
  (Permutation [GpxPoint.mk 10 10 10000; GpxPoint.mk 0 0 0]
               (sortPoints [GpxPoint.mk 10 10 10000; GpxPoint.mk 0 0 0]) ∧
   resolves (interpolateLocation 5 [GpxPoint.mk 10 10 10000; GpxPoint.mk 0 0 0] 0)
            10 10 ∧
   resolves (interpolateLocation 5
               (sortPoints [GpxPoint.mk 10 10 10000; GpxPoint.mk 0 0 0]) 0) 5 5 ∧
   ¬ sameResult
       (interpolateLocation 5 [GpxPoint.mk 10 10 10000; GpxPoint.mk 0 0 0] 0)
       (interpolateLocation 5
          (sortPoints [GpxPoint.mk 10 10 10000; GpxPoint.mk 0 0 0]) 0)) ∧
  (Permutation [GpxPoint.mk 0 0 0; GpxPoint.mk 1 1 0]
               [GpxPoint.mk 1 1 0; GpxPoint.mk 0 0 0] ∧
   Sorted timeLe [GpxPoint.mk 0 0 0; GpxPoint.mk 1 1 0] ∧
   resolves (interpolateLocation 0
               (sortPoints [GpxPoint.mk 0 0 0; GpxPoint.mk 1 1 0]) 0) 0 0 ∧
   resolves (interpolateLocation 0
               (sortPoints [GpxPoint.mk 1 1 0; GpxPoint.mk 0 0 0]) 0) 1 1 ∧
   ¬ sameResult
       (interpolateLocation 0 (sortPoints [GpxPoint.mk 1 1 0; GpxPoint.mk 0 0 0]) 0)
       (interpolateLocation 0 (sortPoints [GpxPoint.mk 0 0 0; GpxPoint.mk 1 1 0]) 0)).
Proof.
  split; split_and!.
  - by rewrite sortPoints_Permutation.
  - eexists. split; [vm_compute; reflexivity|]. by split.
  - eexists. split; [vm_compute; reflexivity|]. by split.
  - vm_compute. intros [H _]. discriminate.
  - apply perm_swap.
  - repeat constructor. unfold timeLe. simpl. lia.
  - eexists. split; [vm_compute; reflexivity|]. by split.
  - eexists. split; [vm_compute; reflexivity|]. by split.
  - vm_compute. intros [H _]. discriminate.
Qed.

(** ** The class set and the accumulators *)

Section ClassSet.
Lemma Set_add_elem s x y : y ∈ Set_add s x ↔ y ∈ s ∨ y = x.
Proof.
  unfold Set_add. case_bool_decide.
  - naive_solver.
  - rewrite elem_of_app, list_elem_of_singleton. naive_solver.
Qed.

Lemma Set_add_NoDup s x : NoDup s → NoDup (Set_add s x).
Proof.
  intros Hs. unfold Set_add. case_bool_decide; [done|].
  apply NoDup_app. split_and!; [done| |apply NoDup_singleton].
  intros y Hy Hyx. apply list_elem_of_singleton in Hyx. congruence.
Qed.

Lemma foldl_Set_add_elem l s y : y ∈ foldl Set_add s l ↔ y ∈ s ∨ y ∈ l.
Proof.
  revert s. induction l as [|x l IH]; intros s; simpl.
  - rewrite elem_of_nil. naive_solver.
  - rewrite IH, Set_add_elem, elem_of_cons. naive_solver.
Qed.

Lemma foldl_Set_add_NoDup l s : NoDup s → NoDup (foldl Set_add s l).
Proof.
  revert s. induction l as [|x l IH]; intros s Hs; simpl; [done|].
  by apply IH, Set_add_NoDup.
Qed.

Lemma Set_from_elem l y : y ∈ Set_from l ↔ y ∈ l.
Proof. unfold Set_from. rewrite foldl_Set_add_elem, elem_of_nil. naive_solver. Qed.

Lemma Set_from_NoDup l : NoDup (Set_from l).
Proof. apply foldl_Set_add_NoDup, NoDup_nil_2. Qed.

Lemma allClasses_NoDup aiDefects gtDefects : NoDup (allClasses aiDefects gtDefects).
Proof. apply Set_from_NoDup. Qed.

Lemma allClasses_ai aiDefects gtDefects aiDefect :
  aiDefect ∈ aiDefects →
  normalizeAiType (Defect.type aiDefect) ∈ allClasses aiDefects gtDefects.
Proof.
  intros H. unfold allClasses, aiClasses.
  rewrite Set_from_elem, elem_of_app, !Set_from_elem. right.
  apply list_elem_of_fmap. eauto.
Qed.

Lemma allClasses_gt aiDefects gtDefects gtDefect :
  gtDefect ∈ gtDefects →
  normalizeGtType (GroundTruthDefect.type gtDefect) ∈ allClasses aiDefects gtDefects.
Proof.
  intros H. unfold allClasses, gtClasses.
  rewrite Set_from_elem, elem_of_app, !Set_from_elem. left.
  apply list_elem_of_fmap. eauto.
Qed.

Lemma initPerClassData_lookup gtDefects classes c :
  initPerClassData gtDefects classes !! c =
  if bool_decide (c ∈ classes) then Some (initClass gtDefects c) else None.
Proof.
  unfold initPerClassData.
  assert (∀ m : gmap string ClassData.t,
            foldl (λ perClassData className,
                     <[className := initClass gtDefects className]> perClassData)
                  m classes !! c
            = if bool_decide (c ∈ classes) then Some (initClass gtDefects c)
              else m !! c) as Hgen.
  { induction classes as [|x l IH]; intros m; simpl; [done|].
    rewrite IH. case_bool_decide as Hl.
    - rewrite bool_decide_true; [done|]. by right.
    - destruct (decide (c = x)) as [->|Hne].
      + rewrite bool_decide_true by left. by rewrite lookup_insert_eq.
      + rewrite lookup_insert_ne by done.
        rewrite bool_decide_false; [done|].
        rewrite elem_of_cons. naive_solver. }
  rewrite Hgen. by case_bool_decide.
Qed.
End ClassSet.

(** C6. Normalization is a function of the label alone, applied to every
    element: the classes of a comparison are exactly the normalized labels of
    its references and detections. For labels of ASCII characters: a
    reference label becomes its first letter capital followed by the rest in
    small letters ("pothole" becomes "Pothole"); a detection label
    containing "crack" in any letter case becomes "Crack"; every label of the
    closed set of detection types that contains "pothole" becomes "Pothole"
    (as does any string containing "pothole" and not "crack", which is tested
    first); a label containing neither is returned unchanged. *)
Theorem normalization_rules :
  (∀ type, asciiString type = true → normalizeGtType type = capitalized type) ∧
  normalizeGtType "pothole" = "Pothole"%string ∧
  (∀ type, asciiString type = true →
           containsIgnoringCase type "crack" →
           normalizeAiType type = "Crack"%string) ∧
  (∀ t : DefectType, containsIgnoringCase (DefectType_label t) "pothole" →
                     normalizeAiType (DefectType_label t) = "Pothole"%string) ∧
  (∀ type, asciiString type = true →
           containsIgnoringCase type "pothole" →
           ¬ containsIgnoringCase type "crack" →
           normalizeAiType type = "Pothole"%string) ∧
  (∀ type, asciiString type = true →
           ¬ containsIgnoringCase type "crack" →
           ¬ containsIgnoringCase type "pothole" →
           normalizeAiType type = type) ∧
  (∀ aiDefects gtDefects c,
     c ∈ allClasses aiDefects gtDefects ↔
     (∃ g, g ∈ gtDefects ∧ c = normalizeGtType (GroundTruthDefect.type g)) ∨
     (∃ a, a ∈ aiDefects ∧ c = normalizeAiType (Defect.type a))).
Proof.
  split_and!.
  - intros [|c rest] _; [reflexivity|].
    change (normalizeGtType (String c rest))
      with (String (toUpperChar c) (toLowerCase rest)).
    simpl capitalized. by rewrite capitalOf_toUpperChar, lowerCased_toLowerCase.
  - reflexivity.
  - intros type _ H. apply includes_toLowerCase in H.
    unfold normalizeAiType. by rewrite H.
  - intros t H. apply includes_toLowerCase in H.
    by destruct t; vm_compute in H |- *.
  - intros type _ Hp Hc. apply includes_toLowerCase in Hp.
    apply not_includes_toLowerCase in Hc.
    unfold normalizeAiType. by rewrite Hc, Hp.
  - intros type _ Hc Hp. apply not_includes_toLowerCase in Hc, Hp.
    unfold normalizeAiType. by rewrite Hc, Hp.
  - intros aiDefects gtDefects c. unfold allClasses, gtClasses, aiClasses.
    rewrite Set_from_elem, elem_of_app, !Set_from_elem, !list_elem_of_fmap.
    split; intros [(x & H1 & H2)|(x & H1 & H2)]; eauto.
Qed.

Lemma normalization_rules_witness :
  normalizeGtType "pOTHOLE" = capitalized "pOTHOLE" ∧
  capitalized "pOTHOLE" = "Pothole"%string ∧
  normalizeGtType "rutting" = "Rutting"%string ∧
  normalizeAiType "Alligator Crack" = "Crack"%string ∧
  normalizeAiType (DefectType_label Pothole) = "Pothole"%string ∧
  normalizeAiType "Rutting" = "Rutting"%string.
Proof.
  destruct normalization_rules as (Hgt & _ & Hcrack & Hpothole & _ & Hother & _).
  split_and!.
  - by apply Hgt.
  - reflexivity.
  - by rewrite Hgt.
  - apply Hcrack; [done|]. by exists "Alligator "%string, "Crack"%string, ""%string.
  - apply Hpothole. by exists ""%string, "Pothole"%string, ""%string.
  - apply Hother; [done|..]; apply not_includes_toLowerCase; reflexivity.
Defined.

Section Sums.
Implicit Types (perClassData : gmap string ClassData.t) (classes : list string).

Lemma sumCount_insert_notin f perClassData classes c d :
  c ∉ classes →
  sumCount f (<[c := d]> perClassData) classes = sumCount f perClassData classes.
Proof.
  unfold sumCount. induction classes as [|x l IH]; intros Hc; simpl; [done|].
  apply not_elem_of_cons in Hc as [Hne Hc].
  rewrite IH by done. unfold classCount at 1 3.
  by rewrite lookup_insert_ne.
Qed.

Lemma sumCount_insert f perClassData classes c d d' :
  NoDup classes → c ∈ classes → perClassData !! c = Some d →
  (sumCount f (<[c := d']> perClassData) classes + f d
   = sumCount f perClassData classes + f d')%nat.
Proof.
  intros Hnd Hc Hd. induction Hnd as [|x l Hx Hnd IH]; [by apply elem_of_nil in Hc|].
  unfold sumCount in *; simpl.
  destruct (decide (c = x)) as [->|Hne].
  - pose proof (sumCount_insert_notin f perClassData l x d' Hx) as Hl.
    unfold sumCount in Hl. rewrite Hl.
    unfold classCount at 1 3. rewrite lookup_insert_eq, Hd. simpl. lia.
  - apply elem_of_cons in Hc as [?|Hc]; [done|]. specialize (IH Hc).
    unfold classCount at 1 3. rewrite lookup_insert_ne by done. lia.
Qed.

Lemma sumIou_insert_notin perClassData classes c d :
  c ∉ classes →
  sumIou (<[c := d]> perClassData) classes = sumIou perClassData classes.
Proof.
  unfold sumIou. induction classes as [|x l IH]; intros Hc; simpl; [done|].
  apply not_elem_of_cons in Hc as [Hne Hc].
  rewrite IH by done. by rewrite lookup_insert_ne.
Qed.

Lemma sumIou_insert perClassData classes c d d' :
  NoDup classes → c ∈ classes → perClassData !! c = Some d →
  sumIou (<[c := d']> perClassData) classes + ClassData.iouSum d
  == sumIou perClassData classes + ClassData.iouSum d'.
Proof.
  intros Hnd Hc Hd. induction Hnd as [|x l Hx Hnd IH]; [by apply elem_of_nil in Hc|].
  unfold sumIou in *; simpl.
  destruct (decide (c = x)) as [->|Hne].
  - pose proof (sumIou_insert_notin perClassData l x d' Hx) as Hl.
    unfold sumIou in Hl. rewrite Hl.
    rewrite lookup_insert_eq, Hd. simpl. ring.
  - apply elem_of_cons in Hc as [?|Hc]; [done|]. specialize (IH Hc).
    rewrite lookup_insert_ne by done. lra.
Qed.

(** The last loop never throws when every class has an accumulator, and
    computes the sums of the counters and the metrics of each class. *)
Lemma forEachM_addClass perClassData classes acc :
  (∀ c, c ∈ classes → is_Some (perClassData !! c)) →
  ∃ t, forEachM (addClass perClassData) classes acc = Some t ∧
       totalTp t = (totalTp acc + sumCount ClassData.tp perClassData classes)%nat ∧
       totalFp t = (totalFp acc + sumCount ClassData.fp perClassData classes)%nat ∧
       totalFn t = (totalFn acc + sumCount ClassData.fn perClassData classes)%nat ∧
       totalIouSum t == totalIouSum acc + sumIou perClassData classes ∧
       (∀ c, perClassMetrics t !! c =
             if bool_decide (c ∈ classes) then metricsOf <$> perClassData !! c
             else perClassMetrics acc !! c).
Proof.
  revert acc. induction classes as [|x l IH]; intros acc Hdom.
  - exists acc. unfold sumCount, sumIou. simpl. split_and!; try done; try lia; ring.
  - destruct (Hdom x) as [d Hd]; [left|].
    change (forEachM (addClass perClassData) (x :: l) acc)
      with (addClass perClassData acc x ≫= forEachM (addClass perClassData) l).
    assert (addClass perClassData acc x =
            Some (mkTotals (<[x := metricsOf d]> (perClassMetrics acc))
                    (totalTp acc + ClassData.tp d) (totalFp acc + ClassData.fp d)
                    (totalFn acc + ClassData.fn d)
                    (totalIouSum acc + ClassData.iouSum d))) as ->
      by (unfold addClass; by rewrite Hd).
    cbn [mbind option_bind].
    edestruct IH as (t & Ht & Htp & Hfp & Hfn & Hiou & Hm);
      [intros c Hc; apply Hdom; by right|].
    exists t. split; [exact Ht|]. simpl in *.
    unfold sumCount, sumIou in *. simpl. unfold classCount at 1 3 5.
    rewrite Hd. simpl. split_and!; try lia.
    + rewrite Hiou. ring.
    + intros c. rewrite Hm. case_bool_decide as Hl.
      * rewrite bool_decide_true; [done|]. by right.
      * destruct (decide (c = x)) as [->|Hne].
        -- rewrite bool_decide_true by left.
           by rewrite lookup_insert_eq, Hd.
        -- rewrite lookup_insert_ne by done.
           rewrite bool_decide_false; [done|].
           rewrite elem_of_cons. naive_solver.
Qed.

Lemma sumClasses_spec perClassData classes :
  (∀ c, c ∈ classes → is_Some (perClassData !! c)) →
  ∃ t, sumClasses perClassData classes = Some t ∧
       totalTp t = sumCount ClassData.tp perClassData classes ∧
       totalFp t = sumCount ClassData.fp perClassData classes ∧
       totalFn t = sumCount ClassData.fn perClassData classes ∧
       totalIouSum t == sumIou perClassData classes ∧
       (∀ c, perClassMetrics t !! c =
             if bool_decide (c ∈ classes) then metricsOf <$> perClassData !! c
             else None).
Proof.
  intros Hdom.
  destruct (forEachM_addClass perClassData classes (mkTotals ∅ 0 0 0 0) Hdom)
    as (t & Ht & Htp & Hfp & Hfn & Hiou & Hm).
  exists t. simpl in *. split_and!; try done.
  rewrite Hiou. ring.
Qed.
End Sums.

(** ** The detection loop *)

Section DetectionLoop.
Variable iouThreshold : Q.
Variable gtDefects : list GroundTruthDefect.t.

Lemma forEachIndexed_cons {A S} (f : S → A → Z → S) i x l s :
  forEachIndexed f i (x :: l) s = forEachIndexed f (i + 1) l (f s x i).
Proof. reflexivity. Qed.

Lemma forEachM_cons {A S} (f : S → A → option S) x l s :
  forEachM f (x :: l) s = f s x ≫= forEachM f l.
Proof. reflexivity. Qed.

(** The inner loop leaves either its initial value or a candidate. *)
Lemma findBestMatch_spec matched aiDefect :
  findBestMatch matched gtDefects aiDefect = BestMatch.mk (-1) (-1) ∨
  isCandidate matched gtDefects aiDefect (findBestMatch matched gtDefects aiDefect).
Proof.
  unfold findBestMatch; cbv zeta.
  set (aiType := normalizeAiType (Defect.type aiDefect)).
  assert (∀ l pre b,
    gtDefects = pre ++ l →
    b = BestMatch.mk (-1) (-1) ∨ isCandidate matched gtDefects aiDefect b →
    let r := forEachIndexed (bestMatchStep matched aiDefect aiType)
                            (Z.of_nat (length pre)) l b in
    r = BestMatch.mk (-1) (-1) ∨ isCandidate matched gtDefects aiDefect r) as Hgen.
  { induction l as [|g l IH]; intros pre b Hgt Hb; [done|].
    cbv zeta. rewrite forEachIndexed_cons.
    replace (Z.of_nat (length pre) + 1)%Z with (Z.of_nat (length (pre ++ [g])))
      by (rewrite length_app; simpl; lia).
    apply IH; [by rewrite <- app_assoc|].
    unfold bestMatchStep; cbv zeta.
    case_bool_decide as Hm; simpl; [done|].
    case_bool_decide as Ht; simpl; [|done].
    destruct (Qltb _ _); [|done].
    right. exists (length pre), g. simpl. split_and!; try done.
    rewrite Hgt. by rewrite list_lookup_middle. }
  apply (Hgen gtDefects [] _ eq_refl). by left.
Qed.

(** With a non-negative threshold, a best match that passes the test is a
    candidate. *)
Lemma accepted_isCandidate matched aiDefect :
  0 <= iouThreshold →
  Qleb iouThreshold (BestMatch.iou (findBestMatch matched gtDefects aiDefect)) = true →
  isCandidate matched gtDefects aiDefect (findBestMatch matched gtDefects aiDefect).
Proof.
  intros Hthr Hacc. destruct (findBestMatch_spec matched aiDefect) as [Hinit|]; [|done].
  rewrite Hinit in Hacc. simpl in Hacc.
  destruct (Qleb_spec iouThreshold (-1)); [lra|done].
Qed.

(** One iteration, when the class of the detection has an accumulator. *)
Lemma processDetection_spec st aiDefect d :
  perClassData st !! normalizeAiType (Defect.type aiDefect) = Some d →
  match outcomeOf iouThreshold gtDefects st aiDefect with
  | TruePositive gtIndex iou =>
      processDetection iouThreshold gtDefects st aiDefect =
      Some (mkMatchState ({[gtIndex]} ∪ matchedGtIndices st)
              (<[normalizeAiType (Defect.type aiDefect) := incrTp iou d]>
                 (perClassData st)))
  | FalsePositive =>
      processDetection iouThreshold gtDefects st aiDefect =
      Some (mkMatchState (matchedGtIndices st)
              (<[normalizeAiType (Defect.type aiDefect) := incrFp d]>
                 (perClassData st)))
  end.
Proof.
  intros Hd. unfold outcomeOf, processDetection; cbv zeta.
  destruct (Qleb iouThreshold _); by rewrite Hd.
Qed.
End DetectionLoop.

Section DetectionLoopCounts.
Variable iouThreshold : Q.
Variable gtDefects : list GroundTruthDefect.t.
Variable classes : list string.
Hypothesis classes_NoDup : NoDup classes.

Lemma matchedIndices_cons_tp i iou os :
  matchedIndices (TruePositive i iou :: os) = i :: matchedIndices os.
Proof. reflexivity. Qed.

Lemma matchedIous_cons_tp i iou os :
  matchedIous (TruePositive i iou :: os) = iou :: matchedIous os.
Proof. reflexivity. Qed.

Lemma is_Some_insert_present (m : gmap string ClassData.t) k d d' c :
  m !! k = Some d → is_Some (<[k := d']> m !! c) ↔ is_Some (m !! c).
Proof.
  intros Hk. destruct (decide (k = c)) as [->|Hne].
  - rewrite lookup_insert_eq, Hk. split; eauto.
  - by rewrite lookup_insert_ne.
Qed.

Lemma outcomesFrom_cons st aiDefect rest :
  outcomesFrom iouThreshold gtDefects st (aiDefect :: rest) =
  outcomeOf iouThreshold gtDefects st aiDefect ::
  match processDetection iouThreshold gtDefects st aiDefect with
  | Some st' => outcomesFrom iouThreshold gtDefects st' rest
  | None => []
  end.
Proof. reflexivity. Qed.

(** The detection loop never throws when the class of every detection has
    an accumulator, and counts one true or one false positive per
    detection. *)
Lemma detectionLoop_counts aiDefects st :
  (∀ a, a ∈ aiDefects → normalizeAiType (Defect.type a) ∈ classes) →
  (∀ c, c ∈ classes → is_Some (perClassData st !! c)) →
  ∃ st', forEachM (processDetection iouThreshold gtDefects) aiDefects st = Some st' ∧
    let os := outcomesFrom iouThreshold gtDefects st aiDefects in
    length os = length aiDefects ∧
    (sumCount ClassData.tp (perClassData st') classes
     = sumCount ClassData.tp (perClassData st) classes
       + length (matchedIndices os))%nat ∧
    (sumCount ClassData.fp (perClassData st') classes + length (matchedIndices os)
     = sumCount ClassData.fp (perClassData st) classes + length aiDefects)%nat ∧
    sumCount ClassData.fn (perClassData st') classes
    = sumCount ClassData.fn (perClassData st) classes ∧
    sumIou (perClassData st') classes
    == sumIou (perClassData st) classes + Qsum (matchedIous os) ∧
    matchedGtIndices st' = list_to_set (matchedIndices os) ∪ matchedGtIndices st ∧
    (∀ c, is_Some (perClassData st' !! c) ↔ is_Some (perClassData st !! c)).
Proof.
  revert st. induction aiDefects as [|a rest IH]; intros st Hai Hdom.
  - exists st. simpl. split_and!; try done; try lia; [ring|set_solver].
  - set (aiType := normalizeAiType (Defect.type a)).
    assert (aiType ∈ classes) as Hc by (apply Hai; left).
    destruct (Hdom _ Hc) as [d Hd].
    pose proof (processDetection_spec iouThreshold gtDefects st a d Hd) as Hstep.
    rewrite forEachM_cons, outcomesFrom_cons. fold aiType in Hstep.
    destruct (outcomeOf iouThreshold gtDefects st a) as [i iou|];
      rewrite Hstep; cbn [mbind option_bind];
      match goal with |- context [forEachM _ rest ?s] => set (st1 := s) end;
      (destruct (IH st1) as (st' & Hrun & Hlen & Htp & Hfp & Hfn & Hiou & Hm & Hd');
       [intros; apply Hai; by right
       |intros c Hcc; apply (is_Some_insert_present _ aiType d); [done|by apply Hdom]
       |]);
      exists st'; (split; [exact Hrun|]); cbv zeta in *; simpl in Hlen |- *.
    + pose proof (sumCount_insert ClassData.tp _ _ _ _ (incrTp iou d)
                    classes_NoDup Hc Hd) as Etp.
      pose proof (sumCount_insert ClassData.fp _ _ _ _ (incrTp iou d)
                    classes_NoDup Hc Hd) as Efp.
      pose proof (sumCount_insert ClassData.fn _ _ _ _ (incrTp iou d)
                    classes_NoDup Hc Hd) as Efn.
      pose proof (sumIou_insert _ _ _ _ (incrTp iou d) classes_NoDup Hc Hd) as Eiou.
      simpl in *. split_and!; try lia.
      * rewrite Hiou. lra.
      * rewrite Hm. subst st1. simpl. set_solver.
      * intros c. rewrite Hd'. subst st1. simpl.
        by apply (is_Some_insert_present _ aiType d).
    + pose proof (sumCount_insert ClassData.tp _ _ _ _ (incrFp d)
                    classes_NoDup Hc Hd) as Etp.
      pose proof (sumCount_insert ClassData.fp _ _ _ _ (incrFp d)
                    classes_NoDup Hc Hd) as Efp.
      pose proof (sumCount_insert ClassData.fn _ _ _ _ (incrFp d)
                    classes_NoDup Hc Hd) as Efn.
      pose proof (sumIou_insert _ _ _ _ (incrFp d) classes_NoDup Hc Hd) as Eiou.
      simpl in *. split_and!; try lia.
      * rewrite Hiou. lra.
      * rewrite Hm. by subst st1.
      * intros c. rewrite Hd'. subst st1. simpl.
        by apply (is_Some_insert_present _ aiType d).
Qed.
End DetectionLoopCounts.

Section OneToOne.
Variable iouThreshold : Q.
Variable gtDefects : list GroundTruthDefect.t.
Hypothesis threshold_nonneg : 0 <= iouThreshold.

Lemma processDetection_matched st aiDefect st1 :
  processDetection iouThreshold gtDefects st aiDefect = Some st1 →
  matchedGtIndices st1 =
  match outcomeOf iouThreshold gtDefects st aiDefect with
  | TruePositive i _ => {[i]} ∪ matchedGtIndices st
  | FalsePositive => matchedGtIndices st
  end.
Proof.
  unfold processDetection, outcomeOf; cbv zeta.
  destruct (Qleb iouThreshold _);
    destruct (perClassData st !! _); simpl; intros [= <-]; done.
Qed.

Lemma outcomeOf_justified st aiDefect :
  justified iouThreshold gtDefects aiDefect
    (outcomeOf iouThreshold gtDefects st aiDefect) ∧
  match outcomeOf iouThreshold gtDefects st aiDefect with
  | TruePositive i _ => i ∉ matchedGtIndices st
  | FalsePositive => True
  end.
Proof.
  unfold outcomeOf; cbv zeta.
  destruct (Qleb iouThreshold _) eqn:Hacc; [|done].
  destruct (accepted_isCandidate iouThreshold gtDefects _ _ threshold_nonneg Hacc)
    as (k & g & Hk & Hi & Hnot & Hty & Hiou).
  split; [|by rewrite Hi].
  exists k, g. split_and!; try done.
  by destruct (Qleb_spec iouThreshold
                 (BestMatch.iou (findBestMatch (matchedGtIndices st) gtDefects aiDefect))).
Qed.

(** No reference index is recorded twice, and every recorded index is
    that of a reference that was not consumed before. *)
Lemma outcomesFrom_one_to_one aiDefects st :
  let os := outcomesFrom iouThreshold gtDefects st aiDefects in
  NoDup (matchedIndices os) ∧
  ∀ i, i ∈ matchedIndices os →
       (i ∉ matchedGtIndices st) ∧ (0 <= i < Z.of_nat (length gtDefects))%Z.
Proof.
  revert st. induction aiDefects as [|a rest IH]; intros st; cbv zeta.
  - split; [constructor|]. intros i Hi. by apply elem_of_nil in Hi.
  - rewrite outcomesFrom_cons.
    destruct (outcomeOf_justified st a) as [Hj Hnew].
    pose proof (processDetection_matched st a) as Hm.
    destruct (processDetection iouThreshold gtDefects st a) as [st1|].
    + specialize (Hm st1 eq_refl). destruct (IH st1) as [Hnd Hin].
      destruct (outcomeOf iouThreshold gtDefects st a) as [i iou|].
      * rewrite matchedIndices_cons_tp.
        destruct Hj as (k & g & Hk & -> & _).
        apply lookup_lt_Some in Hk.
        split.
        -- constructor; [|done]. intros Hi. apply Hin in Hi as [Hi _].
           rewrite Hm in Hi. set_solver.
        -- intros j Hjin. apply elem_of_cons in Hjin as [->|Hjin].
           ++ split; [done|lia].
           ++ apply Hin in Hjin as [Hjn Hr]. split; [|done].
              rewrite Hm in Hjn. set_solver.
      * change (matchedIndices (FalsePositive :: ?os)) with (matchedIndices os).
        split; [done|]. intros j Hjin. apply Hin in Hjin. by rewrite Hm in Hjin.
    + destruct (outcomeOf iouThreshold gtDefects st a) as [i iou|].
      * destruct Hj as (k & g & Hk & -> & _). apply lookup_lt_Some in Hk.
        change (matchedIndices [TruePositive (Z.of_nat k) iou]) with [Z.of_nat k].
        split; [apply NoDup_singleton|].
        intros j Hjin. apply list_elem_of_singleton in Hjin as ->. split; [done|lia].
      * split; [constructor|]. intros i Hi. by apply elem_of_nil in Hi.
Qed.

Lemma outcomesFrom_justified aiDefects st n a o :
  aiDefects !! n = Some a →
  outcomesFrom iouThreshold gtDefects st aiDefects !! n = Some o →
  justified iouThreshold gtDefects a o.
Proof.
  revert st n. induction aiDefects as [|a0 rest IH]; intros st n Ha Ho; [done|].
  rewrite outcomesFrom_cons in Ho. destruct n as [|n]; simpl in Ha, Ho.
  - injection Ha as <-. injection Ho as <-. apply outcomeOf_justified.
  - destruct (processDetection iouThreshold gtDefects st a0) as [st1|]; [|done].
    by apply (IH st1 n).
Qed.
End OneToOne.

(** ** The false-negative loop *)

Section MissLoop.
Variable matched : gset Z.
Variable classes : list string.
Hypothesis classes_NoDup : NoDup classes.

Lemma unmatchedIndices_S i n :
  unmatchedIndices matched i (S n) =
  (if bool_decide (i ∈ matched) then [] else [i])
    ++ unmatchedIndices matched (i + 1) n.
Proof.
  unfold unmatchedIndices. rewrite seqZ_cons by lia.
  replace (Z.pred (Z.of_nat (S n))) with (Z.of_nat n) by lia.
  rewrite filter_cons. unfold Z.succ.
  case_bool_decide; case_decide; done.
Qed.

Lemma countMiss_matched (perClassData : gmap string ClassData.t) g i :
  i ∈ matched → countMiss matched perClassData g i = perClassData.
Proof. intros H. unfold countMiss. by rewrite bool_decide_true. Qed.

Lemma countMiss_unmatched (perClassData : gmap string ClassData.t) g i d :
  i ∉ matched →
  perClassData !! normalizeGtType (GroundTruthDefect.type g) = Some d →
  countMiss matched perClassData g i
  = <[normalizeGtType (GroundTruthDefect.type g) := incrFn d]> perClassData.
Proof.
  intros H Hd. unfold countMiss. rewrite bool_decide_false by done.
  simpl. by rewrite Hd.
Qed.

Lemma countMisses_spec l i (perClassData : gmap string ClassData.t) :
  (∀ g, g ∈ l → normalizeGtType (GroundTruthDefect.type g) ∈ classes) →
  (∀ c, c ∈ classes → is_Some (perClassData !! c)) →
  let perClassData' := forEachIndexed (countMiss matched) i l perClassData in
  (sumCount ClassData.fn perClassData' classes
   = sumCount ClassData.fn perClassData classes
     + length (unmatchedIndices matched i (length l)))%nat ∧
  (∀ c, is_Some (perClassData' !! c) ↔ is_Some (perClassData !! c)) ∧
  (∀ c, ClassData.tp <$> perClassData' !! c = ClassData.tp <$> perClassData !! c) ∧
  (∀ c, ClassData.fp <$> perClassData' !! c = ClassData.fp <$> perClassData !! c) ∧
  (∀ c, ClassData.iouSum <$> perClassData' !! c
        = ClassData.iouSum <$> perClassData !! c) ∧
  (∀ c, ClassData.totalGroundTruth <$> perClassData' !! c
        = ClassData.totalGroundTruth <$> perClassData !! c).
Proof.
  revert i perClassData. induction l as [|g l IH]; intros i pcd Hgt Hdom; cbv zeta.
  - simpl. unfold unmatchedIndices. simpl. split_and!; try done; lia.
  - rewrite forEachIndexed_cons. simpl length. rewrite unmatchedIndices_S.
    assert (∀ g', g' ∈ l → normalizeGtType (GroundTruthDefect.type g') ∈ classes)
      as Hgt' by (intros; apply Hgt; by right).
    destruct (decide (i ∈ matched)) as [Hm|Hm].
    + rewrite (countMiss_matched _ _ _ Hm), bool_decide_true by done.
      destruct (IH (i + 1)%Z pcd Hgt' Hdom) as (Hfn & Hd & Htp & Hfp & Hiou & Htot).
      split_and!; try done.
    + set (gtType := normalizeGtType (GroundTruthDefect.type g)).
      assert (gtType ∈ classes) as Hc by (apply Hgt; left).
      destruct (Hdom _ Hc) as [d Hd0].
      rewrite (countMiss_unmatched _ _ _ _ Hm Hd0), bool_decide_false by done.
      fold gtType.
      destruct (IH (i + 1)%Z (<[gtType := incrFn d]> pcd) Hgt')
        as (Hfn & Hd & Htp & Hfp & Hiou & Htot).
      { intros c Hcc. apply (is_Some_insert_present _ gtType d); [done|by apply Hdom]. }
      pose proof (sumCount_insert ClassData.fn _ _ _ _ (incrFn d)
                    classes_NoDup Hc Hd0) as Efn.
      assert (∀ {B} (f : ClassData.t → B) c, f (incrFn d) = f d →
                f <$> <[gtType := incrFn d]> pcd !! c = f <$> pcd !! c) as Hsame.
      { intros B f c Hf. destruct (decide (gtType = c)) as [<-|Hne].
        - rewrite lookup_insert_eq, Hd0. simpl. by rewrite Hf.
        - by rewrite lookup_insert_ne. }
      split_and!.
      * rewrite Hfn. simpl in *. lia.
      * intros c. rewrite Hd. by apply (is_Some_insert_present _ gtType d).
      * intros c. rewrite Htp. by apply Hsame.
      * intros c. rewrite Hfp. by apply Hsame.
      * intros c. rewrite Hiou. by apply Hsame.
      * intros c. rewrite Htot. by apply Hsame.
Qed.

Lemma sumCount_ext f (m1 m2 : gmap string ClassData.t) :
  (∀ c, f <$> m1 !! c = f <$> m2 !! c) → sumCount f m1 classes = sumCount f m2 classes.
Proof.
  intros H. unfold sumCount. f_equal. apply map_ext. intros c.
  unfold classCount. specialize (H c).
  destruct (m1 !! c), (m2 !! c); simpl in *; congruence.
Qed.

Lemma sumIou_ext (m1 m2 : gmap string ClassData.t) :
  (∀ c, ClassData.iouSum <$> m1 !! c = ClassData.iouSum <$> m2 !! c) →
  sumIou m1 classes = sumIou m2 classes.
Proof.
  intros H. unfold sumIou. f_equal. apply map_ext. intros c.
  specialize (H c).
  destruct (m1 !! c), (m2 !! c); simpl in *; congruence.
Qed.
End MissLoop.

(** Among [n] references, those consumed and those left over add up. *)
Lemma unmatched_plus_matched (idxs : list Z) (n : nat) :
  NoDup idxs → (∀ i, i ∈ idxs → (0 <= i < Z.of_nat n)%Z) →
  (length (unmatchedIndices (list_to_set idxs) 0 n) + length idxs = n)%nat.
Proof.
  intros Hnd Hrange. unfold unmatchedIndices.
  set (all := seqZ 0 (Z.of_nat n)).
  assert (length (filter (λ k, k ∉ (list_to_set idxs : gset Z)) all)
          + length (filter (λ k, k ∈ (list_to_set idxs : gset Z)) all)
          = length all)%nat as Hsplit.
  { induction all as [|x l IH]; [done|].
    rewrite !filter_cons. repeat case_decide; simpl; try lia; done. }
  assert (filter (λ k, k ∈ (list_to_set idxs : gset Z)) all ≡ₚ idxs) as Hp.
  { apply NoDup_Permutation; [apply NoDup_filter, NoDup_seqZ|done|].
    intros x. rewrite list_elem_of_filter, elem_of_list_to_set.
    unfold all. rewrite elem_of_seqZ. split; [by intros [? _]|].
    intros Hx. split; [done|]. apply Hrange in Hx. lia. }
  rewrite <- Hp. unfold all in *. rewrite length_seqZ in Hsplit. lia.
Qed.

(** ** [compareDetections] as a whole *)

Section Compare.
Variable aiDefects : list Defect.t.
Variable gtDefects : list GroundTruthDefect.t.
Variable iouThreshold : Q.

Local Abbreviation classes := (allClasses aiDefects gtDefects).
Local Abbreviation initial := (initialState aiDefects gtDefects).

Lemma initial_dom c : is_Some (perClassData initial !! c) ↔ c ∈ classes.
Proof.
  simpl. rewrite initPerClassData_lookup.
  case_bool_decide; split; try done; try (by intros [? ?]); eauto.
Qed.

Lemma initial_sumCount f :
  (∀ c, f (initClass gtDefects c) = 0%nat) →
  sumCount f (perClassData initial) classes = 0%nat.
Proof.
  intros Hf. unfold sumCount.
  assert (∀ c, classCount f (perClassData initial) c = 0%nat) as Hc.
  { intros c. unfold classCount. simpl. rewrite initPerClassData_lookup.
    case_bool_decide; simpl; [rewrite Hf|]; done. }
  set (g := classCount f (perClassData initial)) in *.
  generalize classes. intros l.
  induction l as [|c l IH]; [done|].
  change (sum_list (map g (c :: l))) with (g c + sum_list (map g l))%nat.
  by rewrite IH, Hc.
Qed.

Lemma initial_sumIou : sumIou (perClassData initial) classes == 0.
Proof.
  unfold sumIou.
  set (g := λ c, from_option ClassData.iouSum 0 (perClassData initial !! c)).
  assert (∀ c, g c == 0) as Hc.
  { intros c. unfold g. simpl. rewrite initPerClassData_lookup.
    by case_bool_decide. }
  generalize classes. intros l.
  induction l as [|c l IH]; [done|].
  change (Qsum (map g (c :: l))) with (g c + Qsum (map g l)).
  rewrite IH, Hc. ring.
Qed.

(** [compareDetections] always returns, and its result is determined by
    the run of the detection loop. *)
Lemma compareDetections_spec :
  let os := outcomes iouThreshold aiDefects gtDefects in
  ∃ st pcd r total,
    matchDetections iouThreshold aiDefects gtDefects = Some st ∧
    finalPerClassData aiDefects gtDefects iouThreshold = Some pcd ∧
    pcd = countMisses gtDefects st ∧
    compareDetections aiDefects gtDefects iouThreshold = Some r ∧
    length os = length aiDefects ∧
    matchedGtIndices st = list_to_set (matchedIndices os) ∧
    ValidationMetrics.matches r = length (matchedIndices os) ∧
    (ValidationMetrics.falsePositives r + ValidationMetrics.matches r
     = length aiDefects)%nat ∧
    ValidationMetrics.misses r
    = length (unmatchedIndices (matchedGtIndices st) 0 (length gtDefects)) ∧
    ValidationMetrics.matches r = sumCount ClassData.tp pcd classes ∧
    ValidationMetrics.falsePositives r = sumCount ClassData.fp pcd classes ∧
    ValidationMetrics.misses r = sumCount ClassData.fn pcd classes ∧
    total == Qsum (matchedIous os) ∧
    ValidationMetrics.averageIou r
    = (if (0 <? ValidationMetrics.matches r)%nat
       then total / QofNat (ValidationMetrics.matches r) else 0) ∧
    (let prf := calculatePrf (ValidationMetrics.matches r)
                  (ValidationMetrics.falsePositives r)
                  (ValidationMetrics.misses r) in
     ValidationMetrics.precision r = Prf.precision prf ∧
     ValidationMetrics.recall r = Prf.recall prf ∧
     ValidationMetrics.f1Score r = Prf.f1Score prf) ∧
    (∀ c, ValidationMetrics.perClassMetrics r !! c = metricsOf <$> pcd !! c) ∧
    (∀ c, is_Some (pcd !! c) ↔ c ∈ classes) ∧
    (∀ c, ClassData.tp <$> pcd !! c = ClassData.tp <$> perClassData st !! c) ∧
    (∀ c, ClassData.fp <$> pcd !! c = ClassData.fp <$> perClassData st !! c).
Proof.
  cbv zeta.
  pose proof (allClasses_NoDup aiDefects gtDefects) as Hnd. fold classes in Hnd.
  destruct (detectionLoop_counts iouThreshold gtDefects classes Hnd aiDefects initial)
    as (st & Hrun & Hlen & Htp & Hfp & Hfn & Hiou & Hm & Hdom).
  { intros a Ha. by apply allClasses_ai. }
  { intros c Hc. by apply initial_dom. }
  cbv zeta in *.
  change (outcomesFrom iouThreshold gtDefects initial aiDefects)
    with (outcomes iouThreshold aiDefects gtDefects) in *.
  rewrite !initial_sumCount in * by done.
  destruct (countMisses_spec (matchedGtIndices st) classes Hnd gtDefects 0
              (perClassData st))
    as (Mfn & Mdom & Mtp & Mfp & Miou & Mtot).
  { intros g Hg. by apply allClasses_gt. }
  { intros c Hc. by apply Hdom, initial_dom. }
  cbv zeta in *. fold (countMisses gtDefects st) in *.
  set (pcd := countMisses gtDefects st) in *.
  destruct (sumClasses_spec pcd classes) as (t & Ht & Ttp & Tfp & Tfn & Tiou & Tm).
  { intros c Hc. by apply Mdom, Hdom, initial_dom. }
  exists st, pcd, (report t), (totalIouSum t).
  assert (matchDetections iouThreshold aiDefects gtDefects = Some st) as Hmd
    by exact Hrun.
  assert (finalPerClassData aiDefects gtDefects iouThreshold = Some pcd) as Hfin
    by (unfold finalPerClassData; by rewrite Hmd).
  assert (compareDetections aiDefects gtDefects iouThreshold = Some (report t)) as Hcmp.
  { unfold compareDetections. rewrite Hfin. cbn [mbind option_bind].
    fold classes. by rewrite Ht. }
  rewrite (sumCount_ext classes ClassData.tp _ _ Mtp) in Ttp.
  rewrite (sumCount_ext classes ClassData.fp _ _ Mfp) in Tfp.
  rewrite (sumIou_ext classes _ _ Miou) in Tiou.
  split_and!; try done; simpl.
  - rewrite Hm. set_solver.
  - lia.
  - lia.
  - lia.
  - rewrite (sumCount_ext classes ClassData.tp _ _ Mtp). lia.
  - rewrite (sumCount_ext classes ClassData.fp _ _ Mfp). lia.
  - rewrite Tiou, Hiou, initial_sumIou. ring.
  - intros c. rewrite Tm. case_bool_decide as Hc; [done|].
    destruct (pcd !! c) eqn:E; [|done].
    exfalso. apply Hc, initial_dom, Hdom, Mdom. by rewrite E.
  - intros c. by rewrite Mdom, Hdom, initial_dom.
Qed.
End Compare.

(** ** Precision, recall and F1 *)

Section PrfFacts.
Lemma QofNat_pos n : (0 < n)%nat → 0 < QofNat n.
Proof.
  intros H. unfold QofNat. change 0 with (inject_Z 0).
  rewrite <- Zlt_Qlt. lia.
Qed.

Lemma ratio_pos a b : (0 < a)%nat → 0 < QofNat a / QofNat (a + b).
Proof.
  intros Ha. apply Qlt_shift_div_l; [apply QofNat_pos; lia|].
  pose proof (QofNat_pos a Ha). lra.
Qed.

Lemma harmonic_mean_eq p r :
  0 < p → 0 < r → 2 * (p * r) / (p + r) == 2 / (/ p + / r).
Proof. intros Hp Hr. field. split_and!; lra. Qed.

(** [calculatePrf] computes the three formulas of the specification. *)
Lemma calculatePrf_spec tp fp fn :
  let prf := calculatePrf tp fp fn in
  Prf.precision prf = ratioOrZero tp fp ∧
  Prf.recall prf = ratioOrZero tp fn ∧
  Prf.f1Score prf == harmonicMeanOrZero (Prf.precision prf) (Prf.recall prf).
Proof.
  cbv zeta.
  assert (∀ a b, (if (0 <? a + b)%nat then QofNat a / QofNat (a + b) else 0)
                 = ratioOrZero a b) as Hratio.
  { intros a b. unfold ratioOrZero.
    destruct (Nat.ltb_spec 0 (a + b)); case_decide; try done; lia. }
  unfold calculatePrf; cbv zeta; simpl. rewrite !Hratio.
  split; [done|]. split; [done|].
  unfold harmonicMeanOrZero, ratioOrZero.
  destruct tp as [|tp].
  - assert (∀ b, (if decide (0 + b = 0)%nat then 0 else QofNat 0 / QofNat (0 + b)) == 0)
      as Hz by (intros b; case_decide; [done|]; unfold QofNat; simpl; field;
                intros E; pose proof (QofNat_pos b ltac:(lia)) as Hb;
                unfold QofNat in Hb; lra).
    pose proof (Hz fp) as Hp. pose proof (Hz fn) as Hr.
    destruct (Qltb_spec 0
                ((if decide (0 + fp = 0)%nat then 0 else QofNat 0 / QofNat (0 + fp))
                 + (if decide (0 + fn = 0)%nat then 0 else QofNat 0 / QofNat (0 + fn))));
      [lra|].
    rewrite (proj2 (Qeq_bool_iff _ _) Hp), (proj2 (Qeq_bool_iff _ _) Hr). done.
  - repeat case_decide; try lia.
    pose proof (ratio_pos (S tp) fp ltac:(lia)) as Hp.
    pose proof (ratio_pos (S tp) fn ltac:(lia)) as Hr.
    destruct (Qltb_spec 0 (QofNat (S tp) / QofNat (S tp + fp)
                           + QofNat (S tp) / QofNat (S tp + fn))); [|lra].
    destruct (Qeq_bool _ 0) eqn:E.
    { apply Qeq_bool_iff in E. lra. }
    simpl. by apply harmonic_mean_eq.
Qed.
End PrfFacts.

Lemma matchedIous_length os : length (matchedIous os) = length (matchedIndices os).
Proof.
  induction os as [|[i iou|] os IH]; [done| |done].
  rewrite matchedIndices_cons_tp, matchedIous_cons_tp. simpl. by rewrite IH.
Qed.

(** C4. [compareDetections] returns, and in its result: every class carries
    the counters of its accumulator together with precision
    [tp / (tp + fp)], recall [tp / (tp + fn)] (each 0 on a zero denominator)
    and their harmonic mean as F1 (0 when both are 0); the totals are the
    sums of the counters over the classes, with precision, recall and F1 by
    the same formulas; and the average IoU is the sum of the IoUs recorded
    for the matches divided by the number of matches, 0 when there is
    none. *)
Theorem compareDetections_metrics_formulas
    (aiDefects : list Defect.t) (gtDefects : list GroundTruthDefect.t)
    (iouThreshold : Q) :
  ∃ pcd r,
    finalPerClassData aiDefects gtDefects iouThreshold = Some pcd ∧
    compareDetections aiDefects gtDefects iouThreshold = Some r ∧
    (∀ c, match pcd !! c, ValidationMetrics.perClassMetrics r !! c with
          | Some d, Some m =>
              ClassMetrics.tp m = ClassData.tp d ∧
              ClassMetrics.fp m = ClassData.fp d ∧
              ClassMetrics.fn m = ClassData.fn d ∧
              ClassMetrics.totalGroundTruth m = ClassData.totalGroundTruth d ∧
              ClassMetrics.precision m
                = ratioOrZero (ClassData.tp d) (ClassData.fp d) ∧
              ClassMetrics.recall m
                = ratioOrZero (ClassData.tp d) (ClassData.fn d) ∧
              ClassMetrics.f1Score m
                == harmonicMeanOrZero (ClassMetrics.precision m) (ClassMetrics.recall m)
          | None, None => True
          | _, _ => False
          end) ∧
    ValidationMetrics.matches r
      = sumCount ClassData.tp pcd (allClasses aiDefects gtDefects) ∧
    ValidationMetrics.falsePositives r
      = sumCount ClassData.fp pcd (allClasses aiDefects gtDefects) ∧
    ValidationMetrics.misses r
      = sumCount ClassData.fn pcd (allClasses aiDefects gtDefects) ∧
    ValidationMetrics.precision r
      = ratioOrZero (ValidationMetrics.matches r) (ValidationMetrics.falsePositives r) ∧
    ValidationMetrics.recall r
      = ratioOrZero (ValidationMetrics.matches r) (ValidationMetrics.misses r) ∧
    ValidationMetrics.f1Score r
      == harmonicMeanOrZero (ValidationMetrics.precision r) (ValidationMetrics.recall r) ∧
    ValidationMetrics.matches r
      = length (matchedIous (outcomes iouThreshold aiDefects gtDefects)) ∧
    ValidationMetrics.averageIou r
      == (if decide (ValidationMetrics.matches r = 0)%nat then 0
          else Qsum (matchedIous (outcomes iouThreshold aiDefects gtDefects))
               / QofNat (ValidationMetrics.matches r)).
Proof.
  destruct (compareDetections_spec aiDefects gtDefects iouThreshold)
    as (st & pcd & r & total & _ & Hfin & _ & Hcmp & _ & _ & Hmatches & _ & _
        & Htp & Hfp & Hfn & Htotal & Havg & (Hp & Hr & Hf) & Hm & _).
  exists pcd, r. split; [done|]. split; [done|].
  pose proof (calculatePrf_spec (ValidationMetrics.matches r)
                (ValidationMetrics.falsePositives r) (ValidationMetrics.misses r))
    as (Pp & Pr & Pf).
  cbv zeta in *. split_and!; try done.
  - intros c. rewrite Hm. destruct (pcd !! c) as [d|]; [|done]. simpl.
    pose proof (calculatePrf_spec (ClassData.tp d) (ClassData.fp d) (ClassData.fn d))
      as (Cp & Cr & Cf).
    by split_and!.
  - by rewrite Hp.
  - by rewrite Hr.
  - by rewrite Hf, Hp, Hr.
  - rewrite Hmatches. symmetry. apply matchedIous_length.
  - rewrite Havg. destruct (Nat.ltb_spec 0 (ValidationMetrics.matches r));
      case_decide; try lia; [|done].
    by rewrite Htotal.
Qed.

(** C10. With a non-negative threshold, the result counts every detection
    once, as a match or a false positive, and every reference once, as a
    match or a miss. *)
Theorem compareDetections_count_conservation
    (aiDefects : list Defect.t) (gtDefects : list GroundTruthDefect.t)
    (iouThreshold : Q) :
  0 <= iouThreshold →
  ∃ r, compareDetections aiDefects gtDefects iouThreshold = Some r ∧
       (ValidationMetrics.matches r + ValidationMetrics.falsePositives r
        = length aiDefects)%nat ∧
       (ValidationMetrics.matches r + ValidationMetrics.misses r
        = length gtDefects)%nat.
Proof.
  intros Hthr.
  destruct (compareDetections_spec aiDefects gtDefects iouThreshold)
    as (st & pcd & r & total & _ & _ & _ & Hcmp & _ & Hst & Hmatches & Hfp & Hmiss & _).
  exists r. split; [done|]. split; [lia|].
  destruct (outcomesFrom_one_to_one iouThreshold gtDefects Hthr aiDefects
              (initialState aiDefects gtDefects)) as [Hnd Hrange].
  fold (outcomes iouThreshold aiDefects gtDefects) in Hnd, Hrange.
  rewrite Hmiss, Hst, Hmatches.
  pose proof (unmatched_plus_matched _ (length gtDefects) Hnd) as H.
  rewrite Nat.add_comm. apply H. intros i Hi. by apply Hrange.
Qed.

Lemma compareDetections_count_conservation_witness :
  ∃ r, compareDetections
         [Defect.mk "Pothole" (BoundingBox.mk (1#10) (1#10) (3#10) (3#10));
          Defect.mk "Rutting" (BoundingBox.mk (1#2) (1#2) 1 1)]
         [GroundTruthDefect.mk "pothole" (BoundingBox.mk (1#10) (1#10) (3#10) (3#10));
          GroundTruthDefect.mk "crack" (BoundingBox.mk 0 0 (1#10) (1#10))]
         defaultIouThreshold = Some r ∧
       (ValidationMetrics.matches r + ValidationMetrics.falsePositives r = 2)%nat ∧
       (ValidationMetrics.matches r + ValidationMetrics.misses r = 2)%nat.
Proof.
  apply (compareDetections_count_conservation
           [Defect.mk "Pothole" (BoundingBox.mk (1#10) (1#10) (3#10) (3#10));
            Defect.mk "Rutting" (BoundingBox.mk (1#2) (1#2) 1 1)]
           [GroundTruthDefect.mk "pothole" (BoundingBox.mk (1#10) (1#10) (3#10) (3#10));
            GroundTruthDefect.mk "crack" (BoundingBox.mk 0 0 (1#10) (1#10))]).
  vm_compute. discriminate.
Defined.

(** C5. With no detection at all, every class has [tp = 0] and [fp = 0],
    the misses are all the references, and the average IoU, precision,
    recall and F1 are 0; the result is that of the general computation. *)
Theorem compareDetections_no_detections
    (gtDefects : list GroundTruthDefect.t) (iouThreshold : Q) :
  gtDefects ≠ [] →
  ∃ r, compareDetections [] gtDefects iouThreshold = Some r ∧
       (∀ c m, ValidationMetrics.perClassMetrics r !! c = Some m →
               ClassMetrics.tp m = 0%nat ∧ ClassMetrics.fp m = 0%nat) ∧
       ValidationMetrics.matches r = 0%nat ∧
       ValidationMetrics.falsePositives r = 0%nat ∧
       ValidationMetrics.misses r = length gtDefects ∧
       ValidationMetrics.averageIou r == 0 ∧
       ValidationMetrics.precision r == 0 ∧
       ValidationMetrics.recall r == 0 ∧
       ValidationMetrics.f1Score r == 0.
Proof.
  intros _.
  destruct (compareDetections_spec [] gtDefects iouThreshold)
    as (st & pcd & r & total & Hst & _ & _ & Hcmp & _ & Hm & Hmatches & Hfp & Hmiss
        & _ & _ & _ & _ & Havg & (Hp & Hr & Hf) & Hcls & _ & Htp0 & Hfp0).
  injection Hst as <-.
  change (outcomes iouThreshold [] gtDefects) with (@nil Outcome) in *.
  simpl in Hmatches, Hfp, Hm.
  assert (ValidationMetrics.falsePositives r = 0%nat) as Hfp' by lia.
  assert (ValidationMetrics.misses r = length gtDefects) as Hmiss'.
  { rewrite Hmiss. simpl matchedGtIndices.
    pose proof (unmatched_plus_matched [] (length gtDefects) (NoDup_nil_2)) as H.
    simpl in H. rewrite Nat.add_0_r in H. apply H.
    intros i Hi. by apply elem_of_nil in Hi. }
  exists r. split; [done|].
  rewrite Hmatches, Hfp', Hmiss' in *. cbv zeta in *.
  pose proof (calculatePrf_spec 0 0 (length gtDefects)) as (Pp & Pr & Pf).
  cbv zeta in Pp, Pr, Pf.
  assert (ratioOrZero 0 (length gtDefects) == 0) as Hzero.
  { unfold ratioOrZero. case_decide; [done|]. unfold QofNat at 1. simpl.
    unfold Qdiv. ring. }
  split_and!; try done.
  - intros c m Hc. rewrite Hcls in Hc.
    specialize (Htp0 c). specialize (Hfp0 c). simpl in Htp0, Hfp0.
    rewrite initPerClassData_lookup in Htp0, Hfp0.
    destruct (pcd !! c) as [d|]; [|done]. simpl in Hc. injection Hc as <-. simpl.
    case_bool_decide; simpl in *; [|done].
    injection Htp0 as ->. injection Hfp0 as ->. done.
  - by rewrite Havg.
  - rewrite Hp, Pp. done.
  - by rewrite Hr, Pr.
  - rewrite Hf, Pf, Pp, Pr. unfold harmonicMeanOrZero.
    rewrite (proj2 (Qeq_bool_iff _ _) Hzero). done.
Qed.

Lemma compareDetections_no_detections_witness :
  ∃ r, compareDetections []
         [GroundTruthDefect.mk "pothole" (BoundingBox.mk (1#10) (1#10) (3#10) (3#10))]
         defaultIouThreshold = Some r ∧
       ValidationMetrics.misses r = 1%nat ∧
       ValidationMetrics.recall r == 0.
Proof.
  destruct (compareDetections_no_detections
              [GroundTruthDefect.mk "pothole"
                 (BoundingBox.mk (1#10) (1#10) (3#10) (3#10))]
              defaultIouThreshold) as (r & Hr & _ & _ & _ & Hmiss & _ & _ & Hrec & _).
  - discriminate.
  - exists r. by split_and!.
Defined.

Section SingleReference.
Variables (iouThreshold : Q) (ref : GroundTruthDefect.t).

Lemma findBestMatch_single_free matched aiDefect :
  0%Z ∉ matched →
  normalizeGtType (GroundTruthDefect.type ref)
    = normalizeAiType (Defect.type aiDefect) →
  -1 < calculateIou (Defect.boundingBox aiDefect) (GroundTruthDefect.boundingBox ref) →
  findBestMatch matched [ref] aiDefect
  = BestMatch.mk (calculateIou (Defect.boundingBox aiDefect)
                               (GroundTruthDefect.boundingBox ref)) 0.
Proof.
  intros Hfree Hty Hiou. unfold findBestMatch; cbv zeta.
  rewrite forEachIndexed_cons. cbn [forEachIndexed].
  unfold bestMatchStep; cbv zeta.
  rewrite bool_decide_false, bool_decide_true by done. simpl.
  by destruct (Qltb_spec (-1) (calculateIou (Defect.boundingBox aiDefect)
                                            (GroundTruthDefect.boundingBox ref))).
Qed.

Lemma findBestMatch_single_consumed matched aiDefect :
  0%Z ∈ matched →
  findBestMatch matched [ref] aiDefect = BestMatch.mk (-1) (-1).
Proof.
  intros Hin. unfold findBestMatch; cbv zeta.
  rewrite forEachIndexed_cons. cbn [forEachIndexed].
  unfold bestMatchStep; cbv zeta.
  by rewrite bool_decide_true.
Qed.
End SingleReference.

(** C1. With a non-negative threshold no reference is matched twice: the
    reference indices recorded for the true positives are pairwise distinct,
    each true positive is backed by a reference of its class with the
    recorded IoU, and the number of matches is the number of those indices.
    With one reference and two detections of its class that both reach the
    threshold against it, the first detection is the true positive and the
    second a false positive. *)
Theorem compareDetections_one_to_one :
  (∀ aiDefects gtDefects iouThreshold,
     0 <= iouThreshold →
     NoDup (matchedIndices (outcomes iouThreshold aiDefects gtDefects)) ∧
     Forall2 (justified iouThreshold gtDefects) aiDefects
             (outcomes iouThreshold aiDefects gtDefects) ∧
     ∃ r, compareDetections aiDefects gtDefects iouThreshold = Some r ∧
          ValidationMetrics.matches r
          = length (matchedIndices (outcomes iouThreshold aiDefects gtDefects))) ∧
  (∀ d1 d2 ref iouThreshold,
     0 <= iouThreshold →
     normalizeAiType (Defect.type d1) = normalizeGtType (GroundTruthDefect.type ref) →
     normalizeAiType (Defect.type d2) = normalizeGtType (GroundTruthDefect.type ref) →
     iouThreshold <= calculateIou (Defect.boundingBox d1)
                                  (GroundTruthDefect.boundingBox ref) →
     iouThreshold <= calculateIou (Defect.boundingBox d2)
                                  (GroundTruthDefect.boundingBox ref) →
     outcomes iouThreshold [d1; d2] [ref]
     = [TruePositive 0 (calculateIou (Defect.boundingBox d1)
                                     (GroundTruthDefect.boundingBox ref));
        FalsePositive] ∧
     ∃ r, compareDetections [d1; d2] [ref] iouThreshold = Some r ∧
          ValidationMetrics.matches r = 1%nat ∧
          ValidationMetrics.falsePositives r = 1%nat ∧
          ValidationMetrics.misses r = 0%nat).
Proof.
  split.
  - intros aiDefects gtDefects iouThreshold Hthr.
    destruct (compareDetections_spec aiDefects gtDefects iouThreshold)
      as (st & pcd & r & total & _ & _ & _ & Hcmp & Hlen & _ & Hmatches & _).
    split_and!.
    + apply (outcomesFrom_one_to_one iouThreshold gtDefects Hthr).
    + apply Forall2_same_length_lookup_2; [done|].
      intros n a o Ha Ho.
      unfold outcomes in Ho.
      by eapply (outcomesFrom_justified iouThreshold gtDefects Hthr aiDefects).
    + by exists r.
  - intros d1 d2 ref iouThreshold Hthr Ht1 Ht2 Hi1 Hi2.
    assert (outcomes iouThreshold [d1; d2] [ref]
            = [TruePositive 0 (calculateIou (Defect.boundingBox d1)
                                            (GroundTruthDefect.boundingBox ref));
               FalsePositive]) as Hos.
    { unfold outcomes.
      set (st0 := initialState [d1; d2] [ref]).
      assert (is_Some (perClassData st0 !! normalizeAiType (Defect.type d1))) as [d Hd].
      { apply initial_dom. apply allClasses_ai. left. }
      pose proof (processDetection_spec iouThreshold [ref] st0 d1 d Hd) as Hstep.
      rewrite outcomesFrom_cons.
      assert (outcomeOf iouThreshold [ref] st0 d1
              = TruePositive 0 (calculateIou (Defect.boundingBox d1)
                                             (GroundTruthDefect.boundingBox ref))) as Ho1.
      { unfold outcomeOf; cbv zeta.
        rewrite findBestMatch_single_free; [|set_solver|done|lra]. simpl.
        by destruct (Qleb_spec iouThreshold
                       (calculateIou (Defect.boundingBox d1)
                                     (GroundTruthDefect.boundingBox ref))). }
      rewrite Ho1 in Hstep |- *. rewrite Hstep. f_equal.
      rewrite outcomesFrom_cons.
      assert (∀ st, (0:Z) ∈ matchedGtIndices st →
                    outcomeOf iouThreshold [ref] st d2 = FalsePositive) as Ho2.
      { intros st Hst. unfold outcomeOf; cbv zeta.
        rewrite findBestMatch_single_consumed by done. simpl.
        destruct (Qleb_spec iouThreshold (-1)); [lra|done]. }
      rewrite Ho2; [|simpl; set_solver]. f_equal.
      match goal with |- match ?p with _ => _ end = _ => destruct p end;
        reflexivity. }
    split; [done|].
    destruct (compareDetections_spec [d1; d2] [ref] iouThreshold)
      as (st & pcd & r & total & _ & _ & _ & Hcmp & _ & Hst & Hmatches & Hfp & Hmiss & _).
    rewrite Hos in Hmatches, Hst. simpl in Hmatches, Hfp, Hst.
    exists r. split_and!; [done|done|lia|].
    rewrite Hmiss, Hst.
    pose proof (unmatched_plus_matched [0%Z] 1) as H. simpl in H.
    assert (length (unmatchedIndices (list_to_set [0%Z]) 0 1) + 1 = 1)%nat as H'.
    { apply H; [apply NoDup_singleton|].
      intros i Hi. apply list_elem_of_singleton in Hi. lia. }
    simpl in H'. change (length [ref]) with 1%nat. lia.
Qed.

Lemma compareDetections_one_to_one_witness :
  outcomes defaultIouThreshold
    [Defect.mk "Pothole" (BoundingBox.mk (1#10) (1#10) (3#10) (3#10));
     Defect.mk "Pothole" (BoundingBox.mk (1#10) (1#10) (3#10) (4#10))]
    [GroundTruthDefect.mk "pothole" (BoundingBox.mk (1#10) (1#10) (3#10) (3#10))]
  = [TruePositive 0
       (calculateIou (BoundingBox.mk (1#10) (1#10) (3#10) (3#10))
                     (BoundingBox.mk (1#10) (1#10) (3#10) (3#10)));
     FalsePositive].
Proof.
  apply (proj2 compareDetections_one_to_one
           (Defect.mk "Pothole" (BoundingBox.mk (1#10) (1#10) (3#10) (3#10)))
           (Defect.mk "Pothole" (BoundingBox.mk (1#10) (1#10) (3#10) (4#10)))
           (GroundTruthDefect.mk "pothole" (BoundingBox.mk (1#10) (1#10) (3#10) (3#10)))
           defaultIouThreshold).
  - vm_compute. discriminate.
  - reflexivity.
  - reflexivity.
  - vm_compute. discriminate.
  - vm_compute. discriminate.
Defined.

(** * The arithmetic of doubles *)

Section SFOrder.
Import SpecFloat.
Local Open Scope Z_scope.

Lemma SFcompare_key x y :
  x ≠ S754_nan → y ≠ S754_nan → SFcompare x y = Some (lex3 (SFkey x) (SFkey y)).
Proof.
  intros Hx Hy.
  destruct x as [sx|sx| |sx mx ex], y as [sy|sy| |sy my ey]; try done;
    try (by destruct sx); try (by destruct sy); try (by destruct sx, sy).
  destruct sx, sy; try done; unfold lex3; simpl.
  rewrite Z.compare_opp, (Z.compare_antisym ex ey).
  by destruct (ex ?= ey).
Qed.

Lemma SF_nan_dec s : s = S754_nan ∨ s ≠ S754_nan.
Proof. destruct s; auto. Qed.

(** Order on keys, as propositions [lia] understands. *)
Lemma lex3_Lt a b :
  lex3 a b = Lt ↔
  a.1.1 < b.1.1 ∨ (a.1.1 = b.1.1 ∧ (a.1.2 < b.1.2 ∨ (a.1.2 = b.1.2 ∧ a.2 < b.2))).
Proof.
  unfold lex3.
  destruct (Z.compare_spec a.1.1 b.1.1), (Z.compare_spec a.1.2 b.1.2),
    (Z.compare_spec a.2 b.2); split; (done || lia).
Qed.

Lemma lex3_Gt a b :
  lex3 a b = Gt ↔
  b.1.1 < a.1.1 ∨ (a.1.1 = b.1.1 ∧ (b.1.2 < a.1.2 ∨ (a.1.2 = b.1.2 ∧ b.2 < a.2))).
Proof.
  unfold lex3.
  destruct (Z.compare_spec a.1.1 b.1.1), (Z.compare_spec a.1.2 b.1.2),
    (Z.compare_spec a.2 b.2); split; (done || lia).
Qed.

Lemma lex3_Eq a b :
  lex3 a b = Eq ↔ a.1.1 = b.1.1 ∧ a.1.2 = b.1.2 ∧ a.2 = b.2.
Proof.
  unfold lex3.
  destruct (Z.compare_spec a.1.1 b.1.1), (Z.compare_spec a.1.2 b.1.2),
    (Z.compare_spec a.2 b.2); split; (done || lia).
Qed.
End SFOrder.

(** ** Comparisons of doubles *)

Section FloatOrder.
Import PrimFloat FloatOps FloatAxioms SpecFloat.
Local Open Scope Z_scope.
Local Open Scope float_scope.

Lemma is_nan_spec x : is_nan x = true ↔ Prim2SF x = S754_nan.
Proof.
  unfold is_nan. rewrite eqb_spec. unfold SFeqb.
  destruct (SF_nan_dec (Prim2SF x)) as [Hx|Hx].
  - by rewrite Hx.
  - rewrite SFcompare_key by done.
    assert (lex3 (SFkey (Prim2SF x)) (SFkey (Prim2SF x)) = Eq) as ->
      by (by apply lex3_Eq).
    naive_solver.
Qed.

Lemma is_nan_false x : is_nan x = false ↔ Prim2SF x ≠ S754_nan.
Proof. rewrite <- is_nan_spec. by destruct (is_nan x). Qed.

Lemma ltb_flt x y :
  (x <? y) = true ↔ is_nan x = false ∧ is_nan y = false ∧ flt x y.
Proof.
  rewrite ltb_spec, !is_nan_false. unfold SFltb, flt, fkey.
  destruct (SF_nan_dec (Prim2SF x)) as [Hx|Hx].
  { rewrite Hx. simpl. naive_solver. }
  destruct (SF_nan_dec (Prim2SF y)) as [Hy|Hy].
  { rewrite Hy. destruct (Prim2SF x); simpl; naive_solver. }
  rewrite SFcompare_key by done. rewrite <- lex3_Lt.
  destruct (lex3 _ _); naive_solver.
Qed.

Lemma leb_fle x y :
  (x <=? y) = true ↔ is_nan x = false ∧ is_nan y = false ∧ (flt x y ∨ feq x y).
Proof.
  rewrite leb_spec, !is_nan_false. unfold SFleb, flt, feq, fkey.
  destruct (SF_nan_dec (Prim2SF x)) as [Hx|Hx].
  { rewrite Hx. simpl. naive_solver. }
  destruct (SF_nan_dec (Prim2SF y)) as [Hy|Hy].
  { rewrite Hy. destruct (Prim2SF x); simpl; naive_solver. }
  rewrite SFcompare_key by done. rewrite <- lex3_Lt, <- lex3_Eq.
  destruct (lex3 _ _); naive_solver.
Qed.

Lemma eqb_feq x y :
  (x =? y) = true ↔ is_nan x = false ∧ is_nan y = false ∧ feq x y.
Proof.
  rewrite eqb_spec, !is_nan_false. unfold SFeqb, feq, fkey.
  destruct (SF_nan_dec (Prim2SF x)) as [Hx|Hx].
  { rewrite Hx. simpl. naive_solver. }
  destruct (SF_nan_dec (Prim2SF y)) as [Hy|Hy].
  { rewrite Hy. destruct (Prim2SF x); simpl; naive_solver. }
  rewrite SFcompare_key by done. rewrite <- lex3_Eq.
  destruct (lex3 _ _); naive_solver.
Qed.

Lemma ltb_false x y :
  is_nan x = false → is_nan y = false →
  (x <? y) = false ↔ (flt y x ∨ feq x y).
Proof.
  intros Hx Hy. pose proof (ltb_flt x y) as H.
  destruct (x <? y).
  - split; [done|]. intros H'. destruct H as [H _]. specialize (H eq_refl).
    unfold flt, feq in *. lia.
  - split; [|done]. intros _.
    assert (¬ flt x y) as Hn.
    { intros Hf. destruct H as [_ H]. by specialize (H (conj Hx (conj Hy Hf))). }
    unfold flt, feq in *. lia.
Qed.
End FloatOrder.

(** ** The sign of a difference *)

Section SFSub.
Import SpecFloat FloatOps.
Local Open Scope Z_scope.

Lemma digits2_pos_bounds m :
  2 ^ (Z.pos (digits2_pos m) - 1) <= Z.pos m < 2 ^ Z.pos (digits2_pos m).
Proof.
  induction m as [p IH|p IH|]; simpl digits2_pos.
  - rewrite Pos2Z.inj_succ, Z.pow_succ_r by lia.
    replace (Z.succ (Z.pos (digits2_pos p)) - 1) with (Z.succ (Z.pos (digits2_pos p) - 1)) by lia.
    rewrite Z.pow_succ_r by lia. lia.
  - rewrite Pos2Z.inj_succ, Z.pow_succ_r by lia.
    replace (Z.succ (Z.pos (digits2_pos p)) - 1) with (Z.succ (Z.pos (digits2_pos p) - 1)) by lia.
    rewrite Z.pow_succ_r by lia. lia.
  - simpl. lia.
Qed.

Lemma valid_finite_inv s m e :
  valid_binary prec emax (S754_finite s m e) = true →
  -1074 <= e ∧ Z.pos (digits2_pos m) <= 53 ∧ (-1074 < e → Z.pos (digits2_pos m) = 53).
Proof.
  unfold valid_binary, bounded, canonical_mantissa, fexp, SpecFloat.emin, prec, emax.
  intros H. apply andb_prop in H as [H _]. apply Z.eqb_eq in H. lia.
Qed.

Lemma iter_xO_value m d : Z.pos (Pos.iter xO m d) = Z.pos m * 2 ^ Z.pos d.
Proof.
  induction d as [|d IH] using Pos.peano_ind.
  - simpl. lia.
  - rewrite Pos.iter_succ, Pos2Z.inj_xO, IH, Pos2Z.inj_succ, Z.pow_succ_r by lia. lia.
Qed.

Lemma shl_align_value m e ez :
  ez <= e → Z.pos (fst (shl_align m e ez)) = Z.pos m * 2 ^ (e - ez).
Proof.
  intros Hle. unfold shl_align. destruct (ez - e) as [|d|d] eqn:E; simpl fst.
  - replace (e - ez) with 0 by lia. simpl. lia.
  - lia.
  - rewrite iter_xO_value. replace (e - ez) with (Z.pos d) by lia. done.
Qed.

(** Among valid binary64 numbers, a smaller exponent means a smaller
    magnitude. *)
Lemma valid_exponent_lt m1 e1 m2 e2 s1 s2 :
  valid_binary prec emax (S754_finite s1 m1 e1) = true →
  valid_binary prec emax (S754_finite s2 m2 e2) = true →
  e1 < e2 → Z.pos m1 < Z.pos m2 * 2 ^ (e2 - e1).
Proof.
  intros H1 H2 Hlt.
  apply valid_finite_inv in H1 as (Hmin1 & Hd1 & _), H2 as (_ & _ & Hd2).
  specialize (Hd2 ltac:(lia)).
  pose proof (digits2_pos_bounds m1) as [_ Hm1].
  pose proof (digits2_pos_bounds m2) as [Hm2 _].
  rewrite Hd2 in Hm2.
  assert (2 ^ Z.pos (digits2_pos m1) <= 2 ^ 53) by (apply Z.pow_le_mono_r; lia).
  assert (2 ^ 1 <= 2 ^ (e2 - e1)) by (apply Z.pow_le_mono_r; lia).
  change (2 ^ (53 - 1)) with 4503599627370496 in Hm2.
  change (2 ^ 53) with 9007199254740992 in *.
  change (2 ^ 1) with 2 in *. nia.
Qed.

Lemma iter_pos_inv {A} (P : A → Prop) (f : A → A) :
  (∀ x, P x → P (f x)) → ∀ n x, P x → P (iter_pos f n x).
Proof.
  intros Hf. induction n as [n IH|n IH|]; intros x Hx; simpl; auto.
Qed.

Lemma shr_1_nonneg mrs : 0 <= shr_m mrs → 0 <= shr_m (shr_1 mrs).
Proof. destruct mrs as [[|[p|p|]|[p|p|]] r s]; simpl; lia. Qed.

Lemma shr_fexp_nonneg m e l :
  0 <= m → 0 <= shr_m (fst (shr_fexp prec emax m e l)).
Proof.
  intros Hm. unfold shr_fexp, shr.
  assert (0 <= shr_m (shr_record_of_loc m l)) as H0
    by (by destruct l as [|[]]).
  destruct (fexp prec emax (Zdigits2 m + e) - e); simpl fst; try done.
  by apply (iter_pos_inv (λ mrs, 0 <= shr_m mrs)); [apply shr_1_nonneg|].
Qed.

Lemma round_nearest_even_nonneg mx lx : 0 <= mx → 0 <= round_nearest_even mx lx.
Proof. intros H. destruct lx as [|[]]; simpl; try done; [destruct (Z.even mx)|]; lia. Qed.

Lemma binary_round_aux_sign s mx ex lx :
  0 <= mx → hasSign s (binary_round_aux prec emax s mx ex lx).
Proof.
  intros Hm. unfold binary_round_aux.
  pose proof (shr_fexp_nonneg mx ex lx Hm) as H1.
  destruct (shr_fexp prec emax mx ex lx) as [mrs' e']. simpl fst in H1.
  pose proof (shr_fexp_nonneg _ e' loc_Exact
                (round_nearest_even_nonneg _ (loc_of_shr_record mrs') H1)) as H2.
  destruct (shr_fexp prec emax _ e' loc_Exact) as [mrs'' e'']. simpl fst in H2.
  destruct (shr_m mrs''); [done| |lia].
  by destruct (_ <=? _).
Qed.

Lemma binary_normalize_nonpos m e :
  m <= 0 → SFleb (binary_normalize prec emax m e false) (S754_zero false) = true.
Proof.
  intros Hm. destruct m as [|p|p]; [done|lia|].
  unfold binary_normalize, binary_round.
  destruct (shl_align _ _ _) as [mz ez].
  pose proof (binary_round_aux_sign true (Z.pos mz) ez loc_Exact ltac:(lia)) as H.
  by destruct (binary_round_aux _ _ _ _ _ _) as [[]|[]| |[] ? ?].
Qed.

Lemma binary_normalize_nonneg m e :
  0 <= m → SFleb (S754_zero false) (binary_normalize prec emax m e false) = true.
Proof.
  intros Hm. destruct m as [|p|p]; [done| |lia].
  unfold binary_normalize, binary_round.
  destruct (shl_align _ _ _) as [mz ez].
  pose proof (binary_round_aux_sign false (Z.pos mz) ez loc_Exact ltac:(lia)) as H.
  by destruct (binary_round_aux _ _ _ _ _ _) as [[]|[]| |[] ? ?].
Qed.


Lemma shr_1_pow k mrs :
  0 <= k → 2 ^ (k + 1) <= shr_m mrs → 2 ^ k <= shr_m (shr_1 mrs).
Proof.
  intros Hk H. rewrite Z.pow_add_r in H by lia. change (2 ^ 1) with 2 in H.
  assert (0 < 2 ^ k) by (apply Z.pow_pos_nonneg; lia).
  destruct mrs as [[|[p|p|]|[p|p|]] r s]; simpl in *; lia.
Qed.

Lemma iter_shr_1_pow n :
  ∀ k mrs, 0 <= k → 2 ^ (k + Z.pos n) <= shr_m mrs →
           2 ^ k <= shr_m (iter_pos shr_1 n mrs).
Proof.
  induction n as [n IH|n IH|]; intros k mrs Hk H; simpl.
  - apply IH; [done|]. apply IH; [lia|]. apply shr_1_pow; [lia|].
    by replace (k + Z.pos n + Z.pos n + 1) with (k + Z.pos n~1) by lia.
  - apply IH; [done|]. apply IH; [lia|].
    by replace (k + Z.pos n + Z.pos n) with (k + Z.pos n~0) by lia.
  - by apply shr_1_pow.
Qed.

(** Above the least exponent a shift to the format never loses the whole
    mantissa. *)
Lemma shr_fexp_pos m e l :
  0 < m → -1074 <= e →
  0 < shr_m (fst (shr_fexp prec emax m e l)) ∧ -1074 <= snd (shr_fexp prec emax m e l).
Proof.
  intros Hm He. unfold shr_fexp, shr.
  assert (shr_m (shr_record_of_loc m l) = m) as Hrec by (by destruct l as [|[]]).
  destruct m as [|p|p]; try lia. simpl Zdigits2.
  pose proof (digits2_pos_bounds p) as [Hlo _].
  destruct (fexp prec emax (Z.pos (digits2_pos p) + e) - e) as [|n|n] eqn:E;
    simpl fst; simpl snd.
  - rewrite Hrec. lia.
  - unfold fexp, SpecFloat.emin, prec, emax in E. split; [|lia].
    apply Z.lt_le_trans with (2 ^ 0); [done|].
    apply iter_shr_1_pow; [lia|]. rewrite Hrec.
    apply Z.le_trans with (2 ^ (Z.pos (digits2_pos p) - 1)); [|done].
    apply Z.pow_le_mono_r; lia.
  - rewrite Hrec. lia.
Qed.

Lemma round_nearest_even_pos mx lx : 0 < mx → 0 < round_nearest_even mx lx.
Proof. intros H. destruct lx as [|[]]; simpl; try done; [destruct (Z.even mx)|]; lia. Qed.

Lemma binary_round_aux_nonzero s mx ex lx :
  0 < mx → -1074 <= ex → nonzeroOfSign s (binary_round_aux prec emax s mx ex lx).
Proof.
  intros Hm He. unfold binary_round_aux.
  pose proof (shr_fexp_pos mx ex lx Hm He) as [H1 He1].
  destruct (shr_fexp prec emax mx ex lx) as [mrs' e']. simpl fst in H1. simpl snd in He1.
  pose proof (shr_fexp_pos _ e' loc_Exact
                (round_nearest_even_pos _ (loc_of_shr_record mrs') H1) He1) as [H2 _].
  destruct (shr_fexp prec emax _ e' loc_Exact) as [mrs'' e'']. simpl fst in H2.
  destruct (shr_m mrs''); [lia| |lia].
  by destruct (_ <=? _).
Qed.

Lemma binary_normalize_pos m e :
  0 < m → -1074 <= e →
  SFltb (S754_zero false) (binary_normalize prec emax m e false) = true.
Proof.
  intros Hm He. destruct m as [|p|p]; [lia| |lia].
  unfold binary_normalize, binary_round.
  assert (-1074 <= snd (shl_align p e (fexp prec emax (Z.pos (digits2_pos p) + e)))) as Hez.
  { unfold shl_align. destruct (_ - e); simpl snd; try done.
    unfold fexp, SpecFloat.emin, prec, emax. lia. }
  destruct (shl_align _ _ _) as [mz ez]. simpl snd in Hez.
  pose proof (binary_round_aux_nonzero false (Z.pos mz) ez loc_Exact ltac:(lia) Hez) as H.
  by destruct (binary_round_aux _ _ _ _ _ _) as [[]|[]| |[] ? ?].
Qed.

Lemma SFsub_nonpos x y :
  valid_binary prec emax x = true → valid_binary prec emax y = true →
  SFfinite x → SFfinite y →
  SFleb x y = true →
  SFleb (SFsub prec emax x y) (S754_zero false) = true.
Proof.
  intros Vx Vy Fx Fy Hle.
  destruct x as [sx|sx| |sx mx ex], y as [sy|sy| |sy my ey]; try done.
  all: try (by destruct sx, sy); try (by destruct sy); try (by destruct sx).
  - unfold SFsub. apply binary_normalize_nonpos.
    unfold SFleb, SFcompare in Hle.
    pose proof (shl_align_value mx ex (Z.min ex ey) ltac:(lia)) as Hx.
    pose proof (shl_align_value my ey (Z.min ex ey) ltac:(lia)) as Hy.
    rewrite Hx, Hy.
    assert (0 < 2 ^ (ex - Z.min ex ey)) by (apply Z.pow_pos_nonneg; lia).
    assert (0 < 2 ^ (ey - Z.min ex ey)) by (apply Z.pow_pos_nonneg; lia).
    destruct sx, sy; simpl cond_Zopp; try done.
    + destruct (Z.compare_spec ex ey) as [->|Hlt|Hgt]; try done.
      * rewrite Z.min_id, Z.sub_diag. change (2 ^ 0) with 1.
        change (Pos.compare_cont Eq mx my) with (mx ?= my)%positive in Hle.
        destruct (Pos.compare_spec mx my); try done; lia.
      * pose proof (valid_exponent_lt _ _ _ _ _ _ Vy Vx Hgt).
        rewrite Z.min_r, Z.sub_diag by lia. change (2 ^ 0) with 1. lia.
    + nia.
    + destruct (Z.compare_spec ex ey) as [->|Hlt|Hgt]; try done.
      * rewrite Z.min_id, Z.sub_diag. change (2 ^ 0) with 1.
        change (Pos.compare_cont Eq mx my) with (mx ?= my)%positive in Hle.
        destruct (Pos.compare_spec mx my); try done; lia.
      * pose proof (valid_exponent_lt _ _ _ _ _ _ Vx Vy Hlt).
        rewrite Z.min_l, Z.sub_diag by lia. change (2 ^ 0) with 1. lia.
Qed.

Lemma SFsub_pos x y :
  valid_binary prec emax x = true → valid_binary prec emax y = true →
  SFfinite x → SFfinite y →
  SFltb y x = true →
  SFltb (S754_zero false) (SFsub prec emax x y) = true.
Proof.
  intros Vx Vy Fx Fy Hlt.
  destruct x as [sx|sx| |sx mx ex], y as [sy|sy| |sy my ey]; try done.
  all: try (by destruct sx, sy); try (by destruct sy); try (by destruct sx).
  - unfold SFsub.
    pose proof (valid_finite_inv _ _ _ Vx) as (Hex & _).
    pose proof (valid_finite_inv _ _ _ Vy) as (Hey & _).
    apply binary_normalize_pos; [|lia].
    unfold SFltb, SFcompare in Hlt.
    pose proof (shl_align_value mx ex (Z.min ex ey) ltac:(lia)) as Hx.
    pose proof (shl_align_value my ey (Z.min ex ey) ltac:(lia)) as Hy.
    rewrite Hx, Hy.
    assert (0 < 2 ^ (ex - Z.min ex ey)) by (apply Z.pow_pos_nonneg; lia).
    assert (0 < 2 ^ (ey - Z.min ex ey)) by (apply Z.pow_pos_nonneg; lia).
    destruct sy, sx; simpl cond_Zopp; try done.
    + destruct (Z.compare_spec ey ex) as [->|Hl|Hg]; try done.
      * rewrite Z.min_id, Z.sub_diag. change (2 ^ 0) with 1.
        change (Pos.compare_cont Eq my mx) with (my ?= mx)%positive in Hlt.
        destruct (Pos.compare_spec my mx); try done; lia.
      * pose proof (valid_exponent_lt _ _ _ _ _ _ Vx Vy Hg).
        rewrite Z.min_l, Z.sub_diag by lia. change (2 ^ 0) with 1. lia.
    + nia.
    + destruct (Z.compare_spec ey ex) as [->|Hl|Hg]; try done.
      * rewrite Z.min_id, Z.sub_diag. change (2 ^ 0) with 1.
        change (Pos.compare_cont Eq my mx) with (my ?= mx)%positive in Hlt.
        destruct (Pos.compare_spec my mx); try done; lia.
      * pose proof (valid_exponent_lt _ _ _ _ _ _ Vy Vx Hl).
        rewrite Z.min_r, Z.sub_diag by lia. change (2 ^ 0) with 1. lia.
Qed.
End SFSub.

Section FloatSub.
Import PrimFloat FloatOps FloatAxioms SpecFloat.
Local Open Scope Z_scope.
Local Open Scope float_scope.

Lemma Prim2SF_infinity : Prim2SF infinity = S754_infinity false.
Proof. reflexivity. Qed.
Lemma Prim2SF_zero : Prim2SF zero = S754_zero false.
Proof. reflexivity. Qed.

Lemma is_finite_spec x : is_finite x = true ↔ SFfinite (Prim2SF x).
Proof.
  unfold is_finite, is_infinity.
  rewrite eqb_spec, abs_spec, Prim2SF_infinity.
  destruct (is_nan x) eqn:Hn.
  - apply is_nan_spec in Hn. rewrite Hn. simpl. naive_solver.
  - apply is_nan_false in Hn.
    destruct (Prim2SF x) as [s|s| |s m e]; simpl; try done; naive_solver.
Qed.

Lemma is_finite_not_nan x : is_finite x = true → is_nan x = false.
Proof. unfold is_finite. by destruct (is_nan x). Qed.

(** For finite [x <= y] the difference [x - y], as rounded, is not
    positive (and is not NaN). *)
Lemma sub_nonpos x y :
  is_finite x = true → is_finite y = true →
  (x <=? y) = true → (x - y <=? zero) = true.
Proof.
  rewrite !is_finite_spec, !leb_spec, sub_spec, Prim2SF_zero.
  intros Fx Fy Hle. apply SFsub_nonpos; try done; apply Prim2SF_valid.
Qed.

(** For finite [y < x] the difference [x - y], as rounded, is positive:
    a difference of two distinct doubles is never rounded to zero. *)
Lemma sub_pos x y :
  is_finite x = true → is_finite y = true →
  (y <? x) = true → (zero <? x - y) = true.
Proof.
  rewrite !is_finite_spec, !ltb_spec, sub_spec, Prim2SF_zero.
  intros Fx Fy Hlt. apply SFsub_pos; try done; apply Prim2SF_valid.
Qed.
End FloatSub.

(** ** Arithmetic with a zero *)

Section SFSpecial.
Import SpecFloat FloatOps.
Local Open Scope Z_scope.

Lemma SFeqb_zero x : SFeqb x (S754_zero false) = true ↔ ∃ s, x = S754_zero s.
Proof.
  split.
  - destruct x as [s|s| |s m e]; try done; [by eexists|by destruct s..].
  - by intros [s ->].
Qed.

Lemma SFsub_finite_inv x y :
  SFfinite (SFsub prec emax x y) → SFfinite x ∧ SFfinite y.
Proof.
  destruct x as [sx|sx| |sx mx ex], y as [sy|sy| |sy my ey]; try done;
    try (by destruct sx, sy).
Qed.

Lemma binary_normalize_not_nan m e :
  binary_normalize prec emax m e false ≠ S754_nan.
Proof.
  destruct m as [|p|p]; [done|..]; unfold binary_normalize, binary_round;
    destruct (shl_align _ _ _) as [mz ez].
  - pose proof (binary_round_aux_sign false (Z.pos mz) ez loc_Exact ltac:(lia)) as H.
    by destruct (binary_round_aux _ _ _ _ _ _).
  - pose proof (binary_round_aux_sign true (Z.pos mz) ez loc_Exact ltac:(lia)) as H.
    by destruct (binary_round_aux _ _ _ _ _ _).
Qed.

Lemma SFsub_not_nan x y :
  x ≠ S754_nan → SFfinite y → SFsub prec emax x y ≠ S754_nan.
Proof.
  intros Hx Fy.
  destruct x as [sx|sx| |sx mx ex], y as [sy|sy| |sy my ey]; try done;
    try (by destruct sx, sy).
  apply binary_normalize_not_nan.
Qed.

Lemma SFsub_eq x y :
  SFfinite x → SFfinite y → SFeqb x y = true →
  ∃ s, SFsub prec emax x y = S754_zero s.
Proof.
  intros Fx Fy H.
  destruct x as [sx|sx| |sx mx ex], y as [sy|sy| |sy my ey]; try done;
    try (by destruct sx); try (by destruct sy);
    try (destruct sx, sy; by eexists).
  unfold SFeqb, SFcompare in H.
  assert (sx = sy ∧ ex = ey ∧ mx = my) as (-> & -> & ->).
  { change (Pos.compare_cont Eq mx my) with (mx ?= my)%positive in H.
    destruct sx, sy; try done;
      destruct (Z.compare_spec ex ey); try done;
      destruct (Pos.compare_spec mx my); try done; by subst. }
  exists false. unfold SFsub. by rewrite Z.sub_diag.
Qed.

Lemma SFdiv_zero s y :
  y ≠ S754_nan → (∀ s', y ≠ S754_zero s') →
  ∃ s', SFdiv prec emax (S754_zero s) y = S754_zero s'.
Proof.
  intros Hn Hz. destruct y as [sy|sy| |sy my ey]; try done; [|by eexists..].
  by destruct (Hz sy).
Qed.

Lemma SFmul_zero x s : SFfinite x → ∃ s', SFmul prec emax x (S754_zero s) = S754_zero s'.
Proof. intros Fx. destruct x; try done; by eexists. Qed.

Lemma SFadd_zero x s : SFfinite x → SFeqb (SFadd prec emax x (S754_zero s)) x = true.
Proof.
  intros Fx. destruct x as [sx|sx| |sx mx ex]; try done.
  - by destruct sx, s.
  - simpl. unfold SFeqb. rewrite SFcompare_key by done.
    by assert (lex3 (SFkey (S754_finite sx mx ex)) (SFkey (S754_finite sx mx ex)) = Eq)
      as -> by (by apply lex3_Eq).
Qed.
End SFSpecial.

Section DoubleZero.
Import PrimFloat FloatOps FloatAxioms SpecFloat.
Local Open Scope float_scope.

Lemma eqb_zero_spec z : (z =? 0) = true ↔ ∃ s, Prim2SF z = S754_zero s.
Proof. change 0 with zero. rewrite eqb_spec, Prim2SF_zero. apply SFeqb_zero. Qed.

Lemma sub_finite_inv a b :
  is_finite (a - b) = true → is_finite a = true ∧ is_finite b = true.
Proof. rewrite !is_finite_spec, sub_spec. apply SFsub_finite_inv. Qed.

Lemma sub_not_nan x y :
  is_nan x = false → is_finite y = true → is_nan (x - y) = false.
Proof.
  rewrite !is_nan_false, is_finite_spec, sub_spec. apply SFsub_not_nan.
Qed.

Lemma sub_eq_zero x y :
  is_finite x = true → is_finite y = true → (x =? y) = true → (x - y =? 0) = true.
Proof.
  rewrite !is_finite_spec, eqb_zero_spec, eqb_spec, sub_spec. apply SFsub_eq.
Qed.

Lemma div_zero_l z d :
  (z =? 0) = true → is_nan d = false → (d =? 0) = false → (z / d =? 0) = true.
Proof.
  rewrite !eqb_zero_spec, is_nan_false, div_spec. intros [s ->] Hn Hz.
  apply SFdiv_zero; [done|]. intros s' Hs'.
  assert ((d =? 0) = true); [|congruence]. apply eqb_zero_spec. eauto.
Qed.

Lemma mul_zero_r d z :
  is_finite d = true → (z =? 0) = true → (d * z =? 0) = true.
Proof.
  rewrite !eqb_zero_spec, is_finite_spec, mul_spec. intros Fd [s ->].
  by apply SFmul_zero.
Qed.

Lemma add_zero_r a z :
  is_finite a = true → (z =? 0) = true → (a + z =? a) = true.
Proof.
  rewrite eqb_zero_spec, is_finite_spec, eqb_spec, add_spec. intros Fa [s ->].
  by apply SFadd_zero.
Qed.

(** A number equal to a finite one is finite. *)
Lemma eqb_finite x y : (x =? y) = true → is_finite y = true → is_finite x = true.
Proof.
  rewrite eqb_spec, !is_finite_spec. unfold SFeqb.
  destruct (Prim2SF x) as [sx|sx| |sx mx ex], (Prim2SF y) as [sy|sy| |sy my ey];
    try done; by destruct sx.
Qed.
End DoubleZero.

(** ** Comparisons, [Math.max] and [Math.min] *)

Section DoubleOrder.
Import PrimFloat FloatOps FloatAxioms SpecFloat.
Local Open Scope Z_scope.
Local Open Scope float_scope.

Lemma leb_false x y :
  is_nan x = false → is_nan y = false → (x <=? y) = false → flt y x.
Proof.
  intros Hx Hy H. pose proof (leb_fle x y) as [_ Hl].
  assert (¬ (flt x y ∨ feq x y)) as Hn.
  { intros Hf. specialize (Hl (conj Hx (conj Hy Hf))). congruence. }
  unfold flt, feq in *. lia.
Qed.

Lemma ltb_false_inv x y :
  is_nan x = false → is_nan y = false → (x <? y) = false → flt y x ∨ feq x y.
Proof. intros Hx Hy H. by apply ltb_false. Qed.
End DoubleOrder.

(** Turns the comparisons of doubles among the hypotheses and in the goal
    into integer facts on their keys. *)
Ltac float_order :=
  repeat match goal with
  | H : PrimFloat.ltb _ _ = true |- _ => apply ltb_flt in H as (? & ? & H)
  | H : PrimFloat.leb _ _ = true |- _ => apply leb_fle in H as (? & ? & H)
  | H : PrimFloat.eqb _ _ = true |- _ => apply eqb_feq in H as (? & ? & H)
  end;
  repeat match goal with
  | H : PrimFloat.ltb _ _ = false |- _ => apply ltb_false_inv in H; [|assumption..]
  | H : PrimFloat.leb _ _ = false |- _ => apply leb_false in H; [|assumption..]
  end;
  try match goal with
  | |- PrimFloat.ltb _ _ = true => apply ltb_flt; split_and!; [assumption..|]
  | |- PrimFloat.leb _ _ = true => apply leb_fle; split_and!; [assumption..|]
  | |- PrimFloat.eqb _ _ = true => apply eqb_feq; split_and!; [assumption..|]
  end;
  unfold flt, feq in *; lia.

Section DoubleMinMax.
Import PrimFloat FloatOps FloatAxioms SpecFloat.
Local Open Scope float_scope.

Lemma leb_trans x y z : (x <=? y) = true → (y <=? z) = true → (x <=? z) = true.
Proof. intros H1 H2. float_order. Qed.

Lemma Math_min_spec a b :
  is_nan a = false → is_nan b = false →
  (Double.Math_min a b = a ∨ Double.Math_min a b = b) ∧
  (Double.Math_min a b <=? a) = true ∧ (Double.Math_min a b <=? b) = true.
Proof.
  intros Ha Hb. unfold Double.Math_min. rewrite Ha, Hb. simpl.
  destruct (a <? b) eqn:E1; [|destruct (b <? a) eqn:E2; [|destruct (get_sign a)]];
    (split_and!; [auto| |]); float_order.
Qed.

Lemma Math_max_spec a b :
  is_nan a = false → is_nan b = false →
  (Double.Math_max a b = a ∨ Double.Math_max a b = b) ∧
  (a <=? Double.Math_max a b) = true ∧ (b <=? Double.Math_max a b) = true.
Proof.
  intros Ha Hb. unfold Double.Math_max. rewrite Ha, Hb. simpl.
  destruct (a <? b) eqn:E1; [|destruct (b <? a) eqn:E2; [|destruct (get_sign a)]];
    (split_and!; [auto| |]); float_order.
Qed.

Lemma Math_min_finite a b :
  is_finite a = true → is_finite b = true → is_finite (Double.Math_min a b) = true.
Proof.
  intros Ha Hb.
  destruct (Math_min_spec a b) as [[->| ->] _]; auto using is_finite_not_nan.
Qed.

Lemma Math_max_finite a b :
  is_finite a = true → is_finite b = true → is_finite (Double.Math_max a b) = true.
Proof.
  intros Ha Hb.
  destruct (Math_max_spec a b) as [[->| ->] _]; auto using is_finite_not_nan.
Qed.

(** For finite bounds the two readings of an empty interval agree. *)
Lemma emptyInterval_le lo hi :
  is_finite lo = true → is_finite hi = true →
  Double.emptyInterval lo hi = true → (hi <=? lo) = true.
Proof.
  intros Flo Fhi H. unfold Double.emptyInterval in H.
  destruct (hi <=? lo) eqn:E; [done|]. simpl in H.
  pose proof (is_finite_not_nan _ Flo). pose proof (is_finite_not_nan _ Fhi).
  assert ((lo <? hi) = true) as Hlt by float_order.
  pose proof (sub_pos _ _ Fhi Flo Hlt) as Hpos. change zero with 0 in Hpos.
  exfalso. float_order.
Qed.

(** The intersection of an interval [[lo, hi]] that is empty or a point
    with any other interval has a width that is not positive. *)
Lemma inter_nonpos lo hi lo' hi' :
  is_finite lo = true → is_finite hi = true →
  is_finite lo' = true → is_finite hi' = true →
  Double.emptyInterval lo hi = true ∨ Double.emptyInterval lo' hi' = true ∨
  Double.emptyInterval (Double.Math_max lo lo') (Double.Math_min hi hi') = true →
  (Double.Math_min hi hi' - Double.Math_max lo lo' <=? 0) = true.
Proof.
  change 0 with zero.
  intros Flo Fhi Flo' Fhi' H.
  pose proof (is_finite_not_nan _ Flo). pose proof (is_finite_not_nan _ Fhi).
  pose proof (is_finite_not_nan _ Flo'). pose proof (is_finite_not_nan _ Fhi').
  destruct (Math_min_spec hi hi') as (_ & Hm1 & Hm2); [done..|].
  destruct (Math_max_spec lo lo') as (_ & HM1 & HM2); [done..|].
  pose proof (Math_min_finite hi hi' Fhi Fhi') as Fmin.
  pose proof (Math_max_finite lo lo' Flo Flo') as Fmax.
  apply sub_nonpos; [done..|].
  destruct H as [H|[H|H]]; apply emptyInterval_le in H; try done.
  - eapply leb_trans; [exact Hm1|]. eapply leb_trans; [exact H|exact HM1].
  - eapply leb_trans; [exact Hm2|]. eapply leb_trans; [exact H|exact HM2].
Qed.

Lemma finiteBox_inv b :
  Double.finiteBox b = true →
  is_finite (Double.BoundingBox.x_min b) = true ∧
  is_finite (Double.BoundingBox.y_min b) = true ∧
  is_finite (Double.BoundingBox.x_max b) = true ∧
  is_finite (Double.BoundingBox.y_max b) = true.
Proof.
  unfold Double.finiteBox. intros H.
  apply andb_prop in H as [H ?]. apply andb_prop in H as [H ?].
  by apply andb_prop in H as [? ?].
Qed.
End DoubleMinMax.

Section DoubleIou.
Import PrimFloat.
Local Open Scope float_scope.
Import Double.BoundingBox.

(** C3, amended. On doubles, for boxes whose coordinates are finite numbers,
    [calculateIou] returns exactly 0 as soon as one of the boxes is malformed
    (its width or its height is not positive), or the intersection has a
    width or a height that is not positive. (The function has no failing
    operation: it is a total function of the two boxes.) *)
Theorem calculateIou_zero_on_malformed (boxA boxB : Double.BoundingBox.t) :
  Double.finiteBox boxA = true → Double.finiteBox boxB = true →
  Double.malformed boxA = true ∨ Double.malformed boxB = true ∨
  Double.emptyInterval (Double.Math_max (x_min boxA) (x_min boxB))
                       (Double.Math_min (x_max boxA) (x_max boxB)) = true ∨
  Double.emptyInterval (Double.Math_max (y_min boxA) (y_min boxB))
                       (Double.Math_min (y_max boxA) (y_max boxB)) = true →
  Double.calculateIou boxA boxB = 0.
Proof.
  intros FA FB H.
  apply finiteBox_inv in FA as (Fa1 & Fa2 & Fa3 & Fa4).
  apply finiteBox_inv in FB as (Fb1 & Fb2 & Fb3 & Fb4).
  unfold Double.calculateIou.
  assert ((Double.interWidth boxA boxB <=? 0) = true ∨
          (Double.interHeight boxA boxB <=? 0) = true)
    as [-> | ->]; [|done|by rewrite orb_true_r].
  unfold Double.interWidth, Double.interHeight; cbv zeta.
  unfold Double.malformed in H.
  destruct H as [H|[H|[H|H]]].
  - apply orb_prop in H as [H|H]; [left|right]; apply inter_nonpos; auto.
  - apply orb_prop in H as [H|H]; [left|right]; apply inter_nonpos; auto.
  - left. apply inter_nonpos; auto.
  - right. apply inter_nonpos; auto.
Qed.

Lemma calculateIou_zero_on_malformed_witness :
  Double.calculateIou (Double.BoundingBox.mk 0.75 0.25 0.25 0.75)
                      (Double.BoundingBox.mk 0 0 1 1) = 0.
Proof.
  apply calculateIou_zero_on_malformed.
  - reflexivity.
  - reflexivity.
  - left. reflexivity.
Defined.

(** C3 as stated fails on doubles. The box [(0, 0, 2^-600, 2^-600)] has a
    positive width and height, and so has its intersection with itself, but
    the three areas underflow to 0: the divisor is 0 and the result of the
    division 0/0 is NaN. And a box of width 0 against a box with a NaN
    coordinate yields NaN, not 0: the test [interWidth <= 0] is false of NaN. *)
Lemma calculateIou_nan_counterexample :
  ((0 <? Double.interWidth (Double.BoundingBox.mk 0 0 0x1p-600 0x1p-600)
                           (Double.BoundingBox.mk 0 0 0x1p-600 0x1p-600)) = true ∧
   (0 <? Double.interHeight (Double.BoundingBox.mk 0 0 0x1p-600 0x1p-600)
                            (Double.BoundingBox.mk 0 0 0x1p-600 0x1p-600)) = true ∧
   Double.iouDivisor (Double.BoundingBox.mk 0 0 0x1p-600 0x1p-600)
                     (Double.BoundingBox.mk 0 0 0x1p-600 0x1p-600) = 0 ∧
   is_nan (Double.calculateIou (Double.BoundingBox.mk 0 0 0x1p-600 0x1p-600)
                               (Double.BoundingBox.mk 0 0 0x1p-600 0x1p-600))
   = true) ∧
  (Double.malformed (Double.BoundingBox.mk 0 0 0 1) = true ∧
   is_nan (Double.calculateIou (Double.BoundingBox.mk 0 0 0 1)
                               (Double.BoundingBox.mk nan 0 1 1)) = true).
Proof. repeat split. Qed.
End DoubleIou.

(** ** Sorting the track on doubles *)

Section DoubleSortGeneric.
Context {A : Type} (cmp : A → A → PrimFloat.float).

Lemma Double_insertSorted_Permutation x l :
  Permutation (Double.insertSorted cmp x l) (x :: l).
Proof.
  induction l as [|y l IH]; simpl; [done|].
  destruct (_ || _); [done|].
  rewrite IH. apply perm_swap.
Qed.

Lemma Double_Array_sort_Permutation l : Permutation (Double.Array_sort cmp l) l.
Proof.
  induction l as [|x l IH]; simpl; [done|].
  rewrite Double_insertSorted_Permutation. by constructor.
Qed.
End DoubleSortGeneric.

Section DoubleSort.
Import PrimFloat.
Local Open Scope float_scope.
Import Double.GpxPoint.

(** On valid times the comparator ranks [x] before or with [y] exactly when
    its time is not later. *)
Lemma compareTime_branch x y :
  is_finite (time x) = true → is_finite (time y) = true →
  is_nan (Double.compareTime x y) || (Double.compareTime x y <=? 0)
  = (time x <=? time y).
Proof.
  intros Fx Fy. unfold Double.compareTime.
  pose proof (is_finite_not_nan _ Fx) as Nx.
  pose proof (is_finite_not_nan _ Fy) as Ny.
  destruct (time x <=? time y) eqn:E.
  - change 0 with zero. rewrite (sub_nonpos _ _ Fx Fy E). apply orb_true_r.
  - assert ((time y <? time x) = true) as Hlt by float_order.
    pose proof (sub_pos _ _ Fx Fy Hlt) as Hpos. change zero with 0 in Hpos.
    assert (is_nan (time x - time y) = false) as ->
      by (by apply ltb_flt in Hpos as (_ & ? & _)).
    simpl. destruct (time x - time y <=? 0) eqn:E'; [|done].
    exfalso. float_order.
Qed.

Lemma forallb_Forall_true {A} (f : A → bool) l :
  forallb f l = true ↔ Forall (λ x, f x = true) l.
Proof.
  induction l as [|x l IH]; simpl.
  - split; [constructor|done].
  - rewrite andb_true_iff, Forall_cons, IH. done.
Qed.

Lemma validTimes_Forall track :
  Double.validTimes track = true ↔ Forall (λ p, is_finite (time p) = true) track.
Proof. apply forallb_Forall_true. Qed.

Lemma Double_timeLe_trans : Transitive Double.timeLe.
Proof. intros a b c. unfold Double.timeLe. apply leb_trans. Qed.

Lemma Double_insertSorted_timeLe x l :
  is_finite (time x) = true → Forall (λ p, is_finite (time p) = true) l →
  StronglySorted Double.timeLe l →
  StronglySorted Double.timeLe (Double.insertSorted Double.compareTime x l).
Proof.
  intros Fx Fl Hs. induction Hs as [|y l Hs IH Hy]; simpl.
  - repeat constructor.
  - apply Forall_cons in Fl as [Fy Fl].
    rewrite compareTime_branch by done.
    destruct (time x <=? time y) eqn:E.
    + constructor; [by constructor|].
      constructor; [done|].
      eapply Forall_impl; [exact Hy|]. intros z Hz.
      by apply (Double_timeLe_trans x y z).
    + constructor; [by apply IH|].
      rewrite Double_insertSorted_Permutation. constructor; [|done].
      pose proof (is_finite_not_nan _ Fx). pose proof (is_finite_not_nan _ Fy).
      unfold Double.timeLe. float_order.
Qed.

Lemma Double_sortPoints_Permutation points :
  Permutation (Double.sortPoints points) points.
Proof. apply Double_Array_sort_Permutation. Qed.

Lemma Double_sortPoints_sorted points :
  Double.validTimes points = true →
  StronglySorted Double.timeLe (Double.sortPoints points).
Proof.
  rewrite validTimes_Forall. intros Hv.
  induction Hv as [|x l Fx Fl IH]; simpl; [constructor|].
  apply Double_insertSorted_timeLe; [done| |done].
  by rewrite Double_sortPoints_Permutation.
Qed.

(** A stable sort leaves a sorted array as it is. *)
Lemma Double_sortPoints_sorted_id track :
  Double.validTimes track = true →
  Sorted Double.timeLe track → Double.sortPoints track = track.
Proof.
  rewrite validTimes_Forall. intros Hv Hs.
  induction Hs as [|x l Hs IH Hhd]; [done|].
  apply Forall_cons in Hv as [Fx Fl].
  change (Double.sortPoints (x :: l))
    with (Double.insertSorted Double.compareTime x (Double.sortPoints l)).
  rewrite IH by done. destruct Hhd as [|y l Hxy]; [done|]. simpl.
  apply Forall_cons in Fl as [Fy _].
  rewrite compareTime_branch by done. by rewrite Hxy.
Qed.

(** ... and keeps the order of points recorded at the same time. *)
Lemma Double_insertSorted_pointsAt t x l :
  is_finite (time x) = true → Forall (λ p, is_finite (time p) = true) l →
  Double.pointsAt t (Double.insertSorted Double.compareTime x l)
  = Double.pointsAt t (x :: l).
Proof.
  intros Fx Fl. induction Fl as [|y l Fy Fl IH]; [done|].
  simpl Double.insertSorted. rewrite compareTime_branch by done.
  destruct (time x <=? time y) eqn:E; [done|].
  unfold Double.pointsAt in *. simpl List.filter in *. rewrite IH.
  pose proof (is_finite_not_nan _ Fx). pose proof (is_finite_not_nan _ Fy).
  destruct (time y =? t) eqn:Ey, (time x =? t) eqn:Ex; try done.
  exfalso. float_order.
Qed.

Lemma Double_sortPoints_pointsAt t points :
  Double.validTimes points = true →
  Double.pointsAt t (Double.sortPoints points) = Double.pointsAt t points.
Proof.
  rewrite validTimes_Forall. intros Hv.
  induction Hv as [|x l Fx Fl IH]; [done|].
  change (Double.sortPoints (x :: l))
    with (Double.insertSorted Double.compareTime x (Double.sortPoints l)).
  rewrite Double_insertSorted_pointsAt;
    [|done|by rewrite Double_sortPoints_Permutation].
  unfold Double.pointsAt in *. simpl. by rewrite IH.
Qed.

(** Distinct times have distinct keys. *)
Lemma distinctTimes_NoDup track :
  Double.validTimes track = true → Double.distinctTimes track = true →
  NoDup (map (λ p, fkey (time p)) track).
Proof.
  rewrite validTimes_Forall. intros Hv.
  induction Hv as [|x l Fx Fl IH]; simpl; intros Hd; [constructor|].
  apply andb_prop in Hd as [Hx Hd]. constructor; [|by apply IH].
  intros Hin. apply list_elem_of_fmap in Hin as (y & Hk & Hy).
  rewrite forallb_Forall_true in Hx.
  pose proof (proj1 (Forall_forall _ _) Hx y Hy) as Hxy. simpl in Hxy.
  pose proof (proj1 (Forall_forall _ _) Fl y Hy) as Fy. simpl in Fy.
  pose proof (is_finite_not_nan _ Fx). pose proof (is_finite_not_nan _ Fy).
  apply negb_true_iff in Hxy.
  assert ((time x =? time y) = true); [|congruence].
  apply eqb_feq. split_and!; [done..|]. unfold feq. rewrite Hk. done.
Qed.

Lemma Double_timeLe_strict track :
  StronglySorted Double.timeLe track → NoDup (map (λ p, fkey (time p)) track) →
  StronglySorted Double.timeLt track.
Proof.
  induction 1 as [|x l Hs IH Hx]; intros Hnd; [constructor|].
  simpl in Hnd. apply NoDup_cons in Hnd as [Hnotin Hnd].
  constructor; [by apply IH|].
  apply Forall_forall. intros y Hy.
  pose proof (proj1 (Forall_forall _ _) Hx y Hy) as Hle.
  unfold Double.timeLe in Hle. unfold Double.timeLt.
  assert (fkey (time x) ≠ fkey (time y)) as Hne.
  { intros Heq. apply Hnotin. rewrite Heq.
    apply (list_elem_of_fmap_2 (λ p, fkey (time p))). done. }
  apply leb_fle in Hle as (Nx & Ny & [Hlt|Heq]).
  - apply ltb_flt. by split_and!.
  - exfalso. apply Hne. unfold feq in Heq.
    destruct (fkey (time x)) as [[? ?] ?], (fkey (time y)) as [[? ?] ?].
    simpl in Heq. destruct Heq as (-> & -> & ->). done.
Qed.

(** Two strictly increasing arrangements of the same points coincide. *)
Lemma Double_strictly_sorted_unique l1 l2 :
  StronglySorted Double.timeLt l1 → StronglySorted Double.timeLt l2 →
  Permutation l1 l2 → l1 = l2.
Proof.
  intros H1. revert l2. induction H1 as [|a r1 Hs1 IH Ha]; intros l2 H2 Hp.
  - by apply Permutation_nil in Hp.
  - destruct H2 as [|b r2 Hs2 Hb].
    + by apply Permutation_sym, Permutation_nil in Hp.
    + assert (a = b) as ->.
      { assert (a ∈ b :: r2) as Hin1 by (rewrite <- Hp; left).
        assert (b ∈ a :: r1) as Hin2 by (rewrite Hp; left).
        apply elem_of_cons in Hin1 as [?|Hin1]; [done|].
        apply elem_of_cons in Hin2 as [?|Hin2]; [done|].
        pose proof (proj1 (Forall_forall _ _) Ha b Hin2) as Hab.
        pose proof (proj1 (Forall_forall _ _) Hb a Hin1) as Hba.
        unfold Double.timeLt in *. exfalso. float_order. }
      f_equal. apply IH; [done|]. by apply Permutation_cons_inv in Hp.
Qed.

Lemma validTimes_Permutation l l' :
  Permutation l l' → Double.validTimes l = true → Double.validTimes l' = true.
Proof. rewrite !validTimes_Forall. by intros ->. Qed.

Lemma Double_sortPoints_unique track track' :
  Permutation track track' →
  Double.validTimes track = true → Double.distinctTimes track = true →
  Double.sortPoints track' = Double.sortPoints track.
Proof.
  intros Hp Hv Hd.
  pose proof (distinctTimes_NoDup track Hv Hd) as Hnd.
  apply Double_strictly_sorted_unique.
  - apply Double_timeLe_strict.
    + apply Double_sortPoints_sorted. by apply (validTimes_Permutation track).
    + by rewrite Double_sortPoints_Permutation, <- Hp.
  - apply Double_timeLe_strict; [by apply Double_sortPoints_sorted|].
    by rewrite Double_sortPoints_Permutation.
  - by rewrite !Double_sortPoints_Permutation.
Qed.

(** C2, amended. [interpolateLocation] takes the track in the order given;
    the sort is the last step of [parseGpx], whose output it is applied to.
    That sort returns a permutation of its input. When every time is that
    of a valid date, the result is in non-decreasing order of time, points
    with the same time keep their order (the sort is stable) and a sorted
    track is left unchanged. So for points with valid, pairwise distinct
    times, sorting any permutation of a track gives the same track, and
    resolving a location on it the same result. *)
Theorem sortPoints_then_interpolate :
  (∀ track, Permutation (Double.sortPoints track) track) ∧
  (∀ track,
     Double.validTimes track = true →
     Sorted Double.timeLe (Double.sortPoints track) ∧
     (∀ t, Double.pointsAt t (Double.sortPoints track) = Double.pointsAt t track) ∧
     (Sorted Double.timeLe track → Double.sortPoints track = track)) ∧
  (∀ track track' timestamp videoStartTime,
     Permutation track track' →
     Double.validTimes track = true → Double.distinctTimes track = true →
     Double.sortPoints track' = Double.sortPoints track ∧
     Double.interpolateLocation timestamp (Double.sortPoints track') videoStartTime
     = Double.interpolateLocation timestamp (Double.sortPoints track) videoStartTime).
Proof.
  split_and!.
  - apply Double_sortPoints_Permutation.
  - intros track Hv. split_and!.
    + by apply StronglySorted_Sorted, Double_sortPoints_sorted.
    + intros t. by apply Double_sortPoints_pointsAt.
    + by apply Double_sortPoints_sorted_id.
  - intros track track' timestamp videoStartTime Hp Hv Hd.
    by rewrite (Double_sortPoints_unique track track').
Qed.

Lemma sortPoints_then_interpolate_witness :
  Double.sortPoints [Double.GpxPoint.mk 10 10 10000; Double.GpxPoint.mk 0 0 0]
  = Double.sortPoints [Double.GpxPoint.mk 0 0 0; Double.GpxPoint.mk 10 10 10000] ∧
  Double.interpolateLocation 5
    (Double.sortPoints [Double.GpxPoint.mk 10 10 10000; Double.GpxPoint.mk 0 0 0]) 0
  = Double.interpolateLocation 5
    (Double.sortPoints [Double.GpxPoint.mk 0 0 0; Double.GpxPoint.mk 10 10 10000]) 0.
Proof.
  apply (proj2 (proj2 sortPoints_then_interpolate)
           [Double.GpxPoint.mk 0 0 0; Double.GpxPoint.mk 10 10 10000]
           [Double.GpxPoint.mk 10 10 10000; Double.GpxPoint.mk 0 0 0]).
  - apply perm_swap.
  - reflexivity.
  - reflexivity.
Defined.
End DoubleSort.

(** * Further properties of the code *)

(** ** The greedy choice of a reference *)

Section DoubleBestMatch.
Import PrimFloat.
Local Open Scope float_scope.
Variable matched : gset Z.
Variable gtDefects : list Double.GroundTruthDefect.t.
Variable aiDefect : Double.Defect.t.

Local Abbreviation iouWith g :=
  (Double.calculateIou (Double.Defect.boundingBox aiDefect)
                       (Double.GroundTruthDefect.boundingBox g)).
Local Abbreviation bestUpTo' := (Double.bestUpTo matched gtDefects aiDefect).

Lemma Double_bestMatchStep_upTo (pre : list Double.GroundTruthDefect.t) g b :
  gtDefects !! length pre = Some g →
  bestUpTo' (length pre) b →
  bestUpTo' (S (length pre))
    (Double.bestMatchStep matched aiDefect
       (normalizeAiType (Double.Defect.type aiDefect)) b g (Z.of_nat (length pre))).
Proof.
  intros Hg (Hidx & Hcand & Hlow & Hbest).
  unfold Double.bestUpTo, Double.bestMatchStep; cbv zeta.
  case_bool_decide as Hm; simpl.
  { split_and!; [lia|done|done|]. intros k g' Hk Hg' Hfree Hty Hnan.
    destruct (decide (k = length pre)) as [->|Hne]; [done|].
    apply Hbest; [lia|done..]. }
  case_bool_decide as Ht; simpl.
  2:{ split_and!; [lia|done|done|]. intros k g' Hk Hg' Hfree Hty Hnan.
      destruct (decide (k = length pre)) as [->|Hne]; [congruence|].
      apply Hbest; [lia|done..]. }
  destruct (Double.BestMatch.iou b <? iouWith g) eqn:Hlt; simpl.
  - split_and!; [lia| |float_order|].
    { right. exists (length pre), g. by split_and!. }
    intros k g' Hk Hg' Hfree Hty Hnan.
    destruct (decide (k = length pre)) as [->|Hne].
    + assert (g' = g) as -> by congruence. split; [float_order|lia].
    + destruct (Hbest k g') as [Hle _]; [lia|done|done|done|done|].
      split; [float_order|]. intros _. float_order.
  - split_and!; [lia|done|done|]. intros k g' Hk Hg' Hfree Hty Hnan.
    destruct (decide (k = length pre)) as [->|Hne].
    + assert (g' = g) as -> by congruence. split; [|lia].
      assert (is_nan (Double.BestMatch.iou b) = false)
        by (by apply leb_fle in Hlow as (_ & ? & _)).
      float_order.
    + apply Hbest; [lia|done..].
Qed.

Lemma Double_findBestMatch_upTo :
  bestUpTo' (length gtDefects) (Double.findBestMatch matched gtDefects aiDefect).
Proof.
  unfold Double.findBestMatch; cbv zeta.
  assert (∀ l pre b,
    gtDefects = pre ++ l → bestUpTo' (length pre) b →
    bestUpTo' (length gtDefects)
      (forEachIndexed
         (Double.bestMatchStep matched aiDefect
            (normalizeAiType (Double.Defect.type aiDefect)))
         (Z.of_nat (length pre)) l b)) as Hgen.
  { induction l as [|g l IH]; intros pre b Hgt Hb.
    - assert (length gtDefects = length pre) as ->
        by (rewrite Hgt, length_app; simpl; lia).
      exact Hb.
    - rewrite forEachIndexed_cons.
      replace (Z.of_nat (length pre) + 1)%Z with (Z.of_nat (length (pre ++ [g])))
        by (rewrite length_app; simpl; lia).
      apply IH; [by rewrite <- app_assoc|].
      rewrite length_app. simpl. rewrite Nat.add_1_r.
      apply Double_bestMatchStep_upTo; [|done].
      rewrite Hgt. by rewrite list_lookup_middle. }
  apply (Hgen gtDefects [] _ eq_refl). unfold Double.bestUpTo. simpl.
  split_and!; [lia|by left|done|]. intros k g Hk. lia.
Qed.
End DoubleBestMatch.

Section DoubleBestMatchResult.
Import PrimFloat.
Local Open Scope float_scope.


End DoubleBestMatchResult.


(** ** Counters class by class *)

Section PerClass.
Variable c : string.

Lemma classCount_insert f (m : gmap string ClassData.t) k d :
  classCount f (<[k := d]> m) c = if decide (k = c) then f d else classCount f m c.
Proof.
  unfold classCount. case_decide as Hk.
  - subst. by rewrite lookup_insert_eq.
  - by rewrite lookup_insert_ne.
Qed.

Lemma classCount_step f (m : gmap string ClassData.t) k d d' :
  m !! k = Some d →
  (classCount f (<[k := d']> m) c + (if decide (k = c) then f d else 0)
   = classCount f m c + (if decide (k = c) then f d' else 0))%nat.
Proof.
  intros Hk. rewrite classCount_insert. case_decide as Hc; [|lia].
  unfold classCount. rewrite <- Hc, Hk. simpl. lia.
Qed.

Lemma hits_plus_misses matched i l :
  (hitsOfClass c matched i l + missesOfClass c matched i l
   = referencesOfClass c l)%nat.
Proof.
  revert i. induction l as [|g l IH]; intros i; [done|].
  unfold referencesOfClass in *. simpl hitsOfClass. simpl missesOfClass.
  rewrite filter_cons. specialize (IH (i + 1)%Z).
  repeat case_bool_decide; case_decide; simpl; try lia; naive_solver.
Qed.

Lemma hits_below matched x i l :
  (x < i)%Z → hitsOfClass c ({[x]} ∪ matched) i l = hitsOfClass c matched i l.
Proof.
  revert i. induction l as [|g l IH]; intros i Hx; [done|].
  simpl. rewrite IH by lia. f_equal.
  assert (i ∈ {[x]} ∪ matched ↔ i ∈ matched) as Hi by (set_unfold; intuition lia).
  repeat case_bool_decide; try done; naive_solver.
Qed.

Lemma hits_insert matched i l (k : nat) g :
  l !! k = Some g → (i + Z.of_nat k)%Z ∉ matched →
  hitsOfClass c ({[(i + Z.of_nat k)%Z]} ∪ matched) i l
  = (hitsOfClass c matched i l
     + if decide (normalizeGtType (GroundTruthDefect.type g) = c) then 1 else 0)%nat.
Proof.
  revert i k. induction l as [|g0 l IH]; intros i k Hk Hfree; [done|].
  destruct k as [|k]; simpl in Hk.
  - injection Hk as ->. replace (i + Z.of_nat 0)%Z with i in * by lia.
    simpl. rewrite hits_below by lia.
    assert (i ∈ {[i]} ∪ matched) by set_solver.
    repeat case_bool_decide; case_decide; try lia; naive_solver.
  - replace (i + Z.of_nat (S k))%Z with (i + 1 + Z.of_nat k)%Z in * by lia.
    simpl. rewrite (IH (i + 1)%Z k Hk Hfree).
    assert (i ∈ {[(i + 1 + Z.of_nat k)%Z]} ∪ matched ↔ i ∈ matched) as Hi
      by (set_unfold; intuition lia).
    repeat case_bool_decide; case_decide; try lia; naive_solver.
Qed.

Lemma countMisses_class matched l i (perClassData : gmap string ClassData.t) :
  (∀ g, g ∈ l →
        is_Some (perClassData !! normalizeGtType (GroundTruthDefect.type g))) →
  classCount ClassData.fn (forEachIndexed (countMiss matched) i l perClassData) c
  = (classCount ClassData.fn perClassData c + missesOfClass c matched i l)%nat.
Proof.
  revert i perClassData. induction l as [|g l IH]; intros i pcd Hdom.
  - simpl. lia.
  - rewrite forEachIndexed_cons. simpl missesOfClass.
    destruct (decide (i ∈ matched)) as [Hm|Hm].
    + rewrite (countMiss_matched _ _ _ _ Hm).
      rewrite IH by (intros; apply Hdom; by right).
      rewrite bool_decide_false by naive_solver. lia.
    + destruct (Hdom g) as [d Hd]; [left|].
      rewrite (countMiss_unmatched _ _ _ _ _ Hm Hd).
      rewrite IH.
      * rewrite classCount_insert. unfold classCount.
        case_decide as Hc; case_bool_decide;
          first [lia | rewrite <- Hc, Hd; simpl; lia | naive_solver].
      * intros g' Hg'. apply (is_Some_insert_present _ _ d); [done|].
        apply Hdom. by right.
Qed.
End PerClass.

Section PerClassLoop.
Variable iouThreshold : Q.
Variable gtDefects : list GroundTruthDefect.t.
Variable c : string.

(** Per class, every iteration of the detection loop counts one true or
    one false positive for the class of its detection, and touches neither
    the false negatives nor the reference counts. *)
Lemma detectionLoop_class aiDefects st st' :
  (∀ a, a ∈ aiDefects →
        is_Some (perClassData st !! normalizeAiType (Defect.type a))) →
  forEachM (processDetection iouThreshold gtDefects) aiDefects st = Some st' →
  (classCount ClassData.tp (perClassData st') c
   + classCount ClassData.fp (perClassData st') c
   = classCount ClassData.tp (perClassData st) c
     + classCount ClassData.fp (perClassData st) c
     + detectionsOfClass c aiDefects)%nat ∧
  classCount ClassData.fn (perClassData st') c
  = classCount ClassData.fn (perClassData st) c ∧
  classCount ClassData.totalGroundTruth (perClassData st') c
  = classCount ClassData.totalGroundTruth (perClassData st) c ∧
  (0 <= iouThreshold →
   classCount ClassData.tp (perClassData st) c
   = hitsOfClass c (matchedGtIndices st) 0 gtDefects →
   classCount ClassData.tp (perClassData st') c
   = hitsOfClass c (matchedGtIndices st') 0 gtDefects).
Proof.
  revert st. induction aiDefects as [|a rest IH]; intros st Hdom Hrun.
  - injection Hrun as <-. unfold detectionsOfClass. simpl. split_and!; try done; lia.
  - rewrite forEachM_cons in Hrun.
    destruct (Hdom a) as [d Hd]; [left|].
    pose proof (processDetection_spec iouThreshold gtDefects st a d Hd) as Hstep.
    assert (detectionsOfClass c (a :: rest)
            = ((if decide (normalizeAiType (Defect.type a) = c) then 1 else 0)
               + detectionsOfClass c rest)%nat) as Hcount.
    { unfold detectionsOfClass. rewrite filter_cons. by case_decide. }
    rewrite Hcount. clear Hcount.
    set (aiType := normalizeAiType (Defect.type a)) in *.
    destruct (outcomeOf iouThreshold gtDefects st a) as [i iou|] eqn:Ho;
      rewrite Hstep in Hrun; cbn [mbind option_bind] in Hrun;
      (apply IH in Hrun as (Hsum & Hfn & Htot & Htp);
       [|intros a' Ha'; apply (is_Some_insert_present _ _ d); [done|];
         apply Hdom; by right]);
      cbn [perClassData matchedGtIndices] in Hsum, Hfn, Htot, Htp.
    + pose proof (classCount_step c ClassData.tp _ _ _ (incrTp iou d) Hd) as Etp.
      pose proof (classCount_step c ClassData.fp _ _ _ (incrTp iou d) Hd) as Efp.
      pose proof (classCount_step c ClassData.fn _ _ _ (incrTp iou d) Hd) as Efn.
      pose proof (classCount_step c ClassData.totalGroundTruth _ _ _ (incrTp iou d) Hd)
        as Etot.
      simpl in Etp, Efp, Efn, Etot.
      split_and!; [case_decide; lia..|].
      intros Hthr Hinv. apply Htp; [done|].
      destruct (outcomeOf_justified iouThreshold gtDefects Hthr st a) as [Hj Hnew].
      rewrite Ho in Hj, Hnew. destruct Hj as (k & g & Hk & -> & Hty & _).
      replace (Z.of_nat k) with (0 + Z.of_nat k)%Z in * by lia.
      rewrite (hits_insert c _ 0 _ k g Hk Hnew). rewrite Hty. fold aiType.
      case_decide; lia.
    + pose proof (classCount_step c ClassData.tp _ _ _ (incrFp d) Hd) as Etp.
      pose proof (classCount_step c ClassData.fp _ _ _ (incrFp d) Hd) as Efp.
      pose proof (classCount_step c ClassData.fn _ _ _ (incrFp d) Hd) as Efn.
      pose proof (classCount_step c ClassData.totalGroundTruth _ _ _ (incrFp d) Hd)
        as Etot.
      simpl in Etp, Efp, Efn, Etot.
      split_and!; [case_decide; lia..|].
      intros Hthr Hinv. apply Htp; [done|]. case_decide; lia.
Qed.
End PerClassLoop.

Lemma hitsOfClass_empty c i l : hitsOfClass c ∅ i l = 0%nat.
Proof.
  revert i. induction l as [|g l IH]; intros i; [done|].
  simpl. rewrite IH. rewrite bool_decide_false; [done|]. set_solver.
Qed.

Lemma classCount_initial f aiDefects gtDefects c :
  classCount f (perClassData (initialState aiDefects gtDefects)) c
  = if bool_decide (c ∈ allClasses aiDefects gtDefects)
    then f (initClass gtDefects c) else 0%nat.
Proof.
  unfold classCount. simpl. rewrite initPerClassData_lookup.
  by case_bool_decide.
Qed.

(** X4. Class by class, with a non-negative threshold: the true and false
    positives of a class add up to the detections of that class, its true
    positives and false negatives add up to the references of that class,
    and [totalGroundTruth] is that number of references. *)
Theorem compareDetections_per_class_conservation
    (aiDefects : list Defect.t) (gtDefects : list GroundTruthDefect.t)
    (iouThreshold : Q) :
  0 <= iouThreshold →
  ∃ r, compareDetections aiDefects gtDefects iouThreshold = Some r ∧
       ∀ c m, ValidationMetrics.perClassMetrics r !! c = Some m →
         (ClassMetrics.tp m + ClassMetrics.fp m
          = detectionsOfClass c aiDefects)%nat ∧
         (ClassMetrics.tp m + ClassMetrics.fn m
          = referencesOfClass c gtDefects)%nat ∧
         ClassMetrics.totalGroundTruth m = referencesOfClass c gtDefects.
Proof.
  intros Hthr.
  destruct (compareDetections_spec aiDefects gtDefects iouThreshold)
    as (st & pcd & r & total & Hst & _ & Hpcd & Hcmp & _ & _ & _ & _ & _ & _ & _ & _
        & _ & _ & _ & Hm & Hdom & Htp & Hfp).
  exists r. split; [done|]. intros c m Hc.
  rewrite Hm in Hc. destruct (pcd !! c) as [d|] eqn:Hd; [|done].
  injection Hc as <-. simpl.
  assert (c ∈ allClasses aiDefects gtDefects) as Hin by (apply Hdom; by rewrite Hd).
  assert (∀ c', c' ∈ allClasses aiDefects gtDefects → is_Some (perClassData st !! c'))
    as Hdomst.
  { intros c' Hc'. specialize (Htp c'). apply Hdom in Hc' as [d' Hd'].
    rewrite Hd' in Htp. destruct (perClassData st !! c'); [eauto|done]. }
  destruct (detectionLoop_class iouThreshold gtDefects c aiDefects
              (initialState aiDefects gtDefects) st)
    as (Lsum & Lfn & Ltot & Ltp); [|exact Hst|].
  { intros a Ha. apply initial_dom. by apply allClasses_ai. }
  specialize (Ltp Hthr).
  rewrite !classCount_initial, bool_decide_true in * by done. simpl in *.
  rewrite hitsOfClass_empty in Ltp. specialize (Ltp eq_refl).
  pose proof (countMisses_class c (matchedGtIndices st) gtDefects 0 (perClassData st))
    as Mfn.
  fold (countMisses gtDefects st) in Mfn. rewrite <- Hpcd in Mfn.
  specialize (Mfn ltac:(intros g Hg; by apply Hdomst, allClasses_gt)).
  destruct (countMisses_spec (matchedGtIndices st) (allClasses aiDefects gtDefects)
              (allClasses_NoDup _ _) gtDefects 0 (perClassData st))
    as (_ & _ & _ & _ & _ & Mtot); [intros g Hg; by apply allClasses_gt|done|].
  cbv zeta in Mtot. fold (countMisses gtDefects st) in Mtot. rewrite <- Hpcd in Mtot.
  specialize (Htp c). specialize (Hfp c). specialize (Mtot c).
  pose proof (hits_plus_misses c (matchedGtIndices st) 0 gtDefects) as Hsplit.
  unfold classCount in *. rewrite Hd in *.
  destruct (perClassData st !! c) as [d0|]; simpl in *; [|done].
  injection Htp as Htp. injection Hfp as Hfp. injection Mtot as Mtot.
  fold (referencesOfClass c gtDefects) in Ltot.
  split_and!; lia.
Qed.

Lemma compareDetections_per_class_conservation_witness :
  ∃ r, compareDetections
         [Defect.mk "Pothole" (BoundingBox.mk (1#10) (1#10) (3#10) (3#10));
          Defect.mk "Block Crack" (BoundingBox.mk (1#2) (1#2) 1 1)]
         [GroundTruthDefect.mk "pothole" (BoundingBox.mk (1#10) (1#10) (3#10) (3#10));
          GroundTruthDefect.mk "CRACK" (BoundingBox.mk 0 0 (1#10) (1#10))]
         defaultIouThreshold = Some r ∧
       ∀ c m, ValidationMetrics.perClassMetrics r !! c = Some m →
         (ClassMetrics.tp m + ClassMetrics.fp m
          = detectionsOfClass c
              [Defect.mk "Pothole" (BoundingBox.mk (1#10) (1#10) (3#10) (3#10));
               Defect.mk "Block Crack" (BoundingBox.mk (1#2) (1#2) 1 1)])%nat ∧
         (ClassMetrics.tp m + ClassMetrics.fn m
          = referencesOfClass c
              [GroundTruthDefect.mk "pothole"
                 (BoundingBox.mk (1#10) (1#10) (3#10) (3#10));
               GroundTruthDefect.mk "CRACK" (BoundingBox.mk 0 0 (1#10) (1#10))])%nat ∧
         ClassMetrics.totalGroundTruth m
         = referencesOfClass c
             [GroundTruthDefect.mk "pothole"
                (BoundingBox.mk (1#10) (1#10) (3#10) (3#10));
              GroundTruthDefect.mk "CRACK" (BoundingBox.mk 0 0 (1#10) (1#10))].
Proof.
  apply compareDetections_per_class_conservation. vm_compute. discriminate.
Defined.

(** ** Thresholds at or below the initial best IoU *)

Lemma findBestMatch_iou_ge matched gtDefects aiDefect :
  -1 <= BestMatch.iou (findBestMatch matched gtDefects aiDefect).
Proof.
  destruct (findBestMatch_spec gtDefects matched aiDefect) as [->|Hc]; [simpl; lra|].
  destruct Hc as (k & g & _ & _ & _ & _ & ->).
  pose proof (calculateIou_nonneg (Defect.boundingBox aiDefect)
                (GroundTruthDefect.boundingBox g)). lra.
Qed.

Lemma outcomesFrom_all_matched iouThreshold gtDefects aiDefects st :
  iouThreshold <= -1 →
  length (matchedIndices (outcomesFrom iouThreshold gtDefects st aiDefects))
  = length (outcomesFrom iouThreshold gtDefects st aiDefects).
Proof.
  intros Hthr. revert st. induction aiDefects as [|a rest IH]; intros st; [done|].
  rewrite outcomesFrom_cons. unfold outcomeOf at 1; cbv zeta.
  pose proof (findBestMatch_iou_ge (matchedGtIndices st) gtDefects a).
  destruct (Qleb_spec iouThreshold
              (BestMatch.iou (findBestMatch (matchedGtIndices st) gtDefects a))); [|lra].
  rewrite matchedIndices_cons_tp. simpl. f_equal.
  destruct (processDetection iouThreshold gtDefects st a); [apply IH|done].
Qed.

Lemma matchedIndices_cons_fp os :
  matchedIndices (FalsePositive :: os) = matchedIndices os.
Proof. reflexivity. Qed.

Lemma matchedIndices_length_le os : (length (matchedIndices os) <= length os)%nat.
Proof.
  induction os as [|[i iou|] os IH]; [done| |].
  - rewrite matchedIndices_cons_tp. simpl. lia.
  - rewrite matchedIndices_cons_fp. simpl. lia.
Qed.

Lemma all_matched_no_FalsePositive os :
  length (matchedIndices os) = length os → Forall (λ o, o ≠ FalsePositive) os.
Proof.
  induction os as [|[i iou|] os IH]; intros Hall.
  - constructor.
  - rewrite matchedIndices_cons_tp in Hall. simpl in Hall.
    constructor; [done|]. apply IH. lia.
  - rewrite matchedIndices_cons_fp in Hall. simpl in Hall.
    pose proof (matchedIndices_length_le os). lia.
Qed.

(** X5. With a threshold of -1 or less the test [bestMatch.iou >= iouThreshold]
    always passes, even on the initial best match: every detection is counted
    as a match and none as a false positive, whatever the references. *)
Theorem compareDetections_threshold_below_initial
    (aiDefects : list Defect.t) (gtDefects : list GroundTruthDefect.t)
    (iouThreshold : Q) :
  iouThreshold <= -1 →
  ∃ r, compareDetections aiDefects gtDefects iouThreshold = Some r ∧
       ValidationMetrics.matches r = length aiDefects ∧
       ValidationMetrics.falsePositives r = 0%nat ∧
       Forall (λ o, o ≠ FalsePositive) (outcomes iouThreshold aiDefects gtDefects).
Proof.
  intros Hthr.
  destruct (compareDetections_spec aiDefects gtDefects iouThreshold)
    as (st & pcd & r & total & _ & _ & _ & Hcmp & Hlen & _ & Hmatches & Hfp & _).
  pose proof (outcomesFrom_all_matched iouThreshold gtDefects aiDefects
                (initialState aiDefects gtDefects) Hthr) as Hall.
  fold (outcomes iouThreshold aiDefects gtDefects) in Hall.
  exists r. split_and!; [done|lia|lia|].
  by apply all_matched_no_FalsePositive.
Qed.

Lemma compareDetections_threshold_below_initial_witness :
  ∃ r, compareDetections
         [Defect.mk "Rutting" (BoundingBox.mk 0 0 1 1)] [] (-1) = Some r ∧
       ValidationMetrics.matches r = 1%nat ∧
       ValidationMetrics.falsePositives r = 0%nat ∧
       Forall (λ o, o ≠ FalsePositive)
              (outcomes (-1) [Defect.mk "Rutting" (BoundingBox.mk 0 0 1 1)] []).
Proof.
  apply (compareDetections_threshold_below_initial
           [Defect.mk "Rutting" (BoundingBox.mk 0 0 1 1)] [] (-1)).
  vm_compute. discriminate.
Defined.

(** ** Ranges of the metrics *)

Section PrfMore.
Lemma QofNat_nonneg n : 0 <= QofNat n.
Proof.
  unfold QofNat. change 0 with (inject_Z 0). rewrite <- Zle_Qle. lia.
Qed.

Lemma QofNat_plus a b : QofNat (a + b) == QofNat a + QofNat b.
Proof. unfold QofNat. by rewrite Nat2Z.inj_add, inject_Z_plus. Qed.

Lemma ratioOrZero_range a b : 0 <= ratioOrZero a b <= 1.
Proof.
  unfold ratioOrZero. case_decide; [lra|].
  pose proof (QofNat_pos (a + b) ltac:(lia)) as Hpos.
  pose proof (QofNat_nonneg a). pose proof (QofNat_nonneg b).
  pose proof (QofNat_plus a b).
  split.
  - apply Qle_shift_div_l; lra.
  - apply Qle_shift_div_r; lra.
Qed.
End PrfMore.


(** ** Reading the track and locating frames *)

Section DoubleTrack.
Import PrimFloat.
Local Open Scope float_scope.
Import Double.GpxPoint.

Lemma Double_interpolateLocation_is_Some timestamp track videoStartTime :
  track ≠ [] → is_Some (Double.interpolateLocation timestamp track videoStartTime).
Proof.
  intros Hne. unfold Double.interpolateLocation. destruct track as [|first rest]; [done|].
  cbv zeta. destruct (Double.findBracket _ _) as [[p1 p2]|].
  - destruct (_ =? _); eauto.
  - destruct (_ <? _); eauto.
Qed.

Lemma Double_findBracket_Some_inv targetTime track p1 p2 :
  Double.findBracket targetTime track = Some (p1, p2) →
  (time p1 <=? targetTime) = true ∧ (targetTime <=? time p2) = true.
Proof.
  induction track as [|p l IH]; [done|]. destruct l as [|q l]; [done|].
  simpl. destruct (_ && _) eqn:E; [|exact IH].
  intros [= <- <-]. by apply andb_prop in E.
Qed.

Lemma eqb_refl_finite a : is_finite a = true → (a =? a) = true.
Proof. intros Fa. pose proof (is_finite_not_nan _ Fa). float_order. Qed.

(** With the target at the time of the first point of the pair the factor
    is a zero, and the interpolated coordinate is that of the point. *)
Lemma interpolate_factor_zero targetTime t1 t2 a1 a2 :
  is_finite t1 = true → (targetTime =? t1) = true →
  (targetTime <=? t2) = true → (t2 - t1 =? 0) = false →
  is_finite (a2 - a1) = true →
  (a1 + (a2 - a1) * ((targetTime - t1) / (t2 - t1)) =? a1) = true.
Proof.
  intros Ft1 Heq Hle Hdiff Fd.
  pose proof (sub_finite_inv _ _ Fd) as [_ Fa1].
  apply add_zero_r; [done|]. apply mul_zero_r; [done|].
  apply div_zero_l; [|by apply sub_not_nan; [apply leb_fle in Hle as (_ & ? & _)|]|done].
  apply sub_eq_zero; [by apply (eqb_finite _ t1)|done..].
Qed.

Lemma interpolateLocation_at_pair_start timestamp track videoStartTime p1 p2 :
  Double.findBracket (videoStartTime + timestamp * 1000) track = Some (p1, p2) →
  (videoStartTime + timestamp * 1000 =? time p1) = true →
  is_finite (time p1) = true →
  is_finite (lat p2 - lat p1) = true → is_finite (lon p2 - lon p1) = true →
  ∃ l, Double.interpolateLocation timestamp track videoStartTime = Some l ∧
       (Double.Location.latitude l =? lat p1) = true ∧
       (Double.Location.longitude l =? lon p1) = true.
Proof.
  intros Hfb Heq Ft1 Flat Flon.
  pose proof (Double_findBracket_Some_inv _ _ _ _ Hfb) as [_ Hle].
  unfold Double.interpolateLocation. destruct track as [|first rest]; [done|].
  cbv zeta. rewrite Hfb.
  destruct (time p2 - time p1 =? 0) eqn:Hdiff.
  - eexists. split; [done|]. simpl.
    pose proof (sub_finite_inv _ _ Flat) as [_ ?].
    pose proof (sub_finite_inv _ _ Flon) as [_ ?].
    split; by apply eqb_refl_finite.
  - eexists. split; [done|]. simpl.
    split; by apply interpolate_factor_zero.
Qed.

Lemma parseGpx_inr_inv xmlDoc track :
  Double.parseGpx xmlDoc = inr track →
  track ≠ [] ∧ (Double.validTimes track = true → Sorted Double.timeLe track).
Proof.
  unfold Double.parseGpx. destruct (Double.GpxDocument.parsererror xmlDoc); [done|].
  destruct (Double.GpxDocument.trkpts xmlDoc) as [|pt pts]; [done|].
  destruct (omap Double.trackPoint (pt :: pts)) as [|p points]; [done|].
  intros Heq. assert (Double.sortPoints (p :: points) = track) as <- by congruence.
  split.
  - intros Hnil.
    pose proof (Double_sortPoints_Permutation (p :: points)) as Hperm.
    rewrite Hnil in Hperm. by apply Permutation_nil in Hperm.
  - intros Hv. apply StronglySorted_Sorted, Double_sortPoints_sorted.
    eapply validTimes_Permutation; [|exact Hv]. apply Double_sortPoints_Permutation.
Qed.

(** X10. [parseGpx] throws exactly when the document has a parser error or
    no track point with latitude, longitude and time; otherwise it returns
    those track points, all of them, and the result is not empty. When the
    time of every point is that of a valid date, the result is in
    non-decreasing order of time. *)
Theorem parseGpx_result (xmlDoc : Double.GpxDocument.t) :
  match Double.parseGpx xmlDoc with
  | inr track =>
      Double.GpxDocument.parsererror xmlDoc = false ∧
      track ≠ [] ∧
      Permutation track (omap Double.trackPoint (Double.GpxDocument.trkpts xmlDoc)) ∧
      (Double.validTimes track = true → Sorted Double.timeLe track)
  | inl _ =>
      Double.GpxDocument.parsererror xmlDoc = true ∨
      omap Double.trackPoint (Double.GpxDocument.trkpts xmlDoc) = []
  end.
Proof.
  destruct (Double.parseGpx xmlDoc) as [msg|track] eqn:Hparse.
  - unfold Double.parseGpx in Hparse.
    destruct (Double.GpxDocument.parsererror xmlDoc); [by left|].
    destruct (Double.GpxDocument.trkpts xmlDoc) as [|pt pts]; [by right|].
    destruct (omap Double.trackPoint (pt :: pts)) as [|p points]; [by right|done].
  - pose proof (parseGpx_inr_inv _ _ Hparse) as [Hne Hsorted].
    unfold Double.parseGpx in Hparse.
    destruct (Double.GpxDocument.parsererror xmlDoc); [done|].
    destruct (Double.GpxDocument.trkpts xmlDoc) as [|pt pts]; [done|].
    destruct (omap Double.trackPoint (pt :: pts)) as [|p points]; [done|].
    assert (Double.sortPoints (p :: points) = track) as <- by congruence.
    split_and!; [done|done| |done].
    apply Double_sortPoints_Permutation.
Qed.

(** X11. After a successful [parseGpx], every frame of the video gets a
    location and the video is taken to start at the time of the first point
    of the track. When the times are those of valid dates, that point is
    the earliest fix; and when, moreover, the coordinates are finite numbers
    whose differences do not overflow, the frame at timestamp 0 is located
    at that fix. *)
Theorem frameLocation_after_parseGpx
    (xmlDoc : Double.GpxDocument.t) (gpxTrack : list Double.GpxPoint.t) :
  Double.parseGpx xmlDoc = inr gpxTrack →
  (∀ timestamp, is_Some (Double.frameLocation gpxTrack timestamp)) ∧
  ∃ first rest,
    gpxTrack = first :: rest ∧
    Double.videoStartTimeOf gpxTrack = time first ∧
    (Double.validTimes gpxTrack = true →
     Forall (Double.timeLe first) rest ∧
     (Double.finiteSteps gpxTrack = true →
      ∃ l, Double.frameLocation gpxTrack 0 = Some l ∧
           (Double.Location.latitude l =? lat first) = true ∧
           (Double.Location.longitude l =? lon first) = true)).
Proof.
  intros Hparse. apply parseGpx_inr_inv in Hparse as [Hne Hsorted].
  destruct gpxTrack as [|first rest]; [done|].
  split.
  - intros timestamp. unfold Double.frameLocation.
    change ((0 <? length (first :: rest))%nat) with true. cbv iota.
    by apply Double_interpolateLocation_is_Some.
  - exists first, rest. split_and!; [done|done|].
    intros Hv. specialize (Hsorted Hv).
    apply Sorted_StronglySorted in Hsorted; [|apply Double_timeLe_trans].
    apply StronglySorted_inv in Hsorted as [_ Hfirst].
    split; [done|]. intros Hsteps.
    apply validTimes_Forall in Hv. apply Forall_cons in Hv as [Ft0 Hv].
    pose proof (is_finite_not_nan _ Ft0) as Nt0.
    unfold Double.frameLocation.
    change ((0 <? length (first :: rest))%nat) with true. cbv iota.
    change (Double.videoStartTimeOf (first :: rest)) with (time first).
    assert ((time first + 0 * 1000 =? time first) = true) as Htarget.
    { change (0 * 1000) with 0. by apply add_zero_r. }
    destruct rest as [|q rest].
    + unfold Double.interpolateLocation. simpl Double.findBracket. cbv zeta iota.
      assert ((time first + 0 * 1000 <? time first) = false) as ->.
      { destruct (_ <? _) eqn:E; [|done]. exfalso. float_order. }
      simpl in Hsteps. apply andb_prop in Hsteps as [? ?].
      eexists. split; [done|]. split; by apply eqb_refl_finite.
    + apply Forall_cons in Hfirst as [Hq _]. unfold Double.timeLe in Hq.
      simpl in Hsteps. apply andb_prop in Hsteps as [Hs _].
      apply andb_prop in Hs as [Flat Flon].
      apply (interpolateLocation_at_pair_start 0 (first :: q :: rest) (time first) first q);
        try done.
      simpl Double.findBracket. change (0 * 1000) with 0 in Htarget.
      assert ((time first <=? time first + 0) = true) as -> by float_order.
      assert ((time first + 0 <=? time q) = true) as -> by float_order.
      done.
Qed.

Lemma frameLocation_after_parseGpx_witness :
  (∀ timestamp,
     is_Some (Double.frameLocation
                [Double.GpxPoint.mk 3 2 1000; Double.GpxPoint.mk 1 2 5000] timestamp)) ∧
  ∃ first rest,
    [Double.GpxPoint.mk 3 2 1000; Double.GpxPoint.mk 1 2 5000] = first :: rest ∧
    Double.videoStartTimeOf [Double.GpxPoint.mk 3 2 1000; Double.GpxPoint.mk 1 2 5000]
    = time first ∧
    (Double.validTimes [Double.GpxPoint.mk 3 2 1000; Double.GpxPoint.mk 1 2 5000] = true →
     Forall (Double.timeLe first) rest ∧
     (Double.finiteSteps [Double.GpxPoint.mk 3 2 1000; Double.GpxPoint.mk 1 2 5000]
      = true →
      ∃ l, Double.frameLocation
             [Double.GpxPoint.mk 3 2 1000; Double.GpxPoint.mk 1 2 5000] 0 = Some l ∧
           (Double.Location.latitude l =? lat first) = true ∧
           (Double.Location.longitude l =? lon first) = true)).
Proof.
  apply (frameLocation_after_parseGpx
           (Double.GpxDocument.mk false
              [Double.TrkPt.mk (Some 1) (Some 2) (Some 5000);
               Double.TrkPt.mk None (Some 2) (Some 7000);
               Double.TrkPt.mk (Some 3) (Some 2) (Some 1000)])).
  reflexivity.
Defined.
End DoubleTrack.

(** ** Labels up to letter case *)

Section CaseFacts.
Lemma toLowerChar_idem c : toLowerChar (toLowerChar c) = toLowerChar c.
Proof. by destruct c as [[] [] [] [] [] [] [] []]. Qed.

Lemma toUpperChar_idem c : toUpperChar (toUpperChar c) = toUpperChar c.
Proof. by destruct c as [[] [] [] [] [] [] [] []]. Qed.

Lemma toLowerChar_upper c : toLowerChar (toUpperChar c) = toLowerChar c.
Proof. by destruct c as [[] [] [] [] [] [] [] []]. Qed.

Lemma toUpperChar_lower c : toUpperChar (toLowerChar c) = toUpperChar c.
Proof. by destruct c as [[] [] [] [] [] [] [] []]. Qed.

Lemma toLowerCase_idem s : toLowerCase (toLowerCase s) = toLowerCase s.
Proof. induction s as [|c s IH]; [done|]. simpl. by rewrite toLowerChar_idem, IH. Qed.

Lemma normalizeGtType_cons c r :
  normalizeGtType (String c r) = String (toUpperChar c) (toLowerCase r).
Proof. reflexivity. Qed.

Lemma toLowerCase_normalizeGtType s : toLowerCase (normalizeGtType s) = toLowerCase s.
Proof.
  destruct s as [|c r]; [done|]. rewrite normalizeGtType_cons. simpl.
  by rewrite toLowerChar_upper, toLowerCase_idem.
Qed.

Lemma normalizeGtType_toLowerCase s : normalizeGtType (toLowerCase s) = normalizeGtType s.
Proof.
  destruct s as [|c r]; [done|]. simpl toLowerCase. rewrite !normalizeGtType_cons.
  by rewrite toUpperChar_lower, toLowerCase_idem.
Qed.

Lemma normalizeGtType_idem s : normalizeGtType (normalizeGtType s) = normalizeGtType s.
Proof.
  destruct s as [|c r]; [done|]. rewrite !normalizeGtType_cons.
  by rewrite toUpperChar_idem, toLowerCase_idem.
Qed.

Lemma normalizeGtType_eq_iff g1 g2 :
  normalizeGtType g1 = normalizeGtType g2 ↔ toLowerCase g1 = toLowerCase g2.
Proof.
  split; intros H.
  - by rewrite <- (toLowerCase_normalizeGtType g1), H, toLowerCase_normalizeGtType.
  - by rewrite <- (normalizeGtType_toLowerCase g1), H, normalizeGtType_toLowerCase.
Qed.
End CaseFacts.

(** X12. For labels of ASCII characters: normalizing a reference label twice
    is normalizing it once; two reference labels get the same class exactly
    when they are equal up to letter case; and a reference is eligible for a
    detection exactly when its label is, up to letter case, the detection's
    class name (Crack, Pothole, or the detection's own type). *)
Theorem normalizeGtType_up_to_case (g1 g2 : string) (t : DefectType) :
  asciiString g1 = true → asciiString g2 = true →
  normalizeGtType (normalizeGtType g1) = normalizeGtType g1 ∧
  (normalizeGtType g1 = normalizeGtType g2 ↔ toLowerCase g1 = toLowerCase g2) ∧
  (normalizeGtType g1 = normalizeAiType (DefectType_label t) ↔
   toLowerCase g1 = toLowerCase (normalizeAiType (DefectType_label t))).
Proof.
  intros _ _. split_and!.
  - apply normalizeGtType_idem.
  - apply normalizeGtType_eq_iff.
  - rewrite <- normalizeGtType_eq_iff.
    assert (normalizeGtType (normalizeAiType (DefectType_label t))
            = normalizeAiType (DefectType_label t)) as -> by (by destruct t).
    done.
Qed.

Lemma normalizeGtType_up_to_case_witness :
  normalizeGtType (normalizeGtType "pOTHOLE") = normalizeGtType "pOTHOLE" ∧
  (normalizeGtType "pOTHOLE" = normalizeGtType "Pothole" ↔
   toLowerCase "pOTHOLE" = toLowerCase "Pothole") ∧
  (normalizeGtType "pOTHOLE" = normalizeAiType (DefectType_label Pothole) ↔
   toLowerCase "pOTHOLE" = toLowerCase (normalizeAiType (DefectType_label Pothole))).
Proof.
  apply normalizeGtType_up_to_case; reflexivity.
Defined.

(** ** Reading the annotations *)

Lemma omap_length_le {A B} (f : A → option B) (l : list A) :
  (length (omap f l) <= length l)%nat.
Proof.
  induction l as [|x l IH]; simpl; [lia|].
  change (list_omap A B f l) with (omap f l). destruct (f x); simpl; lia.
Qed.

Lemma vocDefect_Some_inv imageWidth imageHeight obj g :
  vocDefect imageWidth imageHeight obj = Some g →
  ∃ nameText xmin ymin xmax ymax,
    obj = VocObject.mk (Some nameText)
            (Some (VocBndbox.mk (Some xmin) (Some ymin) (Some xmax) (Some ymax))) ∧
    truthy nameText = true ∧
    GroundTruthDefect.type g = normalizeGtType nameText ∧
    GroundTruthDefect.boundingBox g
    = BoundingBox.mk (inject_Z xmin / inject_Z imageWidth)
                     (inject_Z ymin / inject_Z imageHeight)
                     (inject_Z xmax / inject_Z imageWidth)
                     (inject_Z ymax / inject_Z imageHeight).
Proof.
  unfold vocDefect. destruct obj as [[nameText|] [[[xmin|] [ymin|] [xmax|] [ymax|]]|]];
    try done; simpl; destruct (truthy nameText) eqn:Hn; try done.
  intros [= <-]. by exists nameText, xmin, ymin, xmax, ymax.
Qed.

(** X13. [parsePascalVoc] throws exactly on a parser error or a zero image
    dimension. Otherwise it returns at most one reference per [object], and
    every reference has a non-empty type that (for ASCII names) the
    comparison's own normalization leaves as it is. *)
Theorem parsePascalVoc_result
    (xmlDoc : VocDocument.t) (imageWidth imageHeight : Z) :
  Forall (λ obj, from_option asciiString true (VocObject.name obj) = true)
         (VocDocument.objects xmlDoc) →
  match parsePascalVoc xmlDoc imageWidth imageHeight with
  | inr defects =>
      VocDocument.parsererror xmlDoc = false ∧
      imageWidth ≠ 0%Z ∧ imageHeight ≠ 0%Z ∧
      (length defects <= length (VocDocument.objects xmlDoc))%nat ∧
      Forall (λ g, GroundTruthDefect.type g ≠ EmptyString ∧
                   normalizeGtType (GroundTruthDefect.type g)
                   = GroundTruthDefect.type g) defects
  | inl _ =>
      VocDocument.parsererror xmlDoc = true ∨
      imageWidth = 0%Z ∨ imageHeight = 0%Z
  end.
Proof.
  intros _. unfold parsePascalVoc.
  destruct (VocDocument.parsererror xmlDoc); [by left|].
  destruct (Z.eqb_spec imageWidth 0); [by right; left|].
  destruct (Z.eqb_spec imageHeight 0); [by right; right|]. simpl.
  split_and!; try done.
  - apply omap_length_le.
  - apply Forall_forall. intros g Hg.
    apply list_elem_of_omap in Hg as (obj & _ & Hobj).
    apply vocDefect_Some_inv in Hobj as (nameText & ? & ? & ? & ? & _ & Hn & -> & _).
    split; [|apply normalizeGtType_idem].
    by destruct nameText.
Qed.

Lemma parsePascalVoc_result_witness :
  match parsePascalVoc
          (VocDocument.mk false
             [VocObject.mk (Some "pothole"%string)
                (Some (VocBndbox.mk (Some 10%Z) (Some 10%Z) (Some 30%Z) (Some 30%Z)));
              VocObject.mk (Some "crack"%string) None]) 100 100 with
  | inr defects =>
      false = false ∧ 100%Z ≠ 0%Z ∧ 100%Z ≠ 0%Z ∧
      (length defects <= 2)%nat ∧
      Forall (λ g, GroundTruthDefect.type g ≠ EmptyString ∧
                   normalizeGtType (GroundTruthDefect.type g)
                   = GroundTruthDefect.type g) defects
  | inl _ => false = true ∨ 100%Z = 0%Z ∨ 100%Z = 0%Z
  end.
Proof.
  apply (parsePascalVoc_result
           (VocDocument.mk false
              [VocObject.mk (Some "pothole"%string)
                 (Some (VocBndbox.mk (Some 10%Z) (Some 10%Z) (Some 30%Z) (Some 30%Z)));
               VocObject.mk (Some "crack"%string) None]) 100 100).
  repeat constructor.
Defined.

(** ** Writing a record of comma-separated fields *)

Section Csv.

Lemma includes_char_cons d c s :
  includes (String c s) (String d EmptyString)
  = Ascii.eqb c d || includes s (String d EmptyString).
Proof.
  rewrite includes_cons. unfold String.prefix.
  destruct (ascii_dec d c) as [->|Hne].
  - rewrite Ascii.eqb_refl. by destruct s.
  - apply Ascii.eqb_neq in Hne. rewrite Ascii.eqb_sym in Hne. by rewrite Hne.
Qed.

Lemma includes_char_nil d : includes EmptyString (String d EmptyString) = false.
Proof. reflexivity. Qed.

Lemma append_nil_r (s : string) : (s +:+ EmptyString)%string = s.
Proof. induction s as [|c s IH]; [done|]. by rewrite append_cons_l, IH. Qed.

Lemma append_assoc (a b c : string) : ((a +:+ b) +:+ c = a +:+ (b +:+ c))%string.
Proof.
  induction a as [|x a IH]; [by rewrite !append_nil_l|].
  by rewrite !append_cons_l, IH.
Qed.

Lemma readCsv_fieldEnd st acc tail :
  fieldEnd tail → st ≠ Quoted → readCsv st acc tail = readCsv Unquoted acc tail.
Proof. intros [->|[r ->]] Hst; by destruct st. Qed.

Lemma isTextData_not_special c :
  isTextData c = true →
  Ascii.eqb c commaChar = false ∧ Ascii.eqb c quoteChar = false.
Proof. by destruct c as [[] [] [] [] [] [] [] []]. Qed.

Lemma readCsv_plain acc s tail :
  allChars isTextData s = true →
  readCsv Unquoted acc (s +:+ tail)%string
  = readCsv Unquoted (rev (list_ascii_of_string s) ++ acc) tail.
Proof.
  revert acc. induction s as [|c s IH]; intros acc Hs; [by rewrite append_nil_l|].
  simpl in Hs. apply andb_prop in Hs as [Hc Hs].
  destruct (isTextData_not_special c Hc) as [Hc1 Hc2].
  rewrite append_cons_l. simpl readCsv. rewrite Hc1, Hc. cbv iota.
  rewrite IH by done. simpl list_ascii_of_string. simpl rev.
  by rewrite <- app_assoc.
Qed.

Lemma readCsv_FieldStart_text c r :
  isTextData c = true →
  readCsv FieldStart [] (String c r) = readCsv Unquoted [c] r.
Proof.
  intros Hc. destruct (isTextData_not_special c Hc) as [Hc1 Hc2].
  simpl readCsv. by rewrite Hc1, Hc2, Hc.
Qed.

Lemma readCsv_plain_start s tail :
  allChars isTextData s = true → fieldEnd tail →
  readCsv FieldStart [] (s +:+ tail)%string
  = readCsv Unquoted (rev (list_ascii_of_string s)) tail.
Proof.
  intros Hs Htail. destruct s as [|c s].
  - rewrite append_nil_l. by apply readCsv_fieldEnd.
  - simpl in Hs. apply andb_prop in Hs as [Hc Hs].
    rewrite append_cons_l, readCsv_FieldStart_text by done.
    rewrite (readCsv_plain [c] s tail) by done.
    simpl list_ascii_of_string. by simpl rev.
Qed.

Lemma readCsv_quoted acc s tail :
  allChars (λ c, isQuotedData c || Ascii.eqb c quoteChar) s = true →
  readCsv Quoted acc (doubleQuotes s +:+ String quoteChar tail)%string
  = readCsv QuoteInQuoted (rev (list_ascii_of_string s) ++ acc) tail.
Proof.
  revert acc. induction s as [|c s IH]; intros acc Hs.
  - simpl doubleQuotes. rewrite append_nil_l. reflexivity.
  - simpl in Hs. apply andb_prop in Hs as [Hc Hs].
    simpl doubleQuotes. destruct (Ascii.eqb c quoteChar) eqn:Hq.
    + apply Ascii.eqb_eq in Hq as ->. rewrite !append_cons_l.
      change (readCsv Quoted acc (String quoteChar (String quoteChar ?x)))
        with (readCsv Quoted (quoteChar :: acc) x).
      rewrite IH by done. simpl list_ascii_of_string. simpl rev.
      by rewrite <- app_assoc.
    + rewrite orb_false_r in Hc.
      rewrite append_cons_l. simpl readCsv. rewrite Hq, Hc.
      rewrite IH by done. simpl list_ascii_of_string. simpl rev.
      by rewrite <- app_assoc.
Qed.

Lemma readCsv_escapeCSV field tail :
  isCsvField (default EmptyString field) = true → fieldEnd tail →
  readCsv FieldStart [] (escapeCSV field +:+ tail)%string
  = readCsv Unquoted (rev (list_ascii_of_string (default EmptyString field))) tail.
Proof.
  intros Hf Htail. destruct field as [result|]; simpl default in *.
  - unfold escapeCSV. unfold isCsvField in Hf. apply andb_prop in Hf as [Hall Hq].
    fold (isQuotedByEscapeCSV result).
    destruct (isQuotedByEscapeCSV result); simpl in Hq.
    + rewrite append_cons_l, append_assoc, append_cons_l, append_nil_l.
      change (readCsv FieldStart [] (String quoteChar ?x)) with (readCsv Quoted [] x).
      rewrite readCsv_quoted, app_nil_r by done. by apply readCsv_fieldEnd.
    + by apply readCsv_plain_start.
  - unfold escapeCSV. rewrite append_nil_l. by apply readCsv_fieldEnd.
Qed.

Lemma readCsv_Unquoted_comma acc r :
  readCsv Unquoted acc (String commaChar r)
  = cons (string_of_list_ascii (rev acc)) <$> readCsv FieldStart [] r.
Proof. reflexivity. Qed.

Lemma readCsv_joinComma field fields :
  forallb (λ f, isCsvField (default EmptyString f)) (field :: fields) = true →
  readCsvRecord (joinComma (map escapeCSV (field :: fields)))
  = Some (map (default EmptyString) (field :: fields)).
Proof.
  unfold readCsvRecord. revert field.
  induction fields as [|f' fields IH]; intros field Hall;
    simpl in Hall; apply andb_prop in Hall as [Hf Hall].
  - simpl map. simpl joinComma.
    rewrite <- (append_nil_r (escapeCSV field)).
    rewrite readCsv_escapeCSV by (done || by left). simpl readCsv.
    by rewrite rev_involutive, string_of_list_ascii_of_string.
  - change (joinComma (map escapeCSV (field :: f' :: fields)))
      with (escapeCSV field
            +:+ String commaChar (joinComma (map escapeCSV (f' :: fields))))%string.
    rewrite readCsv_escapeCSV by (done || (right; eauto)).
    rewrite readCsv_Unquoted_comma, IH by done.
    by rewrite rev_involutive, string_of_list_ascii_of_string.
Qed.

(** A carriage return outside quotes ends the reading. *)
Lemma readCsv_bare_CR pre post :
  allChars isTextData pre = true →
  readCsvRecord (pre +:+ String crChar post)%string = None.
Proof.
  intros Hpre. unfold readCsvRecord. destruct pre as [|c pre].
  - by rewrite append_nil_l.
  - simpl in Hpre. apply andb_prop in Hpre as [Hc Hpre].
    rewrite append_cons_l, readCsv_FieldStart_text by done.
    by rewrite readCsv_plain.
Qed.
End Csv.

(** X15. A row written as [fields.map(escapeCSV).join(',')] is read back,
    by the grammar of RFC 4180, as the fields it was written from
    ([undefined] and [null] as the empty string) when those are made of
    printable ASCII text, commas, double quotes, carriage returns and line
    feeds and have a carriage return only together with a comma, a quote or
    a line feed: commas, quotes and line feeds inside a field neither split
    nor merge fields, and two such rows are written alike only when their
    fields agree. A field of text with a carriage return and none of the
    three is written without quotes, and the row is not a record of the
    grammar. *)
Theorem escapeCSV_round_trip :
  (∀ fields : list (option string),
     fields ≠ [] →
     forallb (λ f, isCsvField (default EmptyString f)) fields = true →
     readCsvRecord (joinComma (map escapeCSV fields))
     = Some (map (default EmptyString) fields) ∧
     ∀ fields',
       fields' ≠ [] →
       forallb (λ f, isCsvField (default EmptyString f)) fields' = true →
       joinComma (map escapeCSV fields) = joinComma (map escapeCSV fields') →
       map (default EmptyString) fields = map (default EmptyString) fields') ∧
  (∀ pre post : string,
     allChars isTextData pre = true →
     isQuotedByEscapeCSV (pre +:+ String crChar post) = false →
     escapeCSV (Some (pre +:+ String crChar post)%string)
     = (pre +:+ String crChar post)%string ∧
     readCsvRecord (joinComma [escapeCSV (Some (pre +:+ String crChar post)%string)])
     = None).
Proof.
  split.
  - intros fields Hne Hall. destruct fields as [|field fields]; [done|].
    split; [by apply readCsv_joinComma|].
    intros [|field' fields'] Hne' Hall' Heq; [done|].
    pose proof (readCsv_joinComma field fields Hall) as H1.
    pose proof (readCsv_joinComma field' fields' Hall') as H2.
    rewrite Heq in H1. congruence.
  - intros pre post Hpre Hq.
    assert (escapeCSV (Some (pre +:+ String crChar post)%string)
            = (pre +:+ String crChar post)%string) as Hesc.
    { unfold escapeCSV. fold (isQuotedByEscapeCSV (pre +:+ String crChar post)).
      by rewrite Hq. }
    split; [done|].
    change (joinComma [?x]) with x. rewrite Hesc. by apply readCsv_bare_CR.
Qed.

Lemma escapeCSV_round_trip_witness :
  readCsvRecord (joinComma (map escapeCSV
    [Some "Pothole, deep"%string; None; Some "plain"%string]))
  = Some (map (default EmptyString)
    [Some "Pothole, deep"%string; None; Some "plain"%string]).
Proof.
  apply (proj1 escapeCSV_round_trip
           [Some "Pothole, deep"%string; None; Some "plain"%string]).
  - discriminate.
  - reflexivity.
Defined.

(** ** Validating against an annotation file *)

(** X16. The validation step of [handleAnalyze] leaves the metrics undefined
    exactly when [parsePascalVoc] throws, that is on a parser error or a
    zero image dimension: the comparison itself never throws on what the
    parser returns. When the metrics are defined, every detection is a match
    or a false positive, and every [object] of the file that the parser
    keeps is a match or a miss; objects the parser drops are not counted. *)
Theorem validationMetricsOf_result
    (aiDefects : list Defect.t) (xmlDoc : VocDocument.t) (width height : Z) :
  match validationMetricsOf aiDefects xmlDoc width height with
  | Some r =>
      VocDocument.parsererror xmlDoc = false ∧ width ≠ 0%Z ∧ height ≠ 0%Z ∧
      (ValidationMetrics.matches r + ValidationMetrics.falsePositives r
       = length aiDefects)%nat ∧
      (ValidationMetrics.matches r + ValidationMetrics.misses r
       = length (omap (vocDefect width height) (VocDocument.objects xmlDoc)))%nat ∧
      (ValidationMetrics.matches r + ValidationMetrics.misses r
       <= length (VocDocument.objects xmlDoc))%nat
  | None =>
      VocDocument.parsererror xmlDoc = true ∨ width = 0%Z ∨ height = 0%Z
  end.
Proof.
  unfold validationMetricsOf, parsePascalVoc.
  destruct (VocDocument.parsererror xmlDoc); [by left|].
  destruct (Z.eqb_spec width 0); [by right; left|].
  destruct (Z.eqb_spec height 0); [by right; right|]. simpl orb. cbv iota.
  set (groundTruth := omap (vocDefect width height) (VocDocument.objects xmlDoc)).
  destruct (compareDetections_spec aiDefects groundTruth defaultIouThreshold)
    as (st & pcd & r & total & _ & _ & _ & Hcmp & _ & Hst & Hmatches & Hfp & Hmiss & _).
  rewrite Hcmp.
  assert (0 <= defaultIouThreshold) as Hthr by (unfold defaultIouThreshold; lra).
  destruct (outcomesFrom_one_to_one defaultIouThreshold groundTruth Hthr aiDefects
              (initialState aiDefects groundTruth)) as [Hnd Hrange].
  fold (outcomes defaultIouThreshold aiDefects groundTruth) in Hnd, Hrange.
  assert (ValidationMetrics.matches r + ValidationMetrics.misses r
          = length groundTruth)%nat as Hgt.
  { rewrite Hmiss, Hst, Hmatches.
    pose proof (unmatched_plus_matched _ (length groundTruth) Hnd) as H.
    rewrite Nat.add_comm. apply H. intros i Hi. by apply Hrange. }
  split_and!; try done; [lia|].
  rewrite Hgt. apply omap_length_le.
Qed.
